(** * NovaBar: the wlr-foreign-toplevel focus tracker (src/wayland/wlr-toplevel.c)

    A shallow embedding of the C module that tracks the focused window on
    wlroots compositors, and the properties of its specification.

    The module is C code over file-scope statics, a malloc heap and the
    libwayland client library.  It is embedded as commands of a state and
    error monad over a [world]:
    - the statics of the translation unit ([simple_callback], [display],
      [registry], [toplevel_manager], [toplevels]);
    - the C heap: the [struct toplevel_handle] blocks and the character
      blocks returned by [strdup], each keyed by its address;
    - the client library: which library objects (display, proxies) are
      alive, the default event queue of the connection, the number of
      announced read intents, and what is readable on the socket;
    - the trace of observable effects (library calls, invocations of the
      host's callback).

    A command ends in [Ok], in a [Fault] (what C leaves undefined: reading
    or freeing a dead block, using a destroyed library object, a null
    dereference), or in [OutOfFuel] for a loop that did not finish. *)

From Stdlib Require Import ZArith String List Lia.
From stdpp Require Import base option list gmap sets.

Local Open Scope Z_scope.

(** ** Data model *)

(** Addresses.  A nullable C pointer is an [option loc]; [None] is NULL. *)
Definition loc := positive.

(** [struct toplevel_handle] (wlr-toplevel.c, lines 34-40). *)
Record toplevel_handle := mk_toplevel_handle {
  handle : option loc;   (* struct zwlr_foreign_toplevel_handle_v1 *handle *)
  app_id : option loc;   (* char *app_id *)
  title : option loc;    (* char *title *)
  focused : Z;           (* int focused *)
  next : option loc      (* struct toplevel_handle *next *)
}.

(** What [calloc(1, sizeof(struct toplevel_handle))] returns: all zero. *)
Definition zeroed_handle : toplevel_handle :=
  mk_toplevel_handle None None None 0 None.

Definition with_handle (v : option loc) (r : toplevel_handle) :=
  mk_toplevel_handle v (app_id r) (title r) (focused r) (next r).
Definition with_app_id (v : option loc) (r : toplevel_handle) :=
  mk_toplevel_handle (handle r) v (title r) (focused r) (next r).
Definition with_title (v : option loc) (r : toplevel_handle) :=
  mk_toplevel_handle (handle r) (app_id r) v (focused r) (next r).
Definition with_focused (v : Z) (r : toplevel_handle) :=
  mk_toplevel_handle (handle r) (app_id r) (title r) v (next r).
Definition with_next (v : option loc) (r : toplevel_handle) :=
  mk_toplevel_handle (handle r) (app_id r) (title r) (focused r) v.

(** The two constants the module takes from the generated protocol header
    (wlr-foreign-toplevel-management-unstable-v1-client-protocol.h), which
    is produced at build time: the value of the "activated" entry of the
    state enumeration and the name of the manager interface. *)
Class ProtocolHeader := {
  ZWLR_FOREIGN_TOPLEVEL_HANDLE_V1_STATE_ACTIVATED : Z;
  zwlr_foreign_toplevel_manager_v1_interface_name : string
}.

(** The events the library hands to the listeners of this module, with the
    arguments of the listener call: [data] is the user pointer given to
    [add_listener], the next argument is the proxy the event is for. *)
Inductive wl_event :=
  | registry_global (registry : loc) (name : Z) (interface : string) (version : Z)
  | registry_global_remove (registry : loc) (name : Z)
  | manager_toplevel (manager : loc) (hdl : loc)
  | manager_finished (manager : loc)
  | handle_title (data : loc) (hdl : loc) (text : option string)
  | handle_app_id (data : loc) (hdl : loc) (text : option string)
  | handle_output_enter (data : loc) (hdl : loc) (output : loc)
  | handle_output_leave (data : loc) (hdl : loc) (output : loc)
  | handle_state (data : loc) (hdl : loc) (entries : list Z)
  | handle_done (data : loc) (hdl : loc)
  | handle_closed (data : loc) (hdl : loc)
  | handle_parent (data : loc) (hdl : loc) (parent : option loc).

(** Calls into libwayland-client and poll(2), as they appear in the trace. *)
Inductive libcall :=
  | call_display_connect
  | call_display_get_registry
  | call_registry_add_listener (registry : loc)
  | call_display_roundtrip
  | call_registry_bind (registry : loc) (name : Z) (version : Z)
  | call_manager_add_listener (manager : loc)
  | call_handle_add_listener (hdl : loc) (data : loc)
  | call_handle_destroy (hdl : loc)
  | call_manager_destroy (manager : loc)
  | call_registry_destroy (registry : loc)
  | call_display_disconnect
  | call_display_dispatch_pending
  | call_display_flush
  | call_display_get_fd
  | call_display_prepare_read
  | call_poll (timeout : Z)
  | call_display_read_events
  | call_display_cancel_read.

(** Observable effects: library calls, and calls of the host's callback
    [simple_callback(app_id, title, focused)]. *)
Inductive effect :=
  | Lib (c : libcall)
  | Notify (cb : loc) (app : string) (ttl : string) (flag : Z).

(** The calls that may suspend the caller: the synchronous round trip, the
    connection set-up, and a poll whose timeout is not zero.  Everything
    else the module calls is documented as returning without waiting. *)
Definition may_block (e : effect) : bool :=
  match e with
  | Lib call_display_roundtrip => true
  | Lib call_display_connect => true
  | Lib (call_poll timeout) => negb (timeout =? 0)
  | _ => false
  end.

(** The state the module runs in.  The statics [current_app_id],
    [current_title] and [current_focused] (lines 29-31) are never read or
    written and are left out. *)
Record world := mk_world {
  (* statics of wlr-toplevel.c *)
  simple_callback : option loc;
  display : option loc;
  registry : option loc;
  toplevel_manager : option loc;
  toplevels : option loc;
  (* the C heap *)
  recs : gmap loc toplevel_handle;
  strs : gmap loc string;
  (* the client library *)
  objects : gset loc;
  event_queue : list wl_event;
  reader_count : nat;
  socket_in : list wl_event;
  (* what happened so far, oldest first *)
  trace : list effect
}.

(** The module before any entry point ran: every static is NULL
    (lines 18-42), nothing is allocated, no connection exists. *)
Definition initial_world : world :=
  mk_world None None None None None ∅ ∅ ∅ [] 0 [] [].

Definition set_simple_callback v w :=
  mk_world v (display w) (registry w) (toplevel_manager w) (toplevels w)
    (recs w) (strs w) (objects w) (event_queue w) (reader_count w) (socket_in w) (trace w).
Definition set_display v w :=
  mk_world (simple_callback w) v (registry w) (toplevel_manager w) (toplevels w)
    (recs w) (strs w) (objects w) (event_queue w) (reader_count w) (socket_in w) (trace w).
Definition set_registry v w :=
  mk_world (simple_callback w) (display w) v (toplevel_manager w) (toplevels w)
    (recs w) (strs w) (objects w) (event_queue w) (reader_count w) (socket_in w) (trace w).
Definition set_toplevel_manager v w :=
  mk_world (simple_callback w) (display w) (registry w) v (toplevels w)
    (recs w) (strs w) (objects w) (event_queue w) (reader_count w) (socket_in w) (trace w).
Definition set_toplevels v w :=
  mk_world (simple_callback w) (display w) (registry w) (toplevel_manager w) v
    (recs w) (strs w) (objects w) (event_queue w) (reader_count w) (socket_in w) (trace w).
Definition set_recs v w :=
  mk_world (simple_callback w) (display w) (registry w) (toplevel_manager w) (toplevels w)
    v (strs w) (objects w) (event_queue w) (reader_count w) (socket_in w) (trace w).
Definition set_strs v w :=
  mk_world (simple_callback w) (display w) (registry w) (toplevel_manager w) (toplevels w)
    (recs w) v (objects w) (event_queue w) (reader_count w) (socket_in w) (trace w).
Definition set_objects v w :=
  mk_world (simple_callback w) (display w) (registry w) (toplevel_manager w) (toplevels w)
    (recs w) (strs w) v (event_queue w) (reader_count w) (socket_in w) (trace w).
Definition set_event_queue v w :=
  mk_world (simple_callback w) (display w) (registry w) (toplevel_manager w) (toplevels w)
    (recs w) (strs w) (objects w) v (reader_count w) (socket_in w) (trace w).
Definition set_reader_count v w :=
  mk_world (simple_callback w) (display w) (registry w) (toplevel_manager w) (toplevels w)
    (recs w) (strs w) (objects w) (event_queue w) v (socket_in w) (trace w).
Definition set_socket_in v w :=
  mk_world (simple_callback w) (display w) (registry w) (toplevel_manager w) (toplevels w)
    (recs w) (strs w) (objects w) (event_queue w) (reader_count w) v (trace w).
Definition set_trace v w :=
  mk_world (simple_callback w) (display w) (registry w) (toplevel_manager w) (toplevels w)
    (recs w) (strs w) (objects w) (event_queue w) (reader_count w) (socket_in w) v.

(** ** Commands *)

Inductive fault :=
  | UseAfterFree (p : loc)    (* access to a block that is not allocated *)
  | InvalidFree (p : loc)     (* free of a block that is not allocated *)
  | DeadObject (p : loc)      (* library call on a destroyed object *)
  | NullDereference.

Inductive outcome (A : Type) :=
  | Ok (a : A)
  | Fault (e : fault)
  | OutOfFuel.
Arguments Ok {A} a.
Arguments Fault {A} e.
Arguments OutOfFuel {A}.

Definition cmd (A : Type) : Type := world → outcome (A * world).

Definition ret {A} (a : A) : cmd A := λ w, Ok (a, w).
Definition bind {A B} (m : cmd A) (k : A → cmd B) : cmd B :=
  λ w, match m w with
       | Ok (a, w') => k a w'
       | Fault e => Fault e
       | OutOfFuel => OutOfFuel
       end.
Definition fail {A} (e : fault) : cmd A := λ _, Fault e.
Definition diverge {A} : cmd A := λ _, OutOfFuel.
Definition get {A} (f : world → A) : cmd A := λ w, Ok (f w, w).
Definition modify (f : world → world) : cmd unit := λ w, Ok (tt, f w).
Definition emit (e : effect) : cmd unit := modify (λ w, set_trace (trace w ++ [e]) w).

Declare Scope cmd_scope.
Delimit Scope cmd_scope with cmd.
Notation "x ← y ; z" := (bind y (λ x, z))
  (at level 20, y at level 100, z at level 200, only parsing) : cmd_scope.
Notation "x ;; z" := (bind x (λ _, z))
  (at level 100, z at level 200, only parsing, right associativity) : cmd_scope.
Local Open Scope cmd_scope.

(** The world a command ends in, when it ends well. *)
Definition exec {A} (m : cmd A) (w : world) : outcome world :=
  match m w with
  | Ok (_, w') => Ok w'
  | Fault e => Fault e
  | OutOfFuel => OutOfFuel
  end.

(** *** The C heap

    The allocator is total and returns an address that is not in use; an
    address may be handed out again after it was freed. *)

(** [t->field] for reading: the block must be allocated. *)
Definition load (t : loc) : cmd toplevel_handle :=
  λ w, match recs w !! t with
       | Some r => Ok (r, w)
       | None => Fault (UseAfterFree t)
       end.

(** [t->field = v]. *)
Definition store (t : loc) (f : toplevel_handle → toplevel_handle) : cmd unit :=
  λ w, match recs w !! t with
       | Some r => Ok (tt, set_recs (<[t := f r]> (recs w)) w)
       | None => Fault (UseAfterFree t)
       end.

(** [calloc(1, sizeof(struct toplevel_handle))]. *)
Definition calloc_handle : cmd loc :=
  λ w, let t := fresh (dom (recs w)) in
       Ok (t, set_recs (<[t := zeroed_handle]> (recs w)) w).

(** [free(t)] for a record. *)
Definition free_handle (t : loc) : cmd unit :=
  λ w, match recs w !! t with
       | Some _ => Ok (tt, set_recs (delete t (recs w)) w)
       | None => Fault (InvalidFree t)
       end.

(** [strdup(s)]. *)
Definition strdup (s : string) : cmd loc :=
  λ w, let p := fresh (dom (strs w)) in
       Ok (p, set_strs (<[p := s]> (strs w)) w).

(** [free(p)] for a character block; [free(NULL)] does nothing. *)
Definition free_str (p : option loc) : cmd unit :=
  match p with
  | None => ret tt
  | Some l => λ w, match strs w !! l with
                   | Some _ => Ok (tt, set_strs (delete l (strs w)) w)
                   | None => Fault (InvalidFree l)
                   end
  end.

(** [p ? p : ""] as the text a callee then reads through the pointer. *)
Definition text_or_empty (p : option loc) : cmd string :=
  match p with
  | None => ret EmptyString
  | Some l => λ w, match strs w !! l with
                   | Some s => Ok (s, w)
                   | None => Fault (UseAfterFree l)
                   end
  end.

(** *** The client library *)

(** A library call on an object needs the object alive. *)
Definition use_object (p : loc) : cmd unit :=
  λ w, if decide (p ∈ objects w) then Ok (tt, w) else Fault (DeadObject p).

Definition use_pointer (p : option loc) : cmd loc :=
  match p with
  | None => fail NullDereference
  | Some l => use_object l ;; ret l
  end.

(** A new library object (a proxy, or the display). *)
Definition new_object : cmd loc :=
  λ w, let p := fresh (objects w) in
       Ok (p, set_objects ({[p]} ∪ objects w) w).

(** The [..._destroy] requests and [wl_display_disconnect]: the object is
    gone afterwards. *)
Definition destroy_object (p : loc) : cmd unit :=
  use_object p ;; modify (λ w, set_objects (objects w ∖ {[p]}) w).

(** *** libwayland-client, as the module uses it

    [wl_display_prepare_read] announces the intent to read the socket and
    fails (-1) when the default queue still holds events;
    [wl_display_cancel_read] and [wl_display_read_events] retire one
    announced intent; [wl_display_dispatch_pending] hands the queued
    events to their listeners without touching the socket.  Transport
    errors are outside the model. *)

Definition wl_display_prepare_read (d : loc) : cmd Z :=
  use_object d ;;
  emit (Lib call_display_prepare_read) ;;
  q ← get event_queue ;
  match q with
  | [] => modify (λ w, set_reader_count (S (reader_count w)) w) ;; ret 0
  | _ :: _ => ret (-1)
  end.

Definition wl_display_cancel_read (d : loc) : cmd unit :=
  use_object d ;;
  emit (Lib call_display_cancel_read) ;;
  modify (λ w, set_reader_count (Nat.pred (reader_count w)) w).

Definition wl_display_read_events (d : loc) : cmd Z :=
  use_object d ;;
  emit (Lib call_display_read_events) ;;
  modify (λ w, set_reader_count (Nat.pred (reader_count w)) w) ;;
  modify (λ w, set_socket_in [] (set_event_queue (event_queue w ++ socket_in w) w)) ;;
  ret 0.

Definition wl_display_flush (d : loc) : cmd Z :=
  use_object d ;; emit (Lib call_display_flush) ;; ret 0.

Definition wl_display_get_fd (d : loc) : cmd Z :=
  use_object d ;; emit (Lib call_display_get_fd) ;; ret (Z.pos d).

(** [poll(&pfd, 1, timeout)] with [pfd.events = POLLIN]: positive when the
    socket has something to read. *)
Definition poll (fd : Z) (timeout : Z) : cmd Z :=
  emit (Lib (call_poll timeout)) ;;
  s ← get socket_in ;
  ret (match s with [] => 0 | _ :: _ => 1 end).

(** [wl_display_connect(NULL)]: whether the compositor can be reached is
    up to the environment. *)
Definition wl_display_connect (reachable : bool) : cmd (option loc) :=
  emit (Lib call_display_connect) ;;
  if reachable then
    d ← new_object ;
    modify (λ w, set_socket_in [] (set_reader_count 0%nat (set_event_queue [] w))) ;;
    ret (Some d)
  else ret None.

Definition wl_display_disconnect (d : loc) : cmd unit :=
  emit (Lib call_display_disconnect) ;;
  destroy_object d ;;
  modify (λ w, set_socket_in [] (set_reader_count 0%nat (set_event_queue [] w))).

Definition wl_display_get_registry (d : loc) : cmd loc :=
  use_object d ;; emit (Lib call_display_get_registry) ;; new_object.

Definition wl_registry_add_listener (r : loc) : cmd unit :=
  use_object r ;; emit (Lib (call_registry_add_listener r)).

Definition wl_registry_destroy (r : loc) : cmd unit :=
  emit (Lib (call_registry_destroy r)) ;; destroy_object r.

Definition wl_registry_bind (r : loc) (name version : Z) : cmd loc :=
  use_object r ;; emit (Lib (call_registry_bind r name version)) ;; new_object.

Definition zwlr_foreign_toplevel_manager_v1_add_listener (m : loc) : cmd unit :=
  use_object m ;; emit (Lib (call_manager_add_listener m)).

Definition zwlr_foreign_toplevel_manager_v1_destroy (m : loc) : cmd unit :=
  emit (Lib (call_manager_destroy m)) ;; destroy_object m.

Definition zwlr_foreign_toplevel_handle_v1_add_listener (h data : loc) : cmd unit :=
  use_object h ;; emit (Lib (call_handle_add_listener h data)).

Definition zwlr_foreign_toplevel_handle_v1_destroy (h : loc) : cmd unit :=
  emit (Lib (call_handle_destroy h)) ;; destroy_object h.

(** A call [f(display)] on the static: NULL is not a display. *)
Definition on_display {A} (f : loc → cmd A) : cmd A :=
  d ← get display ;
  match d with
  | None => fail NullDereference
  | Some p => f p
  end.

(** ** The module *)

(** [wlr_toplevel_set_callback] (lines 20-22). *)
Definition wlr_toplevel_set_callback (cb : option loc) : cmd unit :=
  modify (set_simple_callback cb).

(** [toplevel_handle_title] (lines 44-49). *)
Definition toplevel_handle_title (data hdl : loc) (text : option string) : cmd unit :=
  t ← load data ;
  free_str (title t) ;;
  p ← match text with
      | Some s => l ← strdup s ; ret (Some l)
      | None => ret None
      end ;
  store data (with_title p).

(** [toplevel_handle_app_id] (lines 51-56). *)
Definition toplevel_handle_app_id (data hdl : loc) (text : option string) : cmd unit :=
  t ← load data ;
  free_str (app_id t) ;;
  p ← match text with
      | Some s => l ← strdup s ; ret (Some l)
      | None => ret None
      end ;
  store data (with_app_id p).

(** An lvalue of type [struct toplevel_handle *]: the static [toplevels],
    or the [next] field of a record.  This is what [pp] ranges over in
    [toplevel_handle_closed]. *)
Inductive link :=
  | link_toplevels
  | link_next (t : loc).

Definition read_link (pp : link) : cmd (option loc) :=
  match pp with
  | link_toplevels => get toplevels
  | link_next t => r ← load t ; ret (next r)
  end.

Definition write_link (pp : link) (v : option loc) : cmd unit :=
  match pp with
  | link_toplevels => modify (set_toplevels v)
  | link_next t => store t (with_next v)
  end.

(** The removal loop of [toplevel_handle_closed] (lines 89-96). *)
Fixpoint unlink (fuel : nat) (t : loc) (pp : link) : cmd unit :=
  match fuel with
  | O => diverge
  | S fuel' =>
      cur ← read_link pp ;
      match cur with
      | None => ret tt
      | Some c =>
          if decide (c = t) then
            r ← load t ; write_link pp (next r)
          else unlink fuel' t (link_next c)
      end
  end.

(** [toplevel_handle_closed] (lines 84-102).  A walk over more records
    than the heap holds has met one of them twice and never ends. *)
Definition toplevel_handle_closed (data hdl : loc) : cmd unit :=
  n ← get (λ w, size (recs w)) ;
  unlink (S n) data link_toplevels ;;
  t ← load data ;
  free_str (app_id t) ;;
  t ← load data ;
  free_str (title t) ;;
  zwlr_foreign_toplevel_handle_v1_destroy hdl ;;
  free_handle data.

(** [toplevel_handle_done], [toplevel_handle_output_enter],
    [toplevel_handle_output_leave], [toplevel_handle_parent]: empty
    bodies (lines 79-82, 104-114). *)
Definition toplevel_handle_done (data hdl : loc) : cmd unit := ret tt.
Definition toplevel_handle_output_enter (data hdl output : loc) : cmd unit := ret tt.
Definition toplevel_handle_output_leave (data hdl output : loc) : cmd unit := ret tt.
Definition toplevel_handle_parent (data hdl : loc) (parent : option loc) : cmd unit := ret tt.

(** [toplevel_manager_handle_toplevel] (lines 127-136). *)
Definition toplevel_manager_handle_toplevel (manager hdl : loc) : cmd unit :=
  t ← calloc_handle ;
  store t (with_handle (Some hdl)) ;;
  head ← get toplevels ;
  store t (with_next head) ;;
  modify (set_toplevels (Some t)) ;;
  zwlr_foreign_toplevel_handle_v1_add_listener hdl t.

(** [toplevel_manager_handle_finished] (lines 138-142). *)
Definition toplevel_manager_handle_finished (manager : loc) : cmd unit :=
  zwlr_foreign_toplevel_manager_v1_destroy manager ;;
  modify (set_toplevel_manager None).

(** [registry_handle_global_remove] (lines 159-160). *)
Definition registry_handle_global_remove (reg : loc) (name : Z) : cmd unit := ret tt.

Section WlrToplevel.
Context `{ProtocolHeader}.

(** The scan of the state array in [toplevel_handle_state] (lines 66-71):
    whether the loop reaches its [break]. *)
Fixpoint scan_activated (entries : list Z) : bool :=
  match entries with
  | [] => false
  | entry :: rest =>
      if entry =? ZWLR_FOREIGN_TOPLEVEL_HANDLE_V1_STATE_ACTIVATED then true
      else scan_activated rest
  end.

(** [toplevel_handle_state] (lines 58-77). *)
Definition toplevel_handle_state (data hdl : loc) (entries : list Z) : cmd unit :=
  t ← load data ;
  let was_focused := focused t in
  store data (with_focused 0) ;;
  (if scan_activated entries then store data (with_focused 1) else ret tt) ;;
  t ← load data ;
  cb ← get simple_callback ;
  if negb (focused t =? 0) && (was_focused =? 0) then
    match cb with
    | Some f =>
        a ← text_or_empty (app_id t) ;
        b ← text_or_empty (title t) ;
        emit (Notify f a b (focused t))
    | None => ret tt
    end
  else ret tt.

(** [registry_handle_global] (lines 149-157). *)
Definition registry_handle_global (reg : loc) (name : Z) (interface : string)
    (version : Z) : cmd unit :=
  if String.eqb interface zwlr_foreign_toplevel_manager_v1_interface_name then
    m ← wl_registry_bind reg name 3 ;
    modify (set_toplevel_manager (Some m)) ;;
    tm ← get toplevel_manager ;
    p ← use_pointer tm ;
    zwlr_foreign_toplevel_manager_v1_add_listener p
  else ret tt.

(** The three listener tables (lines 116-125, 144-147, 162-165): which
    function an event is handed to.  The proxy of a newly announced
    toplevel is created by the library before the listener runs. *)
Definition dispatch_event (e : wl_event) : cmd unit :=
  match e with
  | registry_global r name interface version =>
      registry_handle_global r name interface version
  | registry_global_remove r name => registry_handle_global_remove r name
  | manager_toplevel m h =>
      modify (λ w, set_objects ({[h]} ∪ objects w) w) ;;
      toplevel_manager_handle_toplevel m h
  | manager_finished m => toplevel_manager_handle_finished m
  | handle_title d h s => toplevel_handle_title d h s
  | handle_app_id d h s => toplevel_handle_app_id d h s
  | handle_output_enter d h o => toplevel_handle_output_enter d h o
  | handle_output_leave d h o => toplevel_handle_output_leave d h o
  | handle_state d h st => toplevel_handle_state d h st
  | handle_done d h => toplevel_handle_done d h
  | handle_closed d h => toplevel_handle_closed d h
  | handle_parent d h p => toplevel_handle_parent d h p
  end.

(** Events delivered one after the other. *)
Fixpoint deliver (evs : list wl_event) : cmd unit :=
  match evs with
  | [] => ret tt
  | e :: rest => dispatch_event e ;; deliver rest
  end.

(** The library's dispatch of the default queue: each event is taken off
    the queue and handed to its listener; the result is their number. *)
Fixpoint dispatch_queue (evs : list wl_event) : cmd Z :=
  match evs with
  | [] => ret 0
  | e :: rest =>
      modify (set_event_queue rest) ;;
      dispatch_event e ;;
      n ← dispatch_queue rest ;
      ret (1 + n)
  end.

Definition wl_display_dispatch_pending (d : loc) : cmd Z :=
  use_object d ;;
  emit (Lib call_display_dispatch_pending) ;;
  q ← get event_queue ;
  dispatch_queue q.

(** [wl_display_roundtrip]: waits for the compositor's answer and
    dispatches what arrived in the meantime ([arrived]). *)
Definition wl_display_roundtrip (arrived : list wl_event) (d : loc) : cmd Z :=
  use_object d ;;
  emit (Lib call_display_roundtrip) ;;
  modify (λ w, set_event_queue (event_queue w ++ arrived) w) ;;
  q ← get event_queue ;
  dispatch_queue q.

(** What the environment decides during [wlr_toplevel_init]. *)
Record init_env := mk_init_env {
  reachable : bool;                (* does wl_display_connect succeed *)
  first_roundtrip : list wl_event; (* events dispatched by the first round trip *)
  second_roundtrip : list wl_event
}.

(** [wlr_toplevel_init] (lines 169-188). *)
Definition wlr_toplevel_init (env : init_env) : cmd Z :=
  d ← wl_display_connect (reachable env) ;
  modify (set_display d) ;;
  d ← get display ;
  match d with
  | None => ret 0
  | Some _ =>
      r ← on_display wl_display_get_registry ;
      modify (set_registry (Some r)) ;;
      r ← get registry ;
      r ← use_pointer r ;
      wl_registry_add_listener r ;;
      on_display (wl_display_roundtrip (first_roundtrip env)) ;;
      m ← get toplevel_manager ;
      match m with
      | None =>
          r ← get registry ;
          match r with
          | None => fail NullDereference
          | Some r => wl_registry_destroy r
          end ;;
          on_display wl_display_disconnect ;;
          modify (set_display None) ;;
          ret 0
      | Some _ =>
          on_display (wl_display_roundtrip (second_roundtrip env)) ;;
          ret 1
      end
  end.

(** [wlr_toplevel_dispatch] (lines 190-194). *)
Definition wlr_toplevel_dispatch : cmd Z :=
  d ← get display ;
  match d with
  | None => ret 0
  | Some _ =>
      a ← on_display wl_display_dispatch_pending ;
      if 0 <=? a then
        b ← on_display wl_display_flush ;
        ret (if 0 <=? b then 1 else 0)
      else ret 0
  end.

(** [wlr_toplevel_get_fd] (lines 196-199). *)
Definition wlr_toplevel_get_fd : cmd Z :=
  d ← get display ;
  match d with
  | None => ret (-1)
  | Some _ => on_display wl_display_get_fd
  end.

(** The retry loop of [wlr_toplevel_read_events] (lines 204-206), over
    the two calls of its condition and its body. *)
Fixpoint prepare_read_loop (prepare dispatch : cmd Z) (fuel : nat) : cmd unit :=
  match fuel with
  | O => diverge
  | S fuel' =>
      r ← prepare ;
      if r =? 0 then ret tt
      else dispatch ;; prepare_read_loop prepare dispatch fuel'
  end.

(** [wlr_toplevel_read_events] (lines 201-218). *)
Definition wlr_toplevel_read_events (fuel : nat) : cmd unit :=
  d ← get display ;
  match d with
  | None => ret tt
  | Some _ =>
      prepare_read_loop (on_display wl_display_prepare_read)
        (on_display wl_display_dispatch_pending) fuel ;;
      on_display wl_display_flush ;;
      fd ← on_display wl_display_get_fd ;
      n ← poll fd 0 ;
      if 0 <? n then
        on_display wl_display_read_events ;;
        on_display wl_display_dispatch_pending ;;
        ret tt
      else on_display wl_display_cancel_read
  end.

(** The loop of [wlr_toplevel_cleanup] (lines 221-231). *)
Fixpoint cleanup_loop (fuel : nat) (t : option loc) : cmd unit :=
  match t with
  | None => ret tt
  | Some l =>
      match fuel with
      | O => diverge
      | S fuel' =>
          r ← load l ;
          let nxt := next r in
          free_str (app_id r) ;;
          free_str (title r) ;;
          match handle r with
          | Some h => zwlr_foreign_toplevel_handle_v1_destroy h
          | None => ret tt
          end ;;
          free_handle l ;;
          cleanup_loop fuel' nxt
      end
  end.

(** [wlr_toplevel_cleanup] (lines 220-246).  Every turn of the loop frees
    one allocated record, so the loop takes no more turns than the heap
    holds records. *)
Definition wlr_toplevel_cleanup : cmd unit :=
  t ← get toplevels ;
  n ← get (λ w, size (recs w)) ;
  cleanup_loop n t ;;
  modify (set_toplevels None) ;;
  m ← get toplevel_manager ;
  match m with
  | Some p =>
      zwlr_foreign_toplevel_manager_v1_destroy p ;;
      modify (set_toplevel_manager None)
  | None => ret tt
  end ;;
  r ← get registry ;
  match r with
  | Some p => wl_registry_destroy p ;; modify (set_registry None)
  | None => ret tt
  end ;;
  d ← get display ;
  match d with
  | Some p => wl_display_disconnect p ;; modify (set_display None)
  | None => ret tt
  end.

End WlrToplevel.

(** The header of the wlr-foreign-toplevel-management-unstable-v1
    protocol, version 3: [activated] is entry 2 of the state enumeration. *)
Definition wlr_protocol_v1 : ProtocolHeader :=
  {| ZWLR_FOREIGN_TOPLEVEL_HANDLE_V1_STATE_ACTIVATED := 2;
     zwlr_foreign_toplevel_manager_v1_interface_name := "zwlr_foreign_toplevel_manager_v1" |}.

(** ** Reading the heap *)

(** The text a string pointer of a record leads to: [None] for NULL. *)
Definition text_at (w : world) (p : option loc) : option string :=
  p ≫= λ l, strs w !! l.

(** The string heap once the block behind [p] is released. *)
Definition release (p : option loc) (m : gmap loc string) : gmap loc string :=
  match p with
  | Some l => delete l m
  | None => m
  end.

(** A string pointer a record may hold: NULL, or an allocated block. *)
Definition owned (w : world) (p : option loc) : Prop :=
  match p with
  | Some l => is_Some (strs w !! l)
  | None => True
  end.

(** ** Focus edges *)

(** The number of maximal runs of consecutive [true] in a list: a run is
    counted where it ends. *)
Fixpoint maximal_runs (bs : list bool) : nat :=
  match bs with
  | [] => 0%nat
  | true :: rest =>
      (match rest with true :: _ => 0 | _ => 1 end + maximal_runs rest)%nat
  | false :: rest => maximal_runs rest
  end.

(** The number of positions where a [true] follows a [false], [prev]
    standing before the list. *)
Fixpoint rising_edges (prev : bool) (bs : list bool) : nat :=
  match bs with
  | [] => 0%nat
  | b :: rest => ((if b && negb prev then 1 else 0) + rising_edges b rest)%nat
  end.

(** A state set contains the activated flag. *)
Definition holds_activated `{ProtocolHeader} (entries : list Z) : bool :=
  bool_decide (ZWLR_FOREIGN_TOPLEVEL_HANDLE_V1_STATE_ACTIVATED ∈ entries).

(** What the callback is handed for a record: the text behind each
    pointer, the empty string for NULL. *)
Definition shown (w : world) (p : option loc) : string :=
  default EmptyString (text_at w p).

(** The calls of the callback in a trace. *)
Definition notifications (tr : list effect) : list effect :=
  List.filter (λ e, match e with Notify _ _ _ _ => true | Lib _ => false end) tr.

(** ** What the listeners leave alone *)

(** A relation between the world before and after a command that holds of
    everything the listeners of this module do: writes to the two heaps,
    to the set of live objects, to [toplevels] and [toplevel_manager], and
    library calls that return at once. *)
Class Frame (R : world → world → Prop) : Prop := {
  frame_refl w : R w w;
  frame_trans w1 w2 w3 : R w1 w2 → R w2 w3 → R w1 w3;
  frame_recs m w : R w (set_recs m w);
  frame_strs m w : R w (set_strs m w);
  frame_objects s w : R w (set_objects s w);
  frame_toplevels v w : R w (set_toplevels v w);
  frame_toplevel_manager v w : R w (set_toplevel_manager v w);
  frame_lib c w : may_block (Lib c) = false → R w (set_trace (trace w ++ [Lib c]) w)
}.

(** Such a relation that also admits calls of the host's callback. *)
Class NotifyFrame (R : world → world → Prop) : Prop :=
  frame_notify cb a b f w : R w (set_trace (trace w ++ [Notify cb a b f]) w).

(** A command whose successful runs are within [R]. *)
Definition respects {A} (R : world → world → Prop) (m : cmd A) : Prop :=
  ∀ w a w', m w = Ok (a, w') → R w w'.

Definition is_lib (e : effect) : Prop :=
  match e with Lib _ => True | Notify _ _ _ _ => False end.

(** The trace grew by library calls only. *)
Definition quiet (w w' : world) : Prop :=
  ∃ new, trace w' = trace w ++ new ∧ Forall is_lib new.

(** The trace grew, and by nothing that may suspend the caller. *)
Definition unblocked (w w' : world) : Prop :=
  ∃ new, trace w' = trace w ++ new ∧ Forall (λ e, may_block e = false) new.

(** The connection is as it was: the statics the listeners never write,
    the queue, the read intents and the socket. *)
Definition same_connection (w w' : world) : Prop :=
  display w' = display w ∧ registry w' = registry w ∧
  simple_callback w' = simple_callback w ∧
  event_queue w' = event_queue w ∧ reader_count w' = reader_count w ∧
  socket_in w' = socket_in w.

(** ** The read sequence *)

(** The world once [wl_display_prepare_read] succeeded in [w]. *)
Definition prepared (w : world) : world :=
  set_reader_count (S (reader_count w))
    (set_trace (trace w ++ [Lib call_display_prepare_read]) w).

(** The world once [wl_display_prepare_read] failed in [w]. *)
Definition refused (w : world) : world :=
  set_trace (trace w ++ [Lib call_display_prepare_read]) w.

(** ** The registry of toplevel records *)

(** The records from pointer [p] up to pointer [q], following [next]. *)
Fixpoint lseg (m : gmap loc toplevel_handle) (p : option loc) (ls : list loc)
    (q : option loc) : Prop :=
  match ls with
  | [] => p = q
  | l :: rest => p = Some l ∧ ∃ r, m !! l = Some r ∧ lseg m (next r) rest q
  end.

(** [ls] are the records of the list that starts at [p], in order. *)
Definition is_list (m : gmap loc toplevel_handle) (p : option loc) (ls : list loc) : Prop :=
  lseg m p ls None.

(** The character blocks a record points to. *)
Definition strings_of (r : toplevel_handle) : list loc :=
  option_list (app_id r) ++ option_list (title r).

(** The library objects the statics point to. *)
Definition static_objects (w : world) : list loc :=
  option_list (toplevel_manager w) ++ option_list (registry w) ++
  option_list (display w).

(** No two records of [ls] stand for the same protocol object. *)
Definition unique_identities (w : world) (ls : list loc) : Prop :=
  ∀ l1 l2 h, l1 ∈ ls → l2 ∈ ls →
    recs w !! l1 ≫= handle = Some h → recs w !! l2 ≫= handle = Some h → l1 = l2.

(** The state the module keeps between calls, [ls] being the records in
    the registry: the list is well formed; every record owns its text
    blocks and its protocol object, which are alive and shared with no
    other record; the statics point to live objects, distinct from one
    another and from the records' objects. *)
Record wf (w : world) (ls : list loc) : Prop := mk_wf {
  wf_list : is_list (recs w) (toplevels w) ls;
  wf_nodup : NoDup ls;
  wf_strs_live : ∀ l r p,
    l ∈ ls → recs w !! l = Some r → p ∈ strings_of r → is_Some (strs w !! p);
  wf_strs_sep : ∀ l1 l2 r1 r2 p,
    l1 ∈ ls → l2 ∈ ls → recs w !! l1 = Some r1 → recs w !! l2 = Some r2 →
    p ∈ strings_of r1 → p ∈ strings_of r2 → l1 = l2;
  wf_strs_own : ∀ l r, l ∈ ls → recs w !! l = Some r → NoDup (strings_of r);
  wf_handle_live : ∀ l r h,
    l ∈ ls → recs w !! l = Some r → handle r = Some h →
    h ∈ objects w ∧ h ∉ static_objects w;
  wf_handle_sep : ∀ l1 l2 r1 r2 h,
    l1 ∈ ls → l2 ∈ ls → recs w !! l1 = Some r1 → recs w !! l2 = Some r2 →
    handle r1 = Some h → handle r2 = Some h → l1 = l2;
  wf_statics_nodup : NoDup (static_objects w);
  wf_statics_live : ∀ o, o ∈ static_objects w → o ∈ objects w
}.

(** The calls that release the objects behind the statics, in the order
    of [wlr_toplevel_cleanup]. *)
Definition static_releases (w : world) : list effect :=
  match toplevel_manager w with
  | Some m => [Lib (call_manager_destroy m)]
  | None => []
  end ++
  match registry w with
  | Some r => [Lib (call_registry_destroy r)]
  | None => []
  end ++
  match display w with
  | Some _ => [Lib call_display_disconnect]
  | None => []
  end.

(** Every static is NULL. *)
Definition cleared (w : world) : Prop :=
  toplevels w = None ∧ toplevel_manager w = None ∧ registry w = None ∧
  display w = None.

(** An announcement the library can deliver in [w]: the proxy of the new
    toplevel is a new object. *)
Definition fresh_announcement (w : world) (e : wl_event) : Prop :=
  match e with
  | manager_toplevel _ h => h ∉ objects w
  | _ => False
  end.

(** A [closed] event the library can deliver in [w]: it is for the
    protocol object of a record of the registry and carries that record
    as its user data. *)
Definition closes_record (w : world) (ls : list loc) (e : wl_event) : Prop :=
  match e with
  | handle_closed t h => t ∈ ls ∧ recs w !! t ≫= handle = Some h
  | _ => False
  end.

(** An event the library can deliver in [w]: an event of a toplevel is for
    a record of the registry, [closed] with that record's own protocol
    object; an announcement comes with a new object; [finished] is for the
    bound manager; a global is announced on a live registry proxy. *)
Definition well_addressed (w : world) (ls : list loc) (e : wl_event) : Prop :=
  match e with
  | registry_global r _ _ _ => r ∈ objects w
  | registry_global_remove _ _ => True
  | manager_toplevel _ h => h ∉ objects w
  | manager_finished m => toplevel_manager w = Some m
  | handle_closed d h => d ∈ ls ∧ recs w !! d ≫= handle = Some h
  | handle_title d _ _ | handle_app_id d _ _ | handle_state d _ _
  | handle_done d _ | handle_output_enter d _ _ | handle_output_leave d _ _
  | handle_parent d _ _ => d ∈ ls
  end.

(** The registry after an event the library delivered in [w]. *)
Definition registry_after (w : world) (ls : list loc) (e : wl_event) : list loc :=
  match e with
  | manager_toplevel _ _ => fresh (dom (recs w)) :: ls
  | handle_closed t _ => filter (λ l, l ≠ t) ls
  | _ => ls
  end.

Section Conforming.
Context `{ProtocolHeader}.

(** A sequence of announcements and [closed] events as a compositor that
    follows the protocol produces it, from [w] on: each announcement comes
    with a new protocol object, each [closed] is for a record that is in
    the registry at that point. *)
Fixpoint conforming (evs : list wl_event) (w : world) (ls : list loc) : Prop :=
  match evs with
  | [] => True
  | e :: rest =>
      (fresh_announcement w e ∨ closes_record w ls e) ∧
      ∀ w', exec (dispatch_event e) w = Ok w' →
            conforming rest w' (registry_after w ls e)
  end.

End Conforming.

(** ** Concrete states *)

(** A record as it is after its first [app_id] and [title] events. *)
Definition editor_record : toplevel_handle :=
  mk_toplevel_handle (Some 4%positive) (Some 1%positive) (Some 2%positive) 0 None.

(** A module with a callback set and the one record [editor_record]. *)
Definition editor_world : world :=
  mk_world (Some 9%positive) None None None (Some 1%positive)
    {[1%positive := editor_record]}
    {[1%positive := "editor"%string; 2%positive := "draft.txt"%string]}
    {[4%positive]} [] 0 [] [].

(** The same module, connected, with two events waiting in the queue. *)
Definition editor_connected : world :=
  mk_world (Some 9%positive) (Some 5%positive) (Some 6%positive) (Some 7%positive)
    (Some 1%positive)
    {[1%positive := editor_record]}
    {[1%positive := "editor"%string; 2%positive := "draft.txt"%string]}
    {[4%positive; 5%positive; 6%positive; 7%positive]}
    [handle_state 1%positive 4%positive [2];
     handle_title 1%positive 4%positive (Some "notes"%string)]
    0 [] [].

(** The module after the announcement of one toplevel. *)
Definition one_toplevel : world :=
  mk_world None None None None (Some 1%positive)
    {[1%positive := mk_toplevel_handle (Some 4%positive) None None 0 None]}
    ∅ {[4%positive]} [] 0 []
    [Lib (call_handle_add_listener 4%positive 1%positive)].

(** A compositor that does not offer the foreign-toplevel manager. *)
Definition no_manager_env : init_env :=
  mk_init_env true
    [registry_global 2%positive 1 "wl_compositor" 4;
     registry_global 2%positive 2 "wl_shm" 1]
    [].

(** ** Queues of events *)

Section Delivered.
Context `{ProtocolHeader}.

(** The events [evs], dispatched from the queue one after the other from
    [w] on, are each one the library can deliver in the state it is
    dispatched in, and [Q] holds of the state and the registry they end
    in. *)
Fixpoint delivered (evs : list wl_event) (w : world) (ls : list loc)
    (Q : world → list loc → Prop) : Prop :=
  match evs with
  | [] => Q w ls
  | e :: rest =>
      well_addressed w ls e ∧
      ∀ w', exec (dispatch_event e) (set_event_queue rest w) = Ok w' →
            delivered rest w' (registry_after w ls e) Q
  end.

End Delivered.

(** The world in which [wl_display_dispatch_pending] starts on the queue. *)
Definition dispatching (w : world) : world :=
  set_trace (trace w ++ [Lib call_display_dispatch_pending]) w.

(** The world in which the data branch of [wlr_toplevel_read_events]
    starts to dispatch what it read, when the queue was empty at the call:
    the read intent is announced and retired, and the socket is drained
    into the queue. *)
Definition received (w : world) : world :=
  set_socket_in [] (set_event_queue (socket_in w)
    (set_trace (trace w ++ [Lib call_display_prepare_read; Lib call_display_flush;
                            Lib call_display_get_fd; Lib (call_poll 0);
                            Lib call_display_read_events;
                            Lib call_display_dispatch_pending]) w)).

(** ** The life of one toplevel *)

(** An event of the toplevel whose record is [t], other than [closed]. *)
Definition property_event (t : loc) (e : wl_event) : Prop :=
  match e with
  | handle_title d _ _ | handle_app_id d _ _ | handle_state d _ _
  | handle_done d _ | handle_output_enter d _ _ | handle_output_leave d _ _
  | handle_parent d _ _ => d = t
  | _ => False
  end.

(** The world [wc] differs from [w] by one more toplevel, with protocol
    object [h] and record [t] at the head of the list: the record, the
    object, the text blocks the record points to, and a trace that grew by
    the attachment of the listener and by calls of the callback. *)
Definition tracking (w : world) (t h : loc) (wc : world) : Prop :=
  ∃ rt calls,
    recs wc = <[t := rt]> (recs w) ∧ handle rt = Some h ∧ next rt = toplevels w ∧
    toplevels wc = Some t ∧ objects wc = {[h]} ∪ objects w ∧
    (∀ p, is_Some (strs w !! p) →
          strs wc !! p = strs w !! p ∧ app_id rt ≠ Some p ∧ title rt ≠ Some p) ∧
    (∀ p, strs w !! p = None → is_Some (strs wc !! p) →
          app_id rt = Some p ∨ title rt = Some p) ∧
    toplevel_manager wc = toplevel_manager w ∧ same_connection w wc ∧
    trace wc = trace w ++ Lib (call_handle_add_listener h t) :: calls ∧
    Forall (λ e, ¬ is_lib e) calls.

(** ** Bootstrap *)

(** What [wlr_toplevel_init] needs of the state it is called in: well
    formed, not counting [display] and [registry], which it overwrites
    before it reads them. *)
Definition wf_offline (w : world) (ls : list loc) : Prop :=
  wf (set_registry None (set_display None w)) ls.

(** An event of the registry that does not offer the manager. *)
Definition offers_no_manager `{ProtocolHeader} (e : wl_event) : Prop :=
  match e with
  | registry_global _ _ interface _ =>
      interface ≠ zwlr_foreign_toplevel_manager_v1_interface_name
  | registry_global_remove _ _ => True
  | _ => False
  end.

(** The world in which the first round trip of [wlr_toplevel_init] starts
    to dispatch, the compositor being reachable: the display and the
    registry proxy are new objects, and the listener is attached. *)
Definition bootstrapped (env : init_env) (w : world) : world :=
  let d := fresh (objects w) in
  let r := fresh ({[d]} ∪ objects w) in
  mk_world (simple_callback w) (Some d) (Some r) (toplevel_manager w) (toplevels w)
    (recs w) (strs w) ({[r]} ∪ ({[d]} ∪ objects w))
    (first_roundtrip env) 0 []
    (trace w ++ [Lib call_display_connect; Lib call_display_get_registry;
                 Lib (call_registry_add_listener r); Lib call_display_roundtrip]).

(** The world in which the second round trip starts to dispatch, [w1]
    being the world the first one ended in. *)
Definition second_trip (env : init_env) (w1 : world) : world :=
  set_event_queue (event_queue w1 ++ second_roundtrip env)
    (set_trace (trace w1 ++ [Lib call_display_roundtrip]) w1).

(** ** More concrete states *)

(** A compositor that offers the manager among its globals and announces
    one toplevel in the second round trip. *)
Definition manager_env : init_env :=
  mk_init_env true
    [registry_global 2%positive 1 "wl_compositor" 4;
     registry_global 2%positive 7 "zwlr_foreign_toplevel_manager_v1" 3]
    [manager_toplevel 3%positive 4%positive;
     handle_app_id 1%positive 4%positive (Some "editor"%string);
     handle_state 1%positive 4%positive [2];
     handle_done 1%positive 4%positive].

(** A compositor that cannot be reached. *)
Definition unreachable_env : init_env := mk_init_env false [] [].

(** The connected module with an empty queue and two events to read on
    the socket. *)
Definition editor_readable : world :=
  set_socket_in [handle_title 1%positive 4%positive (Some "notes"%string);
                 handle_state 1%positive 4%positive [2]]
    (set_event_queue [] editor_connected).

(** The module after the announcement of a second toplevel. *)
Definition two_toplevels : world :=
  mk_world None None None None (Some 2%positive)
    (<[2%positive := mk_toplevel_handle (Some 8%positive) None None 0 (Some 1%positive)]>
       {[1%positive := mk_toplevel_handle (Some 4%positive) None None 0 None]})
    ∅ ({[8%positive]} ∪ {[4%positive]}) [] 0 []
    [Lib (call_handle_add_listener 4%positive 1%positive);
     Lib (call_handle_add_listener 8%positive 2%positive)].

(** ** Stepping through commands *)

Ltac unfold_cmd :=
  unfold exec, on_display, use_pointer, destroy_object, emit, bind, ret, get,
    modify, fail, diverge, load, store, free_str, free_handle, strdup,
    calloc_handle, text_or_empty, use_object, new_object in *.

Lemma bind_ok {A B} (m : cmd A) (k : A → cmd B) w a w' :
  m w = Ok (a, w') → bind m k w = k a w'.
Proof. unfold bind. by intros ->. Qed.

(** Run the first command of a sequence, given how it runs. *)
Ltac run_step E := rewrite (bind_ok _ _ _ _ _ E); cbv beta.
Ltac run_by tac := erewrite bind_ok; [cbv beta | solve [tac]].

Lemma bind_inv {A B} (m : cmd A) (k : A → cmd B) w b w2 :
  bind m k w = Ok (b, w2) → ∃ a w1, m w = Ok (a, w1) ∧ k a w1 = Ok (b, w2).
Proof.
  unfold bind. destruct (m w) as [[a w1]| |]; [|done..]. eauto.
Qed.

Lemma ret_inv {A} (a b : A) w w' : ret a w = Ok (b, w') → b = a ∧ w' = w.
Proof. by intros [= <- <-]. Qed.

Lemma get_inv {A} (f : world → A) b w w' : get f w = Ok (b, w') → b = f w ∧ w' = w.
Proof. by intros [= <- <-]. Qed.

Lemma modify_inv f u w w' : modify f w = Ok (u, w') → w' = f w.
Proof. by intros [= _ <-]. Qed.

Lemma load_inv t r w w' : load t w = Ok (r, w') → recs w !! t = Some r ∧ w' = w.
Proof. unfold load. destruct (recs w !! t); [|done]. by intros [= <- <-]. Qed.

Lemma store_inv t f u w w' :
  store t f w = Ok (u, w') →
  ∃ r, recs w !! t = Some r ∧ w' = set_recs (<[t := f r]> (recs w)) w.
Proof. unfold store. destruct (recs w !! t); [|done]. intros [= _ <-]. eauto. Qed.

Lemma text_or_empty_inv p s w w' :
  text_or_empty p w = Ok (s, w') →
  s = default EmptyString (p ≫= λ l, strs w !! l) ∧ w' = w.
Proof.
  destruct p as [l|]; simpl; [|by intros [= <- <-]].
  destruct (strs w !! l); [|done]. by intros [= <- <-].
Qed.

(** Take a successful run apart, command by command. *)
Ltac cmd_inv :=
  repeat match goal with
  | H : bind _ _ _ = Ok _ |- _ => apply bind_inv in H as (? & ? & ? & H)
  | H : ret _ _ = Ok _ |- _ => apply ret_inv in H as [? ?]; subst
  | H : get _ _ = Ok _ |- _ => apply get_inv in H as [? ?]; subst
  | H : modify _ _ = Ok _ |- _ => apply modify_inv in H; subst
  | H : emit _ _ = Ok _ |- _ => apply modify_inv in H; subst
  | H : load _ _ = Ok _ |- _ => apply load_inv in H as [? ?]; subst
  | H : store _ _ _ = Ok _ |- _ => apply store_inv in H as (? & ? & ?); subst
  | H : text_or_empty _ _ = Ok _ |- _ => apply text_or_empty_inv in H as [? ?]; subst
  | H : (if ?b then _ else _) _ = Ok _ |- _ => destruct b eqn:?
  | H : (match ?x with Some _ => _ | None => _ end) _ = Ok _ |- _ => destruct x eqn:?
  end.

(** ** Field replacement ([toplevel_handle_title], [toplevel_handle_app_id]) *)

Lemma title_event w data hdl r text :
  recs w !! data = Some r → owned w (title r) →
  ∃ w', toplevel_handle_title data hdl text w = Ok (tt, w') ∧
    let m0 := release (title r) (strs w) in
    let p := match text with Some _ => Some (fresh (dom m0)) | None => None end in
    recs w' = <[data := with_title p r]> (recs w) ∧
    strs w' = match text with Some s => <[fresh (dom m0) := s]> m0 | None => m0 end ∧
    objects w' = objects w ∧ trace w' = trace w ∧ toplevels w' = toplevels w ∧
    simple_callback w' = simple_callback w ∧
    static_objects w' = static_objects w.
Proof.
  intros Hr Ho. unfold toplevel_handle_title.
  rewrite (bind_ok _ _ w r w); [|by unfold load; rewrite Hr].
  destruct (title r) as [l|] eqn:Ht; simpl in *.
  - destruct Ho as [s0 Hs0]. unfold_cmd. simpl. rewrite Hs0.
    destruct text as [s|]; simpl; rewrite Hr; eexists; split; try done; simpl;
      by rewrite ?Ht.
  - unfold_cmd. destruct text as [s|]; simpl; rewrite Hr; eexists; split; try done;
      simpl; by rewrite ?Ht.
Qed.

Lemma app_id_event w data hdl r text :
  recs w !! data = Some r → owned w (app_id r) →
  ∃ w', toplevel_handle_app_id data hdl text w = Ok (tt, w') ∧
    let m0 := release (app_id r) (strs w) in
    let p := match text with Some _ => Some (fresh (dom m0)) | None => None end in
    recs w' = <[data := with_app_id p r]> (recs w) ∧
    strs w' = match text with Some s => <[fresh (dom m0) := s]> m0 | None => m0 end ∧
    objects w' = objects w ∧ trace w' = trace w ∧ toplevels w' = toplevels w ∧
    simple_callback w' = simple_callback w ∧
    static_objects w' = static_objects w.
Proof.
  intros Hr Ho. unfold toplevel_handle_app_id.
  rewrite (bind_ok _ _ w r w); [|by unfold load; rewrite Hr].
  destruct (app_id r) as [l|] eqn:Ht; simpl in *.
  - destruct Ho as [s0 Hs0]. unfold_cmd. simpl. rewrite Hs0.
    destruct text as [s|]; simpl; rewrite Hr; eexists; split; try done; simpl;
      by rewrite ?Ht.
  - unfold_cmd. destruct text as [s|]; simpl; rewrite Hr; eexists; split; try done;
      simpl; by rewrite ?Ht.
Qed.

Lemma release_fresh_insert (m : gmap loc string) s :
  release (Some (fresh (dom m))) (<[fresh (dom m) := s]> m) = m.
Proof.
  simpl. rewrite delete_insert_eq. apply delete_id.
  apply not_elem_of_dom, is_fresh.
Qed.

Lemma title_twice w data hdl r s1 s2 :
  recs w !! data = Some r → owned w (title r) →
  ∃ w2 p,
    exec (toplevel_handle_title data hdl (Some s1) ;;
          toplevel_handle_title data hdl (Some s2)) w = Ok w2 ∧
    recs w2 !! data = Some (with_title (Some p) r) ∧
    text_at w2 (Some p) = Some s2 ∧
    release (title r) (strs w) !! p = None ∧
    strs w2 = <[p := s2]> (release (title r) (strs w)).
Proof.
  intros Hr Ho.
  destruct (title_event w data hdl r (Some s1) Hr Ho) as (w1 & E1 & Hr1 & Hs1 & _).
  simpl in Hr1, Hs1. set (m0 := release (title r) (strs w)) in *.
  assert (Hr1' : recs w1 !! data = Some (with_title (Some (fresh (dom m0))) r))
    by (rewrite Hr1; apply lookup_insert_eq).
  assert (Ho1 : owned w1 (title (with_title (Some (fresh (dom m0))) r)))
    by (simpl; rewrite Hs1, lookup_insert_eq; eauto).
  destruct (title_event w1 data hdl _ (Some s2) Hr1' Ho1) as (w2 & E2 & Hr2 & Hs2 & _).
  cbn [title with_title] in Hr2, Hs2.
  rewrite Hs1 in Hs2, Hr2. fold m0 in Hs2, Hr2.
  rewrite release_fresh_insert in Hs2, Hr2.
  exists w2, (fresh (dom m0)). unfold exec.
  rewrite (bind_ok _ _ _ _ _ E1), E2. split; [done|].
  split; [by rewrite Hr2, lookup_insert_eq|].
  split; [by simpl; rewrite Hs2, lookup_insert_eq|].
  split; [apply not_elem_of_dom, is_fresh | done].
Qed.

Lemma app_id_twice w data hdl r s1 s2 :
  recs w !! data = Some r → owned w (app_id r) →
  ∃ w2 p,
    exec (toplevel_handle_app_id data hdl (Some s1) ;;
          toplevel_handle_app_id data hdl (Some s2)) w = Ok w2 ∧
    recs w2 !! data = Some (with_app_id (Some p) r) ∧
    text_at w2 (Some p) = Some s2 ∧
    release (app_id r) (strs w) !! p = None ∧
    strs w2 = <[p := s2]> (release (app_id r) (strs w)).
Proof.
  intros Hr Ho.
  destruct (app_id_event w data hdl r (Some s1) Hr Ho) as (w1 & E1 & Hr1 & Hs1 & _).
  simpl in Hr1, Hs1. set (m0 := release (app_id r) (strs w)) in *.
  assert (Hr1' : recs w1 !! data = Some (with_app_id (Some (fresh (dom m0))) r))
    by (rewrite Hr1; apply lookup_insert_eq).
  assert (Ho1 : owned w1 (app_id (with_app_id (Some (fresh (dom m0))) r)))
    by (simpl; rewrite Hs1, lookup_insert_eq; eauto).
  destruct (app_id_event w1 data hdl _ (Some s2) Hr1' Ho1) as (w2 & E2 & Hr2 & Hs2 & _).
  cbn [app_id with_app_id] in Hr2, Hs2.
  rewrite Hs1 in Hs2, Hr2. fold m0 in Hs2, Hr2.
  rewrite release_fresh_insert in Hs2, Hr2.
  exists w2, (fresh (dom m0)). unfold exec.
  rewrite (bind_ok _ _ _ _ _ E1), E2. split; [done|].
  split; [by rewrite Hr2, lookup_insert_eq|].
  split; [by simpl; rewrite Hs2, lookup_insert_eq|].
  split; [apply not_elem_of_dom, is_fresh | done].
Qed.

(** C6.  On a live record whose text pointers are NULL or allocated, two
    [title] events (and likewise two [app_id] events) leave the field on a
    block that holds the second text, the string heap being the earlier
    heap with the record's previous block released and that one block
    added: neither the previous text nor the first one stays allocated.
    An event with an absent value sets the field to NULL and likewise
    releases the previous block.  The other fields are kept. *)
Theorem field_replace_latest w data hdl r s1 s2 :
  recs w !! data = Some r → owned w (title r) → owned w (app_id r) →
  (∃ w2 p,
     exec (toplevel_handle_title data hdl (Some s1) ;;
           toplevel_handle_title data hdl (Some s2)) w = Ok w2 ∧
     recs w2 !! data = Some (with_title (Some p) r) ∧
     text_at w2 (Some p) = Some s2 ∧
     release (title r) (strs w) !! p = None ∧
     strs w2 = <[p := s2]> (release (title r) (strs w))) ∧
  (∃ w1,
     exec (toplevel_handle_title data hdl None) w = Ok w1 ∧
     recs w1 !! data = Some (with_title None r) ∧
     strs w1 = release (title r) (strs w)) ∧
  (∃ w2 p,
     exec (toplevel_handle_app_id data hdl (Some s1) ;;
           toplevel_handle_app_id data hdl (Some s2)) w = Ok w2 ∧
     recs w2 !! data = Some (with_app_id (Some p) r) ∧
     text_at w2 (Some p) = Some s2 ∧
     release (app_id r) (strs w) !! p = None ∧
     strs w2 = <[p := s2]> (release (app_id r) (strs w))) ∧
  (∃ w1,
     exec (toplevel_handle_app_id data hdl None) w = Ok w1 ∧
     recs w1 !! data = Some (with_app_id None r) ∧
     strs w1 = release (app_id r) (strs w)).
Proof.
  intros Hr Ht Ha. split; [by apply title_twice|]. split.
  { destruct (title_event w data hdl r None Hr Ht) as (w1 & E & Hr1 & Hs1 & _).
    exists w1. unfold exec. rewrite E. split; [done|].
    split; [by rewrite Hr1, lookup_insert_eq | done]. }
  split; [by apply app_id_twice|].
  destruct (app_id_event w data hdl r None Hr Ha) as (w1 & E & Hr1 & Hs1 & _).
  exists w1. unfold exec. rewrite E. split; [done|].
  split; [by rewrite Hr1, lookup_insert_eq | done].
Qed.

(** ** Focus edges ([toplevel_handle_state]) *)

Lemma rising_edges_runs prev bs :
  (rising_edges prev bs +
   (if prev && match bs with true :: _ => true | _ => false end then 1 else 0))%nat
  = maximal_runs bs.
Proof.
  revert prev. induction bs as [|b rest IH]; intros prev.
  - simpl. destruct prev; simpl; lia.
  - destruct b.
    + specialize (IH true). cbn [rising_edges maximal_runs andb].
      destruct prev, rest as [|[] ?]; simpl in *; lia.
    + specialize (IH false). cbn [rising_edges maximal_runs andb] in *.
      destruct prev; simpl in *; lia.
Qed.

Lemma text_or_empty_owned w p :
  owned w p → text_or_empty p w = Ok (shown w p, w).
Proof.
  destruct p as [l|]; simpl; [|done].
  intros [s Hs]. unfold shown. simpl. by rewrite Hs.
Qed.

Section State.
Context `{ProtocolHeader}.

(** One [state] event on a live record: the flag becomes the result of
    the scan, and the callback runs exactly when the flag was clear, the
    scan found the activated entry and a callback is set. *)
Lemma state_event w data hdl entries r :
  recs w !! data = Some r → owned w (app_id r) → owned w (title r) →
  ∃ w',
    toplevel_handle_state data hdl entries w = Ok (tt, w') ∧
    recs w' = <[data := with_focused (if scan_activated entries then 1 else 0) r]> (recs w) ∧
    trace w' = trace w ++
      (if scan_activated entries && (focused r =? 0) then
         match simple_callback w with
         | Some cb => [Notify cb (shown w (app_id r)) (shown w (title r)) 1]
         | None => []
         end
       else []) ∧
    strs w' = strs w ∧ simple_callback w' = simple_callback w ∧
    objects w' = objects w ∧ toplevels w' = toplevels w ∧
    static_objects w' = static_objects w.
Proof.
  intros Hr Ha Ht. unfold toplevel_handle_state, shown, text_at.
  rewrite (bind_ok _ _ w r w); [|by unfold load; rewrite Hr].
  unfold bind at 1. unfold store at 1. rewrite Hr.
  destruct (simple_callback w) as [cb|] eqn:Hcb, (focused r =? 0) eqn:Hf,
    (scan_activated entries) eqn:Hs, (app_id r) as [la|] eqn:Hla,
    (title r) as [lt|] eqn:Hlt;
    simpl in Ha, Ht;
    repeat match goal with H : is_Some _ |- _ => destruct H as [? H] end;
    unfold_cmd;
    repeat (progress (simpl; rewrite ?lookup_insert_eq, ?Hcb, ?Hla, ?Hlt, ?Ha, ?Ht));
    (eexists; split; [reflexivity|]; unfold with_focused; simpl;
     by rewrite ?insert_insert_eq, ?app_nil_r, ?Hcb, ?Hla, ?Hlt).
Qed.

Lemma state_events_edges states : ∀ w data hdl r cb,
  recs w !! data = Some r → owned w (app_id r) → owned w (title r) →
  simple_callback w = Some cb →
  ∃ w',
    exec (deliver (handle_state data hdl <$> states)) w = Ok w' ∧
    trace w' = trace w ++
      replicate (rising_edges (negb (focused r =? 0)) (scan_activated <$> states))
        (Notify cb (shown w (app_id r)) (shown w (title r)) 1).
Proof.
  induction states as [|entries rest IH]; intros w data hdl r cb Hr Ha Ht Hcb.
  - exists w. split; [done|]. simpl. by rewrite app_nil_r.
  - destruct (state_event w data hdl entries r Hr Ha Ht)
      as (w1 & E1 & Hr1 & Htr1 & Hs1 & Hcb1 & _).
    set (b := scan_activated entries) in *.
    set (r1 := with_focused (if b then 1 else 0) r) in *.
    assert (Hr1' : recs w1 !! data = Some r1) by (rewrite Hr1; apply lookup_insert_eq).
    assert (Hown : ∀ p, owned w p → owned w1 p)
      by (intros [l|]; simpl; by rewrite ?Hs1).
    destruct (IH w1 data hdl r1 cb Hr1' (Hown _ Ha) (Hown _ Ht)) as (w2 & E2 & Htr2);
      [by rewrite Hcb1|].
    exists w2. split.
    + unfold exec in *. rewrite fmap_cons. cbn [deliver dispatch_event].
      rewrite (bind_ok _ _ _ _ _ E1). exact E2.
    + rewrite Htr2, Htr1, Hcb. rewrite fmap_cons. cbn [rising_edges].
      fold b. unfold shown, text_at. rewrite Hs1.
      assert (Hf : negb (focused r1 =? 0) = b) by (subst r1; by destruct b).
      rewrite Hf. rewrite <- app_assoc. f_equal.
      destruct b, (focused r =? 0); simpl; done.
Qed.

(** The scan loop finds the activated entry exactly when the array holds
    it. *)
Lemma scan_activated_elem entries :
  scan_activated entries = true ↔
  ZWLR_FOREIGN_TOPLEVEL_HANDLE_V1_STATE_ACTIVATED ∈ entries.
Proof.
  induction entries as [|entry rest IH]; simpl.
  - split; [done|by intros ?%elem_of_nil].
  - rewrite elem_of_cons. destruct (Z.eqb_spec entry
      ZWLR_FOREIGN_TOPLEVEL_HANDLE_V1_STATE_ACTIVATED) as [->|Hne].
    + split; auto.
    + rewrite IH. split; [auto|]. intros [Heq|Hin]; [congruence|done].
Qed.

Lemma scan_activated_holds entries :
  scan_activated entries = holds_activated entries.
Proof.
  unfold holds_activated. destruct (scan_activated entries) eqn:Hs; symmetry.
  - apply bool_decide_eq_true, scan_activated_elem, Hs.
  - apply bool_decide_eq_false. intros Hin%scan_activated_elem. congruence.
Qed.

(** C1.  With a callback set, on a live record whose text pointers are
    NULL or allocated: one [state] event calls the callback (once, before
    the handler returns) exactly when the record's flag was clear and the
    state array contains the activated entry, and not otherwise: an array
    without the activated entry calls nothing, and neither does an array
    with it on a record that is focused already.  A sequence of [state]
    events on a record whose flag is clear, as it is from [calloc] on,
    calls it once for each maximal run of consecutive arrays that contain
    the activated entry, and adds nothing else to the trace. *)
Theorem focus_edge_triggered w data hdl r cb :
  recs w !! data = Some r → owned w (app_id r) → owned w (title r) →
  simple_callback w = Some cb →
  let call := Notify cb (shown w (app_id r)) (shown w (title r)) 1 in
  (∀ entries, ∃ w',
     exec (toplevel_handle_state data hdl entries) w = Ok w' ∧
     trace w' = trace w ++
       (if holds_activated entries && (focused r =? 0) then [call] else []) ∧
     ((ZWLR_FOREIGN_TOPLEVEL_HANDLE_V1_STATE_ACTIVATED ∉ entries) →
      trace w' = trace w) ∧
     (focused r ≠ 0 → trace w' = trace w) ∧
     (ZWLR_FOREIGN_TOPLEVEL_HANDLE_V1_STATE_ACTIVATED ∈ entries → focused r = 0 →
      trace w' = trace w ++ [call])) ∧
  (∀ states, focused r = 0 → ∃ w',
     exec (deliver (handle_state data hdl <$> states)) w = Ok w' ∧
     trace w' = trace w ++
       replicate (maximal_runs (holds_activated <$> states)) call).
Proof.
  intros Hr Ha Ht Hcb call. split.
  - intros entries.
    destruct (state_event w data hdl entries r Hr Ha Ht) as (w' & E & _ & Htr & _).
    exists w'. unfold exec. rewrite E. split; [done|].
    rewrite Hcb, scan_activated_holds in Htr. fold call in Htr.
    split; [done|]. rewrite Htr. unfold holds_activated.
    split; [|split].
    + intros Hnin. rewrite bool_decide_eq_false_2 by done. simpl. apply app_nil_r.
    + intros Hf. apply Z.eqb_neq in Hf. rewrite Hf, andb_false_r. apply app_nil_r.
    + intros Hin Hf. rewrite bool_decide_eq_true_2 by done. by rewrite Hf.
  - intros states Hf.
    destruct (state_events_edges states w data hdl r cb Hr Ha Ht Hcb) as (w' & E & Htr).
    assert (Heq : scan_activated <$> states = holds_activated <$> states)
      by (apply list_fmap_ext; intros ? entries ?; apply scan_activated_holds).
    exists w'. split; [done|]. rewrite Htr, Hf, Heq. simpl.
    by rewrite <- (rising_edges_runs false), Nat.add_0_r.
Qed.

End State.

(** ** Frames *)

Create HintDb frame discriminated.

Section Frames.
Context (R : world → world → Prop) `{!Frame R}.

Lemma respects_ret {A} (a : A) : respects R (ret a).
Proof. intros w ? w' [= <- <-]. apply frame_refl. Qed.

Lemma respects_bind {A B} (m : cmd A) (k : A → cmd B) :
  respects R m → (∀ a, respects R (k a)) → respects R (bind m k).
Proof.
  intros Hm Hk w b w2 E. apply bind_inv in E as (a & w1 & E1 & E2).
  eapply frame_trans; [eapply Hm | eapply Hk]; eauto.
Qed.

Lemma respects_get {A} (f : world → A) : respects R (get f).
Proof. intros w ? w' [= <- <-]. apply frame_refl. Qed.

Lemma respects_fail {A} e : respects R (@fail A e).
Proof. by intros w ? w'. Qed.

Lemma respects_diverge {A} : respects R (@diverge A).
Proof. by intros w ? w'. Qed.

Lemma respects_modify (f : world → world) :
  (∀ w, R w (f w)) → respects R (modify f).
Proof. intros Hf w [] w' [= <-]. apply Hf. Qed.

Lemma respects_emit c : may_block (Lib c) = false → respects R (emit (Lib c)).
Proof. intros Hc. apply respects_modify. intros w. by apply frame_lib. Qed.

Lemma respects_load t : respects R (load t).
Proof.
  intros w r w'. unfold load. destruct (recs w !! t); [|done].
  intros [= <- <-]. apply frame_refl.
Qed.

Lemma respects_store t f : respects R (store t f).
Proof.
  intros w [] w'. unfold store. destruct (recs w !! t); [|done].
  intros [= <-]. apply frame_recs.
Qed.

Lemma respects_calloc_handle : respects R calloc_handle.
Proof. intros w r w' [= <- <-]. apply frame_recs. Qed.

Lemma respects_free_handle t : respects R (free_handle t).
Proof.
  intros w [] w'. unfold free_handle. destruct (recs w !! t); [|done].
  intros [= <-]. apply frame_recs.
Qed.

Lemma respects_strdup s : respects R (strdup s).
Proof. intros w r w' [= <- <-]. apply frame_strs. Qed.

Lemma respects_free_str p : respects R (free_str p).
Proof.
  destruct p as [l|]; [|apply respects_ret].
  intros w [] w'. simpl. destruct (strs w !! l); [|done].
  intros [= <-]. apply frame_strs.
Qed.

Lemma respects_text_or_empty p : respects R (text_or_empty p).
Proof.
  destruct p as [l|]; [|apply respects_ret].
  intros w r w'. simpl. destruct (strs w !! l); [|done].
  intros [= <- <-]. apply frame_refl.
Qed.

Lemma respects_use_object p : respects R (use_object p).
Proof.
  intros w [] w'. unfold use_object. case_decide; [|done].
  intros [= <-]. apply frame_refl.
Qed.

Lemma respects_new_object : respects R new_object.
Proof. intros w r w' [= <- <-]. apply frame_objects. Qed.

Hint Resolve respects_ret respects_get respects_fail respects_diverge
  respects_load respects_store respects_calloc_handle respects_free_handle
  respects_strdup respects_free_str respects_text_or_empty respects_use_object
  respects_new_object : frame.

(** Commands are taken apart along their binds and case distinctions. *)
Ltac frame :=
  repeat first
    [ match goal with |- ∀ _, _ => intro end
    | solve [auto with frame]
    | apply respects_bind
    | apply respects_emit; reflexivity
    | apply respects_modify
    | apply frame_recs | apply frame_strs | apply frame_objects
    | apply frame_toplevels | apply frame_toplevel_manager
    | match goal with
      | |- respects _ (match ?x with _ => _ end) => destruct x
      end ].

Lemma respects_use_pointer p : respects R (use_pointer p).
Proof. unfold use_pointer. frame. Qed.

Lemma respects_destroy_object p : respects R (destroy_object p).
Proof. unfold destroy_object. frame. Qed.

Hint Resolve respects_use_pointer respects_destroy_object : frame.

Lemma respects_title d h s : respects R (toplevel_handle_title d h s).
Proof. unfold toplevel_handle_title. frame. Qed.

Lemma respects_app_id d h s : respects R (toplevel_handle_app_id d h s).
Proof. unfold toplevel_handle_app_id. frame. Qed.

Lemma respects_read_link pp : respects R (read_link pp).
Proof. unfold read_link. frame. Qed.

Lemma respects_write_link pp v : respects R (write_link pp v).
Proof. unfold write_link. frame. Qed.

Hint Resolve respects_read_link respects_write_link : frame.

Lemma respects_unlink fuel t : ∀ pp, respects R (unlink fuel t pp).
Proof.
  induction fuel as [|fuel IH]; intros pp; simpl; [apply respects_diverge|].
  frame.
Qed.

Hint Resolve respects_unlink : frame.

Lemma respects_closed d h : respects R (toplevel_handle_closed d h).
Proof.
  unfold toplevel_handle_closed, zwlr_foreign_toplevel_handle_v1_destroy. frame.
Qed.

Lemma respects_toplevel m h : respects R (toplevel_manager_handle_toplevel m h).
Proof.
  unfold toplevel_manager_handle_toplevel,
    zwlr_foreign_toplevel_handle_v1_add_listener. frame.
Qed.

Lemma respects_finished m : respects R (toplevel_manager_handle_finished m).
Proof.
  unfold toplevel_manager_handle_finished,
    zwlr_foreign_toplevel_manager_v1_destroy. frame.
Qed.

Context `{ProtocolHeader}.

Lemma respects_global r n i v : respects R (registry_handle_global r n i v).
Proof.
  unfold registry_handle_global, wl_registry_bind,
    zwlr_foreign_toplevel_manager_v1_add_listener. frame.
Qed.

Lemma respects_state `{!NotifyFrame R} d h st : respects R (toplevel_handle_state d h st).
Proof.
  unfold toplevel_handle_state. frame.
Qed.

(** Every event but [state] is handled within any frame. *)
Lemma respects_dispatch_other e :
  (∀ d h st, e ≠ handle_state d h st) → respects R (dispatch_event e).
Proof.
  intros Hne. destruct e; simpl;
    try (by first [ apply respects_global | apply respects_title
                  | apply respects_app_id | apply respects_closed
                  | apply respects_finished | apply respects_ret ]).
  - frame.
  - by destruct (Hne data hdl entries).
Qed.

Lemma respects_dispatch_event `{!NotifyFrame R} e : respects R (dispatch_event e).
Proof.
  destruct e; try (apply respects_dispatch_other; done).
  apply respects_state.
Qed.

End Frames.

#[export] Instance quiet_frame : Frame quiet.
Proof.
  split; unfold quiet.
  - intros w. exists []. by rewrite app_nil_r.
  - intros w1 w2 w3 (n1 & E1 & F1) (n2 & E2 & F2). exists (n1 ++ n2).
    rewrite E2, E1, app_assoc. split; [done|]. by apply Forall_app.
  - intros. exists []. by rewrite app_nil_r.
  - intros. exists []. by rewrite app_nil_r.
  - intros. exists []. by rewrite app_nil_r.
  - intros. exists []. by rewrite app_nil_r.
  - intros. exists []. by rewrite app_nil_r.
  - intros c w _. exists [Lib c]. split; [done|]. by repeat constructor.
Qed.

#[export] Instance unblocked_frame : Frame unblocked.
Proof.
  split; unfold unblocked.
  - intros w. exists []. by rewrite app_nil_r.
  - intros w1 w2 w3 (n1 & E1 & F1) (n2 & E2 & F2). exists (n1 ++ n2).
    rewrite E2, E1, app_assoc. split; [done|]. by apply Forall_app.
  - intros. exists []. by rewrite app_nil_r.
  - intros. exists []. by rewrite app_nil_r.
  - intros. exists []. by rewrite app_nil_r.
  - intros. exists []. by rewrite app_nil_r.
  - intros. exists []. by rewrite app_nil_r.
  - intros c w Hc. exists [Lib c]. split; [done|]. by repeat constructor.
Qed.

#[export] Instance unblocked_notify : NotifyFrame unblocked.
Proof.
  intros cb a b f w. exists [Notify cb a b f]. split; [done|]. by repeat constructor.
Qed.

#[export] Instance same_connection_frame : Frame same_connection.
Proof.
  split; unfold same_connection; try done.
  intros w1 w2 w3 (?&?&?&?&?&?) (?&?&?&?&?&?). repeat split; congruence.
Qed.

#[export] Instance same_connection_notify : NotifyFrame same_connection.
Proof. by intros cb a b f w. Qed.

(** ** The arguments of the callback *)

Section Callback.
Context `{ProtocolHeader}.

Lemma state_event_inv d h st w w' :
  toplevel_handle_state d h st w = Ok (tt, w') →
  ∃ r new,
    recs w' !! d = Some r ∧ trace w' = trace w ++ new ∧
    ∀ cb a b f, Notify cb a b f ∈ new →
      simple_callback w' = Some cb ∧ a = shown w' (app_id r) ∧
      b = shown w' (title r) ∧ f = focused r ∧ f = 1.
Proof.
  unfold toplevel_handle_state. intros E. cmd_inv; simpl in *;
    rewrite ?lookup_insert_eq in *; simplify_eq; simpl in *;
    eexists _;
    first [ exists []; split; [reflexivity|]; split;
            [by rewrite app_nil_r|]; by intros ???? ?%elem_of_nil
          | eexists [_]; split; [reflexivity|]; split; [done|];
            intros cb' a b f [= -> -> -> ->]%list_elem_of_singleton;
            unfold shown, text_at; simpl; repeat split; try done; lia ].
Qed.

(** C7.  Whatever event is dispatched, every call of the callback it adds
    to the trace comes from a [state] event, goes to the callback that is
    set, and carries the text behind the record's [app_id] and [title]
    pointers (the empty string for NULL) and the record's flag, which
    is 1. *)
Theorem callback_arguments e w w' :
  exec (dispatch_event e) w = Ok w' →
  ∃ new, trace w' = trace w ++ new ∧
    ∀ cb a b f, Notify cb a b f ∈ new →
      ∃ data hdl entries r,
        e = handle_state data hdl entries ∧
        simple_callback w' = Some cb ∧
        recs w' !! data = Some r ∧
        a = shown w' (app_id r) ∧ b = shown w' (title r) ∧
        f = focused r ∧ f = 1.
Proof.
  unfold exec. destruct (dispatch_event e w) as [[[] w1]| |] eqn:E; [|done..].
  intros [= <-].
  assert ((∃ d h st, e = handle_state d h st) ∨ (∀ d h st, e ≠ handle_state d h st))
    as [(d & h & st & ->)|Hne] by (destruct e; first [by right | left; eauto]).
  - simpl in E. apply state_event_inv in E as (r & new & Hr & Htr & Hn).
    exists new. split; [done|]. intros cb a b f Hin.
    exists d, h, st, r. split; [done|]. destruct (Hn _ _ _ _ Hin) as (?&?&?&?&?).
    by repeat split.
  - assert (Hq : quiet w w1).
    { eapply (respects_dispatch_other quiet); [exact Hne|exact E]. }
    destruct Hq as (new & Htr & Hlib). exists new. split; [done|].
    intros cb a b f Hin. rewrite Forall_forall in Hlib. by apply Hlib in Hin.
Qed.

End Callback.

(** ** The read sequence ([wlr_toplevel_read_events]) *)

Lemma prepare_read_empty w d :
  display w = Some d → d ∈ objects w → event_queue w = [] →
  on_display wl_display_prepare_read w = Ok (0, prepared w).
Proof.
  intros Hd Hl Hq. unfold on_display, wl_display_prepare_read. unfold_cmd.
  simpl. rewrite Hd. simpl. rewrite decide_True by done. simpl. by rewrite Hq.
Qed.

Lemma prepare_read_nonempty w d :
  display w = Some d → d ∈ objects w → event_queue w ≠ [] →
  on_display wl_display_prepare_read w = Ok (-1, refused w).
Proof.
  intros Hd Hl Hq. unfold on_display, wl_display_prepare_read. unfold_cmd.
  simpl. rewrite Hd. simpl. rewrite decide_True by done. simpl.
  by destruct (event_queue w).
Qed.

(** A failed prepare means events are queued, and leaves them queued. *)
Lemma prepare_read_refused w r w1 :
  on_display wl_display_prepare_read w = Ok (r, w1) → r ≠ 0 →
  (0 < length (event_queue w))%nat ∧ event_queue w1 = event_queue w.
Proof.
  unfold on_display, wl_display_prepare_read. unfold_cmd. simpl.
  destruct (display w) as [d|]; [|done]. simpl.
  case_decide; [|done]. simpl.
  destruct (event_queue w) eqn:Hq; simpl; intros [= <- <-]; [done|].
  intros _. simpl. split; [lia | done].
Qed.

Lemma flush_connected w d :
  display w = Some d → d ∈ objects w →
  on_display wl_display_flush w =
    Ok (0, set_trace (trace w ++ [Lib call_display_flush]) w).
Proof.
  intros Hd Hl. unfold on_display, wl_display_flush. unfold_cmd. simpl.
  rewrite Hd. simpl. by rewrite decide_True.
Qed.

Lemma get_fd_connected w d :
  display w = Some d → d ∈ objects w →
  on_display wl_display_get_fd w =
    Ok (Z.pos d, set_trace (trace w ++ [Lib call_display_get_fd]) w).
Proof.
  intros Hd Hl. unfold on_display, wl_display_get_fd. unfold_cmd. simpl.
  rewrite Hd. simpl. by rewrite decide_True.
Qed.

Lemma poll_nothing w fd timeout :
  socket_in w = [] →
  poll fd timeout w = Ok (0, set_trace (trace w ++ [Lib (call_poll timeout)]) w).
Proof. intros Hs. unfold poll. unfold_cmd. simpl. by rewrite Hs. Qed.

Lemma cancel_read_connected w d :
  display w = Some d → d ∈ objects w →
  on_display wl_display_cancel_read w =
    Ok (tt, set_reader_count (Nat.pred (reader_count w))
              (set_trace (trace w ++ [Lib call_display_cancel_read]) w)).
Proof.
  intros Hd Hl. unfold on_display, wl_display_cancel_read. unfold_cmd. simpl.
  rewrite Hd. simpl. by rewrite decide_True.
Qed.

Section ReadEvents.
Context `{ProtocolHeader}.

Lemma dispatch_queue_spec q : ∀ w n w',
  dispatch_queue q w = Ok (n, w') →
  display w' = display w ∧ reader_count w' = reader_count w ∧
  socket_in w' = socket_in w ∧
  event_queue w' = match q with [] => event_queue w | _ :: _ => [] end ∧
  unblocked w w'.
Proof.
  induction q as [|e rest IH]; intros w n w' E.
  - apply ret_inv in E as [_ ->]. repeat split; try done. apply frame_refl.
  - simpl in E. cmd_inv.
    match goal with
    | H1 : dispatch_event _ _ = Ok _, H2 : dispatch_queue _ _ = Ok _ |- _ =>
        pose proof (respects_dispatch_event same_connection _ _ _ _ H1) as Hc;
        pose proof (respects_dispatch_event unblocked _ _ _ _ H1) as Hu;
        apply IH in H2 as (Hd & Hr & Hs & Hq & Hu')
    end.
    destruct Hc as (Hd1 & _ & _ & Hq1 & Hr1 & Hs1). simpl in *.
    repeat split; try congruence.
    + rewrite Hq. destruct rest; [|done]. by rewrite Hq1.
    + eapply frame_trans; [|exact Hu']. destruct Hu as (new & Htr & Hnew).
      by exists new.
Qed.

(** Dispatching the pending events empties the queue and touches nothing
    else of the connection. *)
Lemma dispatch_pending_spec w n w' :
  on_display wl_display_dispatch_pending w = Ok (n, w') →
  display w' = display w ∧ reader_count w' = reader_count w ∧
  socket_in w' = socket_in w ∧ event_queue w' = [] ∧ unblocked w w'.
Proof.
  unfold on_display, wl_display_dispatch_pending. intros E. cmd_inv; [|done].
  match goal with H : use_object _ _ = Ok _ |- _ =>
    unfold use_object in H; case_decide; [|done]; simplify_eq end.
  match goal with H : dispatch_queue _ _ = Ok _ |- _ =>
    apply dispatch_queue_spec in H as (Hd & Hr & Hs & Hq & Hu) end.
  simpl in *. repeat split; try congruence.
  - rewrite Hq. by case_match.
  - eapply frame_trans; [|exact Hu]. by apply frame_lib.
Qed.

(** The retry loop over the library of this model: one dispatch at most. *)
Lemma prepare_read_loop_runs w d fuel n w2 :
  display w = Some d → d ∈ objects w → (2 ≤ fuel)%nat →
  on_display wl_display_dispatch_pending (refused w) = Ok (n, w2) →
  d ∈ objects w2 →
  ∃ w1, prepare_read_loop (on_display wl_display_prepare_read)
          (on_display wl_display_dispatch_pending) fuel w = Ok (tt, prepared w1) ∧
        display w1 = Some d ∧ d ∈ objects w1 ∧ event_queue w1 = [] ∧
        reader_count w1 = reader_count w ∧ socket_in w1 = socket_in w ∧
        unblocked w w1.
Proof.
  intros Hd Hl Hfuel Edisp Hl2.
  destruct fuel as [|[|fuel]]; [lia..|].
  destruct (event_queue w) as [|e q] eqn:Hq.
  - exists w. cbn [prepare_read_loop].
    rewrite (bind_ok _ _ _ _ _ (prepare_read_empty w d Hd Hl Hq)). simpl.
    repeat split; try done. apply frame_refl.
  - cbn [prepare_read_loop].
    rewrite (bind_ok _ _ _ _ _ (prepare_read_nonempty w d Hd Hl ltac:(by rewrite Hq))).
    simpl. rewrite (bind_ok _ _ _ _ _ Edisp).
    apply dispatch_pending_spec in Edisp as (Hd2 & Hr2 & Hs2 & Hq2 & Hu2).
    simpl in *. rewrite Hd in Hd2.
    rewrite (bind_ok _ _ _ _ _ (prepare_read_empty w2 d Hd2 Hl2 Hq2)). simpl.
    exists w2. repeat split; try done.
    eapply frame_trans; [|exact Hu2]. by apply (frame_lib (R:=unblocked)).
Qed.

(** C2.  Connected, with nothing to read on the socket, and with queued
    events (if any) that their listeners handle without fault and without
    destroying the display: the read sequence returns; every call it and
    the listeners made is one that does not wait (the poll has timeout 0);
    its last call is [wl_display_cancel_read]; the number of announced
    read intents is what it was before; the queue is empty, and a next
    [wl_display_prepare_read] succeeds. *)
Theorem read_events_no_data w d fuel n w2 :
  display w = Some d → d ∈ objects w → socket_in w = [] → (2 ≤ fuel)%nat →
  on_display wl_display_dispatch_pending (refused w) = Ok (n, w2) →
  d ∈ objects w2 →
  ∃ w' new,
    wlr_toplevel_read_events fuel w = Ok (tt, w') ∧
    trace w' = trace w ++ new ++ [Lib call_display_cancel_read] ∧
    Forall (λ e, may_block e = false) new ∧
    reader_count w' = reader_count w ∧
    event_queue w' = [] ∧
    on_display wl_display_prepare_read w' = Ok (0, prepared w').
Proof.
  intros Hd Hl Hs Hfuel Edisp Hl2.
  destruct (prepare_read_loop_runs w d fuel n w2 Hd Hl Hfuel Edisp Hl2)
    as (w1 & Eloop & Hd1 & Hl1 & Hq1 & Hr1 & Hs1 & (new & Htr & Hnew)).
  unfold wlr_toplevel_read_events. unfold bind at 1, get at 1. rewrite Hd.
  rewrite (bind_ok _ _ _ _ _ Eloop).
  erewrite bind_ok; [|by apply (flush_connected _ d)].
  erewrite bind_ok; [|by apply (get_fd_connected _ d)].
  erewrite bind_ok; [|by apply poll_nothing; simpl; rewrite Hs1].
  simpl. rewrite (cancel_read_connected _ d) by done.
  eexists _, (new ++ [Lib call_display_prepare_read; Lib call_display_flush;
                      Lib call_display_get_fd; Lib (call_poll 0)]).
  split; [reflexivity|]. simpl. rewrite Htr.
  split; [by rewrite <- !app_assoc|].
  split; [apply Forall_app; split; [done|by repeat constructor]|].
  split; [done|]. split; [done|].
  by apply (prepare_read_empty _ d).
Qed.

(** C10.  Without a connection ([display] is NULL) the read sequence
    returns at once and the world, trace included, is the one it was
    called in: no library call was made and no static, record or queue
    changed. *)
Theorem read_events_disconnected fuel w :
  display w = None → wlr_toplevel_read_events fuel w = Ok (tt, w).
Proof.
  intros Hd. unfold wlr_toplevel_read_events, bind, get. by rewrite Hd.
Qed.

End ReadEvents.

(** C9.  Take any two commands for the condition and the body of the retry
    loop.  If a failed prepare-read means that work is pending and leaves
    it pending, and a dispatch of pending work leaves strictly less of it,
    then the loop ends within as many turns as there is pending work and
    one more: it returns right after a prepare-read that succeeded, unless
    one of the two calls itself faults or does not return. *)
Theorem prepare_read_loop_terminates (prepare dispatch : cmd Z) (pending : world → nat) :
  (∀ w r w1, prepare w = Ok (r, w1) → r ≠ 0 →
     (0 < pending w)%nat ∧ pending w1 = pending w) →
  (∀ w n w1, dispatch w = Ok (n, w1) → (0 < pending w)%nat →
     (pending w1 < pending w)%nat) →
  ∀ fuel w, (pending w < fuel)%nat →
    match prepare_read_loop prepare dispatch fuel w with
    | Ok (_, w') => ∃ w0, prepare w0 = Ok (0, w')
    | Fault e => ∃ w0, prepare w0 = Fault e ∨ dispatch w0 = Fault e
    | OutOfFuel => ∃ w0, prepare w0 = OutOfFuel ∨ dispatch w0 = OutOfFuel
    end.
Proof.
  intros Hfail Hdrain. induction fuel as [|fuel IH]; intros w Hlt; [lia|].
  cbn [prepare_read_loop]. unfold bind at 1.
  destruct (prepare w) as [[r w1]|e|] eqn:Eprep; [|by eauto..].
  destruct (r =? 0) eqn:Hr.
  - apply Z.eqb_eq in Hr as ->. simpl. eauto.
  - apply Z.eqb_neq in Hr. destruct (Hfail _ _ _ Eprep Hr) as [Hpos Hsame].
    unfold bind at 1.
    destruct (dispatch w1) as [[n w2]|e|] eqn:Edisp; [|by eauto..].
    apply IH. rewrite <- Hsame in Hpos.
    pose proof (Hdrain _ _ _ Edisp Hpos). lia.
Qed.

(** ** The linked list of records *)

Lemma lseg_agree m m' p ls q :
  (∀ l, l ∈ ls → m' !! l = m !! l) → lseg m p ls q → lseg m' p ls q.
Proof.
  revert p. induction ls as [|l rest IH]; intros p Hag; simpl; [done|].
  intros (-> & r & Hr & Hrest). split; [done|]. exists r. split.
  - rewrite Hag; [done|]. by left.
  - apply IH; [|done]. intros l' Hl'. apply Hag. by right.
Qed.

Lemma lseg_app m p l1 l2 q :
  lseg m p (l1 ++ l2) q ↔ ∃ x, lseg m p l1 x ∧ lseg m x l2 q.
Proof.
  revert p. induction l1 as [|l rest IH]; intros p; simpl.
  - split; [by eauto|]. by intros (x & -> & ?).
  - split.
    + intros (-> & r & Hr & Hrest). apply IH in Hrest as (x & ? & ?).
      exists x. split; [|done]. split; [done|]. eauto.
    + intros (x & (-> & r & Hr & Hrest) & Hx). split; [done|].
      exists r. split; [done|]. apply IH. eauto.
Qed.

Lemma lseg_lookup m p ls q l :
  lseg m p ls q → l ∈ ls → is_Some (m !! l).
Proof.
  revert p. induction ls as [|l' rest IH]; intros p; simpl.
  - by intros _ ?%elem_of_nil.
  - intros (-> & r & Hr & Hrest) [->|Hin]%elem_of_cons; [by eauto|].
    by eapply IH.
Qed.

(** A list without repetition is no longer than the heap it lives in. *)
Lemma lseg_length m p ls q :
  lseg m p ls q → NoDup ls → (length ls ≤ size m)%nat.
Proof.
  intros Hl Hnd. rewrite <- (size_list_to_set (C:=gset loc)) by done.
  rewrite <- size_dom. apply subseteq_size. intros l Hin.
  rewrite elem_of_list_to_set in Hin. apply elem_of_dom. by eapply lseg_lookup.
Qed.

(** The list with the record [t] taken out: the predecessor of [t], or
    the head, is set to what followed [t]. *)
Lemma lseg_bypass m p pre t rt post l rl :
  NoDup ((pre ++ [l]) ++ t :: post) →
  lseg m p ((pre ++ [l]) ++ t :: post) None →
  m !! l = Some rl → m !! t = Some rt →
  lseg (<[l := with_next (next rt) rl]> m) p ((pre ++ [l]) ++ post) None.
Proof.
  intros Hnd Hl Hrl Hrt.
  apply lseg_app in Hl as (x & Hpre & Ht).
  apply lseg_app in Hpre as (y & Hpre & Hlast).
  simpl in Hlast, Ht. destruct Hlast as (-> & rl' & Hrl' & <-).
  destruct Ht as (Hx & rt' & Hrt' & Hpost). simplify_eq.
  rewrite <- !app_assoc in Hnd. simpl in Hnd.
  apply NoDup_app in Hnd as (Hnd1 & Hdisj & Hnd2).
  apply NoDup_cons in Hnd2 as (Hl1 & Hnd2).
  apply NoDup_cons in Hnd2 as (Ht1 & Hnd2).
  apply not_elem_of_cons in Hl1 as [Hlt Hl1].
  apply lseg_app. exists (next rt'). split.
  - apply lseg_app. exists (Some l). split.
    + eapply lseg_agree; [|exact Hpre]. intros l' Hl'.
      apply lookup_insert_ne. intros <-. apply (Hdisj l); [done|by left].
    + simpl. split; [done|]. eexists. split; [apply lookup_insert_eq|done].
  - eapply lseg_agree; [|exact Hpost]. intros l' Hl'.
    apply lookup_insert_ne. by intros <-.
Qed.

Lemma read_link_next w c rc :
  recs w !! c = Some rc → read_link (link_next c) w = Ok (next rc, w).
Proof. intros Hc. unfold read_link, bind, load, ret. by rewrite Hc. Qed.

(** The removal loop on a list that holds [t]: it stops at [t] and writes
    what follows [t] into the link that led to it. *)
Lemma unlink_run t rt : ∀ pre fuel pp w p,
  read_link pp w = Ok (p, w) →
  lseg (recs w) p pre (Some t) → t ∉ pre → recs w !! t = Some rt →
  (length pre < fuel)%nat →
  unlink fuel t pp w =
    write_link (match last pre with Some l => link_next l | None => pp end)
      (next rt) w.
Proof.
  induction pre as [|c pre IH]; intros fuel pp w p Hread Hseg Hnin Hrt Hfuel;
    (destruct fuel as [|fuel]; [simpl in Hfuel; lia|]); simpl in Hseg.
  - subst p. cbn [unlink]. rewrite (bind_ok _ _ _ _ _ Hread).
    rewrite decide_True by done. unfold bind, load. by rewrite Hrt.
  - destruct Hseg as (-> & rc & Hrc & Hseg).
    apply not_elem_of_cons in Hnin as [Hne Hnin].
    cbn [unlink]. rewrite (bind_ok _ _ _ _ _ Hread).
    rewrite decide_False by done.
    rewrite (IH fuel (link_next c) w (next rc)); try done.
    + rewrite last_cons. by destruct (last pre).
    + by apply read_link_next.
    + simpl in Hfuel. lia.
Qed.

Lemma erase_next_lookup (m m' : gmap loc toplevel_handle) l r :
  with_next None <$> m' !! l = with_next None <$> m !! l →
  m !! l = Some r →
  ∃ r', m' !! l = Some r' ∧ handle r' = handle r ∧ app_id r' = app_id r ∧
        title r' = title r ∧ focused r' = focused r.
Proof.
  intros Heq Hr. rewrite Hr in Heq. destruct (m' !! l) as [r'|]; [|done].
  injection Heq as H1 H2 H3 H4. exists r'. by repeat split.
Qed.

Lemma erase_next_strings r r' :
  app_id r' = app_id r → title r' = title r → strings_of r' = strings_of r.
Proof. unfold strings_of. by intros -> ->. Qed.

(** A well-formed state stays well formed when records leave the list and
    what the remaining records own is left in place. *)
Lemma wf_shrink w w' ls ls' :
  wf w ls →
  is_list (recs w') (toplevels w') ls' → NoDup ls' →
  (∀ l, l ∈ ls' → l ∈ ls) →
  (∀ l, l ∈ ls' → with_next None <$> recs w !! l = with_next None <$> recs w' !! l) →
  (∀ l r p, l ∈ ls' → recs w !! l = Some r → p ∈ strings_of r →
     strs w' !! p = strs w !! p) →
  (∀ l r h, l ∈ ls' → recs w !! l = Some r → handle r = Some h → h ∈ objects w') →
  NoDup (static_objects w') →
  (∀ o, o ∈ static_objects w' → o ∈ static_objects w ∧ o ∈ objects w') →
  wf w' ls'.
Proof.
  intros Hwf Hlist Hnd Hsub Hrec Hstr Hobj Hsnd Hstat.
  assert (Hback : ∀ l r', l ∈ ls' → recs w' !! l = Some r' →
            ∃ r, recs w !! l = Some r ∧ handle r = handle r' ∧
                 strings_of r = strings_of r').
  { intros l r' Hl Hr'.
    destruct (erase_next_lookup _ _ l r' (Hrec l Hl) Hr') as (r & Hr & ? & ? & ? & _).
    exists r. split; [done|]. split; [done|]. by apply erase_next_strings. }
  split; try done.
  - intros l r' p Hl Hr' Hp. destruct (Hback l r' Hl Hr') as (r & Hr & _ & Hs).
    rewrite <- Hs in Hp. rewrite (Hstr l r p) by done.
    eapply (wf_strs_live w ls); eauto.
  - intros l1 l2 r1' r2' p Hl1 Hl2 Hr1' Hr2' Hp1 Hp2.
    destruct (Hback l1 r1' Hl1 Hr1') as (r1 & Hr1 & _ & Hs1).
    destruct (Hback l2 r2' Hl2 Hr2') as (r2 & Hr2 & _ & Hs2).
    rewrite <- Hs1 in Hp1. rewrite <- Hs2 in Hp2.
    eapply (wf_strs_sep w ls Hwf l1 l2); eauto.
  - intros l r' Hl Hr'. destruct (Hback l r' Hl Hr') as (r & Hr & _ & Hs).
    rewrite <- Hs. eapply (wf_strs_own w ls); eauto.
  - intros l r' h Hl Hr' Hh. destruct (Hback l r' Hl Hr') as (r & Hr & Hh' & _).
    rewrite <- Hh' in Hh. split; [by eapply Hobj|].
    intros Ho. apply Hstat in Ho as [Ho _].
    by destruct (wf_handle_live w ls Hwf l r h (Hsub l Hl) Hr Hh).
  - intros l1 l2 r1' r2' h Hl1 Hl2 Hr1' Hr2' Hh1 Hh2.
    destruct (Hback l1 r1' Hl1 Hr1') as (r1 & Hr1 & Hh1' & _).
    destruct (Hback l2 r2' Hl2 Hr2') as (r2 & Hr2 & Hh2' & _).
    rewrite <- Hh1' in Hh1. rewrite <- Hh2' in Hh2.
    eapply (wf_handle_sep w ls Hwf l1 l2); eauto.
  - intros o Ho. by apply Hstat.
Qed.

(** The removal loop of [toplevel_handle_closed] on a well-formed list
    that holds [t]. *)
Lemma unlink_spec w pre t post rt :
  is_list (recs w) (toplevels w) (pre ++ t :: post) → NoDup (pre ++ t :: post) →
  recs w !! t = Some rt →
  ∃ w1,
    unlink (S (size (recs w))) t link_toplevels w = Ok (tt, w1) ∧
    is_list (recs w1) (toplevels w1) (pre ++ post) ∧
    recs w1 !! t = Some rt ∧
    (∀ l, with_next None <$> recs w !! l = with_next None <$> recs w1 !! l) ∧
    strs w1 = strs w ∧ objects w1 = objects w ∧ trace w1 = trace w ∧
    static_objects w1 = static_objects w ∧ same_connection w w1.
Proof.
  intros Hlist Hnd Hrt.
  assert (Hlen : (length pre < S (size (recs w)))%nat).
  { pose proof (lseg_length _ _ _ _ Hlist Hnd) as Hle.
    rewrite length_app in Hle. simpl in Hle. lia. }
  pose proof Hlist as Hsplit. apply lseg_app in Hsplit as (x & Hpre & Ht).
  simpl in Ht. destruct Ht as (-> & rt' & Hrt' & Hpost). simplify_eq.
  assert (Hnin : t ∉ pre).
  { intros Hin. apply NoDup_app in Hnd as (_ & Hdisj & _).
    apply (Hdisj t Hin). by left. }
  rewrite (unlink_run t rt pre _ link_toplevels w (toplevels w)); try done.
  destruct pre as [|c pre'] using rev_ind.
  - simpl. eexists. split; [reflexivity|]. simpl. repeat split; done.
  - clear IHpre'. rewrite last_snoc.
    assert (Hc : is_Some (recs w !! c)).
    { eapply lseg_lookup; [exact Hlist|]. set_solver. }
    destruct Hc as [rc Hrc]. unfold write_link, store. rewrite Hrc.
    assert (Hct : c ≠ t) by (intros ->; apply Hnin; set_solver).
    eexists. split; [reflexivity|]. simpl. split; [|split].
    + by apply (lseg_bypass _ _ pre' t rt post c rc).
    + by rewrite lookup_insert_ne.
    + repeat split; try done. intros l.
      destruct (decide (l = c)) as [->|Hne].
      * by rewrite lookup_insert_eq, Hrc.
      * by rewrite lookup_insert_ne.
Qed.

Lemma free_str_run w p :
  owned w p → free_str p w = Ok (tt, set_strs (release p (strs w)) w).
Proof.
  destruct p as [l|]; simpl; [|by destruct w].
  intros [s Hs]. by rewrite Hs.
Qed.

Lemma load_run w t r : recs w !! t = Some r → load t w = Ok (r, w).
Proof. intros Hr. unfold load. by rewrite Hr. Qed.

Lemma free_handle_run w t r :
  recs w !! t = Some r → free_handle t w = Ok (tt, set_recs (delete t (recs w)) w).
Proof. intros Hr. unfold free_handle. by rewrite Hr. Qed.

Lemma handle_destroy_run w h :
  h ∈ objects w →
  zwlr_foreign_toplevel_handle_v1_destroy h w =
    Ok (tt, set_objects (objects w ∖ {[h]})
              (set_trace (trace w ++ [Lib (call_handle_destroy h)]) w)).
Proof.
  intros Hh. unfold zwlr_foreign_toplevel_handle_v1_destroy. unfold_cmd. simpl.
  by rewrite decide_True.
Qed.

Lemma manager_destroy_run w m :
  m ∈ objects w →
  zwlr_foreign_toplevel_manager_v1_destroy m w =
    Ok (tt, set_objects (objects w ∖ {[m]})
              (set_trace (trace w ++ [Lib (call_manager_destroy m)]) w)).
Proof.
  intros Hm. unfold zwlr_foreign_toplevel_manager_v1_destroy. unfold_cmd. simpl.
  by rewrite decide_True.
Qed.

Lemma registry_destroy_run w r :
  r ∈ objects w →
  wl_registry_destroy r w =
    Ok (tt, set_objects (objects w ∖ {[r]})
              (set_trace (trace w ++ [Lib (call_registry_destroy r)]) w)).
Proof.
  intros Hr. unfold wl_registry_destroy. unfold_cmd. simpl. by rewrite decide_True.
Qed.

Lemma display_disconnect_run w d :
  d ∈ objects w →
  wl_display_disconnect d w =
    Ok (tt, set_socket_in [] (set_reader_count 0%nat (set_event_queue []
              (set_objects (objects w ∖ {[d]})
                 (set_trace (trace w ++ [Lib call_display_disconnect]) w))))).
Proof.
  intros Hd. unfold wl_display_disconnect. unfold_cmd. simpl. by rewrite decide_True.
Qed.

Lemma elem_of_strings_of p r :
  p ∈ strings_of r ↔ app_id r = Some p ∨ title r = Some p.
Proof.
  unfold strings_of. rewrite elem_of_app.
  destruct (app_id r), (title r); simpl;
    rewrite ?elem_of_cons, ?elem_of_nil; intuition congruence.
Qed.

Lemma release_lookup_ne p q (m : gmap loc string) :
  p ≠ Some q → release p m !! q = m !! q.
Proof.
  destruct p as [l|]; simpl; [|done]. intros Hne.
  apply lookup_delete_ne. congruence.
Qed.

(** [toplevel_handle_closed] on a record of a well-formed registry, with
    the record's own protocol object. *)
Lemma closed_spec w pre t post rt h :
  wf w (pre ++ t :: post) → recs w !! t = Some rt → handle rt = Some h →
  ∃ w',
    toplevel_handle_closed t h w = Ok (tt, w') ∧
    wf w' (pre ++ post) ∧
    recs w' !! t = None ∧
    strs w' = release (title rt) (release (app_id rt) (strs w)) ∧
    objects w' = objects w ∖ {[h]} ∧
    trace w' = trace w ++ [Lib (call_handle_destroy h)] ∧
    (∀ l, l ≠ t → with_next None <$> recs w !! l = with_next None <$> recs w' !! l) ∧
    static_objects w' = static_objects w ∧ same_connection w w'.
Proof.
  intros Hwf Hrt Hh.
  pose proof (wf_list _ _ Hwf) as Hlist. pose proof (wf_nodup _ _ Hwf) as Hnd.
  assert (Htin : t ∈ pre ++ t :: post) by set_solver.
  destruct (unlink_spec w pre t post rt Hlist Hnd Hrt)
    as (w1 & E1 & Hl1 & Hrt1 & Hpay & Hs1 & Ho1 & Htr1 & Hst1 & Hc1).
  pose proof (wf_strs_own _ _ Hwf t rt Htin Hrt) as Hown.
  assert (Ha : owned w1 (app_id rt)).
  { destruct (app_id rt) as [p|] eqn:Hp; simpl; [|done]. rewrite Hs1.
    eapply (wf_strs_live _ _ Hwf t rt); [done..|].
    apply elem_of_strings_of. by left. }
  assert (Ht : owned (set_strs (release (app_id rt) (strs w1)) w1) (title rt)).
  { destruct (title rt) as [p|] eqn:Hp; simpl; [|done].
    rewrite release_lookup_ne, Hs1.
    - eapply (wf_strs_live _ _ Hwf t rt); [done..|].
      apply elem_of_strings_of. by right.
    - intros Heq. unfold strings_of in Hown. rewrite Heq, Hp in Hown.
      simpl in Hown. apply NoDup_cons in Hown as [Hown _].
      apply Hown. by left. }
  destruct (wf_handle_live _ _ Hwf t rt h Htin Hrt Hh) as [Hlive Hnstat].
  unfold toplevel_handle_closed. unfold bind at 1, get at 1.
  run_step E1.
  run_step (load_run _ _ _ Hrt1).
  run_step (free_str_run _ _ Ha).
  run_step (load_run (set_strs (release (app_id rt) (strs w1)) w1) t rt Hrt1).
  run_step (free_str_run _ _ Ht).
  run_by ltac:(apply handle_destroy_run; simpl; by rewrite Ho1).
  rewrite (free_handle_run _ t rt) by done.
  eexists. split; [reflexivity|]. simpl.
  assert (Hsub : ∀ l, l ∈ pre ++ post → l ∈ pre ++ t :: post ∧ l ≠ t).
  { intros l Hl. split.
    { apply elem_of_app in Hl. rewrite elem_of_app, elem_of_cons. tauto. }
    intros ->.
    apply NoDup_app in Hnd as (_ & Hdisj & Hnd2).
    apply NoDup_cons in Hnd2 as [Hnt _]. apply elem_of_app in Hl as [Hl|Hl].
    - apply (Hdisj t Hl). by left.
    - done. }
  split; [|rewrite Hs1, Ho1, Htr1; repeat split; try done].
  - apply (wf_shrink w _ (pre ++ t :: post)); simpl; try done.
    + eapply lseg_agree; [|exact Hl1]. intros l Hl.
      apply lookup_delete_ne. intros <-. by destruct (Hsub t Hl).
    + apply NoDup_app in Hnd as (Hnd1 & Hdisj & Hnd2).
      apply NoDup_cons in Hnd2 as [_ Hnd2]. apply NoDup_app. split; [done|].
      split; [|done]. intros l Hl Hl'. apply (Hdisj l Hl). by right.
    + intros l Hl. by apply Hsub.
    + intros l Hl. destruct (Hsub l Hl) as [_ Hne].
      by rewrite lookup_delete_ne, Hpay.
    + intros l r p Hl Hr Hp. destruct (Hsub l Hl) as [Hin Hne].
      rewrite Hs1. rewrite !release_lookup_ne; [done|..];
        intros Heq; apply Hne;
        apply (wf_strs_sep _ _ Hwf l t r rt p); try done;
        apply elem_of_strings_of; auto.
    + intros l r h' Hl Hr Hh'. destruct (Hsub l Hl) as [Hin Hne].
      rewrite Ho1. apply elem_of_difference. split.
      * by destruct (wf_handle_live _ _ Hwf l r h' Hin Hr Hh').
      * intros ->%elem_of_singleton. apply Hne.
        by apply (wf_handle_sep _ _ Hwf l t r rt h).
    + change (NoDup (static_objects w1)). rewrite Hst1.
      apply (wf_statics_nodup _ _ Hwf).
    + change (∀ o, o ∈ static_objects w1 →
                o ∈ static_objects w ∧ o ∈ objects w1 ∖ {[h]}).
      rewrite Hst1, Ho1. intros o Ho. split; [done|].
      apply elem_of_difference. split; [by apply (wf_statics_live _ _ Hwf)|].
      intros ->%elem_of_singleton. done.
  - apply lookup_delete_eq.
  - intros l Hne. by rewrite lookup_delete_ne, Hpay.
  - simpl; by destruct Hc1 as (?&?&?&?&?&?).
  - simpl; by destruct Hc1 as (?&?&?&?&?&?).
  - simpl; by destruct Hc1 as (?&?&?&?&?&?).
  - simpl; by destruct Hc1 as (?&?&?&?&?&?).
  - simpl; by destruct Hc1 as (?&?&?&?&?&?).
  - simpl; by destruct Hc1 as (?&?&?&?&?&?).
Qed.

(** The announcement of a new toplevel in a well-formed state: a zeroed
    record with the new protocol object is put at the head of the list. *)
Lemma toplevel_spec w ls m h :
  wf w ls → h ∉ objects w →
  let t := fresh (dom (recs w)) in
  ∃ w',
    toplevel_manager_handle_toplevel m h (set_objects ({[h]} ∪ objects w) w)
      = Ok (tt, w') ∧
    wf w' (t :: ls) ∧ (t ∉ ls) ∧
    recs w' = <[t := mk_toplevel_handle (Some h) None None 0 (toplevels w)]> (recs w) ∧
    strs w' = strs w ∧ objects w' = {[h]} ∪ objects w ∧
    trace w' = trace w ++ [Lib (call_handle_add_listener h t)] ∧
    static_objects w' = static_objects w.
Proof.
  intros Hwf Hh t.
  assert (Hfresh : recs w !! t = None) by apply not_elem_of_dom, is_fresh.
  assert (Hnin : t ∉ ls).
  { intros Hin. destruct (lseg_lookup _ _ _ _ t (wf_list _ _ Hwf) Hin) as [r Hr].
    congruence. }
  unfold toplevel_manager_handle_toplevel,
    zwlr_foreign_toplevel_handle_v1_add_listener. unfold_cmd. simpl.
  fold t. rewrite !lookup_insert_eq. simpl. rewrite !lookup_insert_eq.
  rewrite decide_True by (apply elem_of_union_l; by apply elem_of_singleton).
  rewrite !insert_insert_eq.
  eexists. split; [reflexivity|]. simpl. split; [|by repeat split].
  assert (Hold : ∀ l, l ∈ ls →
    <[t := mk_toplevel_handle (Some h) None None 0 (toplevels w)]> (recs w) !! l
      = recs w !! l).
  { intros l Hl. apply lookup_insert_ne. by intros <-. }
  split; simpl.
  - split; [done|]. eexists. split; [apply lookup_insert_eq|]. simpl.
    eapply lseg_agree; [|apply (wf_list _ _ Hwf)]. done.
  - apply NoDup_cons. split; [done|]. apply (wf_nodup _ _ Hwf).
  - intros l r p [->|Hl]%elem_of_cons Hr Hp.
    + rewrite lookup_insert_eq in Hr. injection Hr as <-. by apply elem_of_nil in Hp.
    + rewrite Hold in Hr by done. by eapply (wf_strs_live _ _ Hwf).
  - intros l1 l2 r1 r2 p [->|Hl1]%elem_of_cons [->|Hl2]%elem_of_cons Hr1 Hr2 Hp1 Hp2;
      try done.
    + rewrite lookup_insert_eq in Hr1. injection Hr1 as <-. by apply elem_of_nil in Hp1.
    + rewrite lookup_insert_eq in Hr2. injection Hr2 as <-. by apply elem_of_nil in Hp2.
    + rewrite Hold in Hr1, Hr2 by done. by eapply (wf_strs_sep _ _ Hwf l1 l2).
  - intros l r [->|Hl]%elem_of_cons Hr.
    + rewrite lookup_insert_eq in Hr. injection Hr as <-. apply NoDup_nil_2.
    + rewrite Hold in Hr by done. by eapply (wf_strs_own _ _ Hwf).
  - intros l r h' [->|Hl]%elem_of_cons Hr Hh'.
    + rewrite lookup_insert_eq in Hr. injection Hr as <-. simpl in Hh'.
      injection Hh' as <-. split; [apply elem_of_union_l; by apply elem_of_singleton|].
      intros Ho. apply Hh. by apply (wf_statics_live _ _ Hwf).
    + rewrite Hold in Hr by done.
      destruct (wf_handle_live _ _ Hwf l r h' Hl Hr Hh') as [Hlive Hns].
      split; [by apply elem_of_union_r | done].
  - intros l1 l2 r1 r2 h' [->|Hl1]%elem_of_cons [->|Hl2]%elem_of_cons Hr1 Hr2 Hh1 Hh2;
      try done.
    + rewrite lookup_insert_eq in Hr1. injection Hr1 as <-. simpl in Hh1.
      injection Hh1 as <-. rewrite Hold in Hr2 by done.
      by destruct (wf_handle_live _ _ Hwf l2 r2 h Hl2 Hr2 Hh2).
    + rewrite lookup_insert_eq in Hr2. injection Hr2 as <-. simpl in Hh2.
      injection Hh2 as <-. rewrite Hold in Hr1 by done.
      by destruct (wf_handle_live _ _ Hwf l1 r1 h Hl1 Hr1 Hh1).
    + rewrite Hold in Hr1, Hr2 by done. by eapply (wf_handle_sep _ _ Hwf l1 l2).
  - apply (wf_statics_nodup _ _ Hwf).
  - intros o Ho. apply elem_of_union_r. by apply (wf_statics_live _ _ Hwf).
Qed.

Lemma filter_ne_split (pre post : list loc) t :
  NoDup (pre ++ t :: post) → filter (λ l, l ≠ t) (pre ++ t :: post) = pre ++ post.
Proof.
  intros Hnd. apply NoDup_app in Hnd as (_ & Hdisj & Hnd).
  apply NoDup_cons in Hnd as [Hnt _].
  assert (Hid : ∀ xs : list loc, t ∉ xs → filter (λ l, l ≠ t) xs = xs).
  { induction xs as [|x xs IH]; [done|]. intros [Hne Hxs]%not_elem_of_cons.
    rewrite filter_cons_True by done. by rewrite IH. }
  rewrite filter_app, filter_cons_False by (intros Hne; by apply Hne).
  rewrite !Hid; [done..|]. intros Hin. apply (Hdisj t Hin). by left.
Qed.

Lemma wf_unique_identities w ls : wf w ls → unique_identities w ls.
Proof.
  intros Hwf l1 l2 h Hl1 Hl2 H1 H2.
  destruct (recs w !! l1) as [r1|] eqn:Hr1; [|done].
  destruct (recs w !! l2) as [r2|] eqn:Hr2; [|done].
  by apply (wf_handle_sep _ _ Hwf l1 l2 r1 r2 h).
Qed.

Lemma wf_initial : wf initial_world [].
Proof.
  split; simpl; try done; try (by intros; exfalso; eapply elem_of_nil; eauto).
  - apply NoDup_nil_2.
  - apply NoDup_nil_2.
  - by intros o ?%elem_of_nil.
Qed.

(** C8.  A [closed] event for a record of the registry, with the record's
    own protocol object, ends without fault: the record is out of the
    list (which stays well formed, with the other records as they were),
    its block is freed, the blocks of its [app_id] and [title] are freed,
    and the protocol object is destroyed, once.  No hypothesis mentions
    [done]: it changes nothing, so it does not matter whether one was
    delivered. *)
Theorem closed_releases_record w ls t rt h :
  wf w ls → t ∈ ls → recs w !! t = Some rt → handle rt = Some h →
  ∃ w',
    exec (toplevel_handle_closed t h) w = Ok w' ∧
    wf w' (filter (λ l, l ≠ t) ls) ∧
    (t ∉ filter (λ l, l ≠ t) ls) ∧
    length ls = S (length (filter (λ l, l ≠ t) ls)) ∧
    recs w' !! t = None ∧
    strs w' = release (title rt) (release (app_id rt) (strs w)) ∧
    (∀ p, p ∈ strings_of rt → strs w' !! p = None) ∧
    objects w' = objects w ∖ {[h]} ∧
    trace w' = trace w ++ [Lib (call_handle_destroy h)] ∧
    toplevel_handle_done t h w = Ok (tt, w).
Proof.
  intros Hwf Hin Hrt Hh.
  apply list_elem_of_split in Hin as (pre & post & ->).
  destruct (closed_spec w pre t post rt h Hwf Hrt Hh)
    as (w' & E & Hwf' & Hgone & Hstrs & Hobj & Htr & _).
  rewrite (filter_ne_split pre post t) by apply (wf_nodup _ _ Hwf).
  exists w'. unfold exec. rewrite E. split; [done|]. split; [done|].
  split.
  { pose proof (wf_nodup _ _ Hwf) as Hnd.
    apply NoDup_app in Hnd as (_ & Hdisj & Hnd). apply NoDup_cons in Hnd as [Hnt _].
    intros [Hl|Hl]%elem_of_app; [|done]. apply (Hdisj t Hl). by left. }
  split; [rewrite !length_app; simpl; lia|].
  split; [done|]. split; [done|]. split; [|done].
  intros p Hp. rewrite Hstrs. apply elem_of_strings_of in Hp as [Hp|Hp].
  - destruct (title rt) as [q|]; simpl; rewrite Hp; simpl.
    + destruct (decide (q = p)) as [->|Hne]; [apply lookup_delete_eq|].
      rewrite lookup_delete_ne by done. apply lookup_delete_eq.
    + apply lookup_delete_eq.
  - rewrite Hp. simpl. apply lookup_delete_eq.
Qed.

(** ** Every event keeps the state well formed *)

Lemma lseg_next_agree m m' p ls q :
  (∀ l, l ∈ ls → next <$> m' !! l = next <$> m !! l) →
  lseg m p ls q → lseg m' p ls q.
Proof.
  revert p. induction ls as [|l rest IH]; intros p Hag; simpl; [done|].
  intros (-> & r & Hr & Hrest). split; [done|].
  assert (Hl : next <$> m' !! l = next <$> m !! l) by (apply Hag; by left).
  rewrite Hr in Hl. destruct (m' !! l) as [r'|]; [|done].
  injection Hl as Hl. exists r'. split; [done|]. rewrite Hl.
  apply IH; [|done]. intros l' Hl'. apply Hag. by right.
Qed.

(** One record of the registry gets a new text pointer in place of an old
    one; [keep] is its other text pointer. *)
Lemma wf_replace_text w w' ls t r r' old new keep :
  wf w ls → t ∈ ls → recs w !! t = Some r →
  recs w' = <[t := r']> (recs w) →
  handle r' = handle r → next r' = next r →
  (∀ q, q ∈ strings_of r ↔ old = Some q ∨ keep = Some q) →
  (∀ q, q ∈ strings_of r' ↔ new = Some q ∨ keep = Some q) →
  (∀ q, old = Some q → keep ≠ Some q) →
  NoDup (strings_of r') →
  (∀ q, new = Some q → release old (strs w) !! q = None ∧ is_Some (strs w' !! q)) →
  (∀ q, old ≠ Some q → new ≠ Some q → strs w' !! q = strs w !! q) →
  objects w' = objects w → static_objects w' = static_objects w →
  toplevels w' = toplevels w →
  wf w' ls.
Proof.
  intros Hwf Ht Hr Hrecs Hh Hn Hold Hnew Hdist Hnd' Hfresh Hkeep Hobj Hstat Htop.
  assert (Hother : ∀ l, l ≠ t → recs w' !! l = recs w !! l).
  { intros l Hne. rewrite Hrecs. by apply lookup_insert_ne. }
  assert (Hself : recs w' !! t = Some r') by (rewrite Hrecs; apply lookup_insert_eq).
  assert (Hlive : ∀ l r0 q, l ∈ ls → l ≠ t → recs w !! l = Some r0 →
            q ∈ strings_of r0 → old ≠ Some q ∧ is_Some (strs w !! q)).
  { intros l r0 q Hl Hne Hr0 Hq. split.
    - intros Hq'. apply Hne. apply (wf_strs_sep _ _ Hwf l t r0 r q); try done.
      apply Hold. by left.
    - by apply (wf_strs_live _ _ Hwf l r0 q). }
  assert (Hstr : ∀ q, old ≠ Some q → is_Some (strs w !! q) → is_Some (strs w' !! q)).
  { intros q Ho Hq. destruct (decide (new = Some q)) as [Hn'|Hn'].
    - by apply Hfresh.
    - by rewrite Hkeep. }
  split.
  - unfold is_list. rewrite Htop. eapply lseg_next_agree; [|apply (wf_list _ _ Hwf)].
    intros l Hl. destruct (decide (l = t)) as [->|Hne].
    + by rewrite Hself, Hr; simpl; rewrite Hn.
    + by rewrite Hother.
  - apply (wf_nodup _ _ Hwf).
  - intros l r0 q Hl Hr0 Hq. destruct (decide (l = t)) as [->|Hne].
    + rewrite Hself in Hr0. injection Hr0 as <-.
      apply Hnew in Hq as [Hq|Hq]; [by apply Hfresh|].
      apply Hstr.
      * intros Ho. by apply (Hdist q).
      * apply (wf_strs_live _ _ Hwf t r q Ht Hr). apply Hold. by right.
    + rewrite Hother in Hr0 by done.
      destruct (Hlive l r0 q Hl Hne Hr0 Hq). by apply Hstr.
  - intros l1 l2 r1 r2 q Hl1 Hl2 Hr1 Hr2 Hq1 Hq2.
    assert (Hcross : ∀ l0 r0, l0 ∈ ls → l0 ≠ t → recs w !! l0 = Some r0 →
              q ∈ strings_of r0 → q ∈ strings_of r' → False).
    { intros l0 r0 Hl0 Hne Hr0 Hq0 [Hq'|Hq']%Hnew.
      - destruct (Hlive l0 r0 q Hl0 Hne Hr0 Hq0) as [Ho [s Hs]].
        destruct (Hfresh q Hq') as [Hnone _].
        rewrite release_lookup_ne in Hnone by done. congruence.
      - apply Hne. apply (wf_strs_sep _ _ Hwf l0 t r0 r q); try done.
        apply Hold. by right. }
    destruct (decide (l1 = t)) as [->|Hne1], (decide (l2 = t)) as [->|Hne2];
      try done.
    + rewrite Hself in Hr1. injection Hr1 as <-. rewrite Hother in Hr2 by done.
      by destruct (Hcross l2 r2).
    + rewrite Hself in Hr2. injection Hr2 as <-. rewrite Hother in Hr1 by done.
      by destruct (Hcross l1 r1).
    + rewrite Hother in Hr1, Hr2 by done.
      by apply (wf_strs_sep _ _ Hwf l1 l2 r1 r2 q).
  - intros l r0 Hl Hr0. destruct (decide (l = t)) as [->|Hne].
    + rewrite Hself in Hr0. by injection Hr0 as <-.
    + rewrite Hother in Hr0 by done. by apply (wf_strs_own _ _ Hwf l).
  - intros l r0 h Hl Hr0 Hh0. rewrite Hobj, Hstat.
    destruct (decide (l = t)) as [->|Hne].
    + rewrite Hself in Hr0. injection Hr0 as <-. rewrite Hh in Hh0.
      by apply (wf_handle_live _ _ Hwf t r h).
    + rewrite Hother in Hr0 by done. by apply (wf_handle_live _ _ Hwf l r0 h).
  - intros l1 l2 r1 r2 h Hl1 Hl2 Hr1 Hr2 Hh1 Hh2.
    assert (Hback : ∀ l0 r0, recs w' !! l0 = Some r0 → handle r0 = Some h →
              ∃ r1', recs w !! l0 = Some r1' ∧ handle r1' = Some h).
    { intros l0 r0 Hr0 Hh0. destruct (decide (l0 = t)) as [->|Hne].
      - rewrite Hself in Hr0. injection Hr0 as <-. exists r. by rewrite <- Hh.
      - rewrite Hother in Hr0 by done. eauto. }
    destruct (Hback l1 r1 Hr1 Hh1) as (r1' & Hr1' & Hh1').
    destruct (Hback l2 r2 Hr2 Hh2) as (r2' & Hr2' & Hh2').
    by apply (wf_handle_sep _ _ Hwf l1 l2 r1' r2' h).
  - rewrite Hstat. apply (wf_statics_nodup _ _ Hwf).
  - intros o Ho. rewrite Hobj. rewrite Hstat in Ho. by apply (wf_statics_live _ _ Hwf).
Qed.

Lemma wf_title w ls t h text :
  wf w ls → t ∈ ls →
  ∃ w', toplevel_handle_title t h text w = Ok (tt, w') ∧ wf w' ls.
Proof.
  intros Hwf Ht.
  destruct (lseg_lookup _ _ _ _ t (wf_list _ _ Hwf) Ht) as [r Hr].
  pose proof (wf_strs_own _ _ Hwf t r Ht Hr) as Hown.
  assert (Ho : owned w (title r)).
  { destruct (title r) as [q|] eqn:Hq; simpl; [|done].
    apply (wf_strs_live _ _ Hwf t r q Ht Hr), elem_of_strings_of. by right. }
  destruct (title_event w t h r text Hr Ho)
    as (w' & E & Hrecs & Hstrs & Hobj & _ & Htop & _ & Hstat).
  exists w'. split; [done|]. simpl in Hrecs.
  set (m0 := release (title r) (strs w)) in *.
  set (new := match text with Some _ => Some (fresh (dom m0)) | None => None end) in *.
  assert (Hfr : m0 !! fresh (dom m0) = None) by apply not_elem_of_dom, is_fresh.
  apply (wf_replace_text w w' ls t r (with_title new r) (title r) new (app_id r));
    try done.
  - intros q. rewrite elem_of_strings_of. tauto.
  - intros q. rewrite elem_of_strings_of. simpl. tauto.
  - intros q Hq Ha. unfold strings_of in Hown. rewrite Hq, Ha in Hown.
    simpl in Hown. apply NoDup_cons in Hown as [Hown _]. apply Hown. by left.
  - unfold strings_of. simpl. destruct (app_id r) as [a|] eqn:Ha; simpl.
    + destruct new as [p|] eqn:Hp; simpl; [|apply NoDup_singleton].
      apply NoDup_cons. split; [|apply NoDup_singleton].
      intros ->%list_elem_of_singleton. subst new. destruct text; [|done].
      injection Hp as <-.
      assert (Hlive : is_Some (strs w !! fresh (dom m0))).
      { apply (wf_strs_live _ _ Hwf t r _ Ht Hr), elem_of_strings_of. by left. }
      subst m0. rewrite release_lookup_ne in Hfr.
      * destruct Hlive as [? Hl]. congruence.
      * intros Heq. unfold strings_of in Hown. rewrite Heq, Ha in Hown.
        simpl in Hown. apply NoDup_cons in Hown as [Hown _]. apply Hown. by left.
    + destruct new; simpl; [apply NoDup_singleton|apply NoDup_nil_2].
  - intros q Hq. subst new. destruct text as [s|]; [|done]. injection Hq as <-.
    split; [done|]. rewrite Hstrs, lookup_insert_eq. eauto.
  - intros q Hold Hnew. rewrite Hstrs. subst new. destruct text as [s|].
    + rewrite lookup_insert_ne by congruence. subst m0.
      by apply release_lookup_ne.
    + subst m0. by apply release_lookup_ne.
Qed.

Lemma wf_app_id w ls t h text :
  wf w ls → t ∈ ls →
  ∃ w', toplevel_handle_app_id t h text w = Ok (tt, w') ∧ wf w' ls.
Proof.
  intros Hwf Ht.
  destruct (lseg_lookup _ _ _ _ t (wf_list _ _ Hwf) Ht) as [r Hr].
  pose proof (wf_strs_own _ _ Hwf t r Ht Hr) as Hown.
  assert (Ho : owned w (app_id r)).
  { destruct (app_id r) as [q|] eqn:Hq; simpl; [|done].
    apply (wf_strs_live _ _ Hwf t r q Ht Hr), elem_of_strings_of. by left. }
  destruct (app_id_event w t h r text Hr Ho)
    as (w' & E & Hrecs & Hstrs & Hobj & _ & Htop & _ & Hstat).
  exists w'. split; [done|]. simpl in Hrecs.
  set (m0 := release (app_id r) (strs w)) in *.
  set (new := match text with Some _ => Some (fresh (dom m0)) | None => None end) in *.
  assert (Hfr : m0 !! fresh (dom m0) = None) by apply not_elem_of_dom, is_fresh.
  apply (wf_replace_text w w' ls t r (with_app_id new r) (app_id r) new (title r));
    try done.
  - intros q. rewrite elem_of_strings_of. tauto.
  - intros q. rewrite elem_of_strings_of. simpl. tauto.
  - intros q Hq Ha. unfold strings_of in Hown. rewrite Hq, Ha in Hown.
    simpl in Hown. apply NoDup_cons in Hown as [Hown _]. apply Hown. by left.
  - unfold strings_of. simpl. destruct (title r) as [a|] eqn:Ha; simpl.
    + destruct new as [p|] eqn:Hp; simpl; [|apply NoDup_singleton].
      apply NoDup_cons. split; [|apply NoDup_singleton].
      intros <-%list_elem_of_singleton. subst new. destruct text; [|done].
      injection Hp as <-.
      assert (Hlive : is_Some (strs w !! fresh (dom m0))).
      { apply (wf_strs_live _ _ Hwf t r _ Ht Hr), elem_of_strings_of. by right. }
      subst m0. rewrite release_lookup_ne in Hfr.
      * destruct Hlive as [? Hl]. congruence.
      * intros Heq. unfold strings_of in Hown. rewrite Heq, Ha in Hown.
        simpl in Hown. apply NoDup_cons in Hown as [Hown _]. apply Hown. by left.
    + destruct new; simpl; [apply NoDup_singleton|apply NoDup_nil_2].
  - intros q Hq. subst new. destruct text as [s|]; [|done]. injection Hq as <-.
    split; [done|]. rewrite Hstrs, lookup_insert_eq. eauto.
  - intros q Hold Hnew. rewrite Hstrs. subst new. destruct text as [s|].
    + rewrite lookup_insert_ne by congruence. subst m0.
      by apply release_lookup_ne.
    + subst m0. by apply release_lookup_ne.
Qed.

Section Registry.
Context `{ProtocolHeader}.

Lemma wf_state w ls t h entries :
  wf w ls → t ∈ ls →
  ∃ w', toplevel_handle_state t h entries w = Ok (tt, w') ∧ wf w' ls.
Proof.
  intros Hwf Ht.
  destruct (lseg_lookup _ _ _ _ t (wf_list _ _ Hwf) Ht) as [r Hr].
  assert (Hlive : ∀ q, q ∈ strings_of r → is_Some (strs w !! q))
    by (intros q; apply (wf_strs_live _ _ Hwf t r q Ht Hr)).
  assert (Ha : owned w (app_id r)).
  { destruct (app_id r) as [q|] eqn:Hq; simpl; [|done].
    apply Hlive, elem_of_strings_of. by left. }
  assert (Hti : owned w (title r)).
  { destruct (title r) as [q|] eqn:Hq; simpl; [|done].
    apply Hlive, elem_of_strings_of. by right. }
  destruct (state_event w t h entries r Hr Ha Hti)
    as (w' & E & Hrecs & _ & Hstrs & _ & Hobj & Htop & Hstat).
  exists w'. split; [done|].
  pose proof (wf_strs_own _ _ Hwf t r Ht Hr) as Hown.
  eapply (wf_replace_text w w' ls t r _ (title r) (title r) (app_id r));
    try done.
  - intros q. rewrite elem_of_strings_of. tauto.
  - intros q. rewrite elem_of_strings_of. simpl. tauto.
  - intros q Hq Hq'. unfold strings_of in Hown. rewrite Hq, Hq' in Hown.
    simpl in Hown. apply NoDup_cons in Hown as [Hown _]. apply Hown. by left.
  - intros q Hq. rewrite Hq. simpl. rewrite lookup_delete_eq. split; [done|].
    rewrite Hstrs. apply Hlive, elem_of_strings_of. by right.
  - intros q _ _. by rewrite Hstrs.
Qed.

Lemma wf_finished w ls m :
  wf w ls → toplevel_manager w = Some m →
  ∃ w', toplevel_manager_handle_finished m w = Ok (tt, w') ∧ wf w' ls.
Proof.
  intros Hwf Hm.
  pose proof (wf_statics_nodup _ _ Hwf) as Hnd.
  pose proof (wf_statics_live _ _ Hwf) as Hlive.
  unfold static_objects in Hnd, Hlive. rewrite Hm in Hnd, Hlive. simpl in Hnd, Hlive.
  apply NoDup_cons in Hnd as [Hmn Hnd].
  unfold toplevel_manager_handle_finished.
  run_by ltac:(apply manager_destroy_run; apply Hlive; by left).
  eexists. split; [reflexivity|].
  apply (wf_shrink w _ ls ls); simpl; try done.
  - apply (wf_list _ _ Hwf).
  - apply (wf_nodup _ _ Hwf).
  - intros l r h Hl Hr Hh.
    destruct (wf_handle_live _ _ Hwf l r h Hl Hr Hh) as [Hin Hns].
    apply elem_of_difference. split; [done|]. intros ->%elem_of_singleton.
    apply Hns. unfold static_objects. rewrite Hm. by left.
  - intros o Ho. split.
    + unfold static_objects. rewrite Hm. by right.
    + apply elem_of_difference. split; [apply Hlive; by right|].
      by intros ->%elem_of_singleton.
Qed.

Lemma wf_global w ls r name interface version :
  wf w ls → r ∈ objects w →
  ∃ w', registry_handle_global r name interface version w = Ok (tt, w') ∧ wf w' ls.
Proof.
  intros Hwf Hr. unfold registry_handle_global.
  destruct (String.eqb interface zwlr_foreign_toplevel_manager_v1_interface_name);
    [|by exists w].
  set (m := fresh (objects w)).
  assert (Hm : m ∉ objects w) by apply is_fresh.
  unfold wl_registry_bind, zwlr_foreign_toplevel_manager_v1_add_listener.
  unfold_cmd.
  repeat (progress (simpl; fold m;
    rewrite ?decide_True
      by first [done | apply elem_of_union_l; by apply elem_of_singleton])).
  eexists. split; [reflexivity|].
  pose proof (wf_statics_nodup _ _ Hwf) as Hnd.
  pose proof (wf_statics_live _ _ Hwf) as Hlive.
  unfold static_objects in Hnd, Hlive. apply NoDup_app in Hnd as (_ & _ & Hnd).
  split; simpl; try apply Hwf.
  - intros l r0 h Hl Hr0 Hh.
    destruct (wf_handle_live _ _ Hwf l r0 h Hl Hr0 Hh) as [Hin Hns].
    split; [by apply elem_of_union_r|]. unfold static_objects. simpl.
    intros [->|Ho]%elem_of_cons; [done|]. apply Hns. unfold static_objects.
    apply elem_of_app. by right.
  - unfold static_objects. simpl. apply NoDup_cons. split; [|done].
    intros Ho. apply Hm, Hlive. apply elem_of_app. by right.
  - unfold static_objects. simpl. intros o [->|Ho]%elem_of_cons.
    + apply elem_of_union_l. by apply elem_of_singleton.
    + apply elem_of_union_r, Hlive. apply elem_of_app. by right.
Qed.

(** Every event the library can deliver is handled without fault and
    leaves the state well formed. *)
Lemma wf_dispatch_event w ls e :
  wf w ls → well_addressed w ls e →
  ∃ w', exec (dispatch_event e) w = Ok w' ∧ wf w' (registry_after w ls e).
Proof.
  intros Hwf Hev. unfold exec.
  destruct e as [r n i v|r n|m h|m|d h s|d h s|d h o|d h o|d h st|d h|d h|d h p];
    simpl in Hev; simpl; try (by exists w).
  - destruct (wf_global w ls r n i v Hwf Hev) as (w' & -> & ?). eauto.
  - destruct (toplevel_spec w ls m h Hwf Hev) as (w' & E & Hwf' & _).
    exists w'. unfold bind at 1, modify at 1. by rewrite E.
  - destruct (wf_finished w ls m Hwf Hev) as (w' & -> & ?). eauto.
  - destruct (wf_title w ls d h s Hwf Hev) as (w' & -> & ?). eauto.
  - destruct (wf_app_id w ls d h s Hwf Hev) as (w' & -> & ?). eauto.
  - destruct (wf_state w ls d h st Hwf Hev) as (w' & -> & ?). eauto.
  - destruct Hev as [Hin Hh].
    destruct (recs w !! d) as [rt|] eqn:Hrt; [|done]. simpl in Hh.
    apply list_elem_of_split in Hin as (pre & post & ->).
    destruct (closed_spec w pre d post rt h Hwf Hrt Hh) as (w' & E & Hwf' & _).
    exists w'. rewrite E. split; [done|].
    by rewrite (filter_ne_split pre post d) by apply (wf_nodup _ _ Hwf).
Qed.

(** One conforming event keeps the state well formed. *)
Lemma conforming_step w ls e :
  wf w ls → fresh_announcement w e ∨ closes_record w ls e →
  ∃ w', exec (dispatch_event e) w = Ok w' ∧ wf w' (registry_after w ls e).
Proof.
  intros Hwf Hev. apply wf_dispatch_event; [done|].
  destruct Hev as [Hev|Hev]; by destruct e.
Qed.

Lemma conforming_run evs : ∀ w ls,
  wf w ls → conforming evs w ls →
  ∃ w' ls', exec (deliver evs) w = Ok w' ∧ wf w' ls'.
Proof.
  induction evs as [|e rest IH]; intros w ls Hwf Hconf.
  - exists w, ls. done.
  - destruct Hconf as [Hev Hrest].
    destruct (conforming_step w ls e Hwf Hev) as (w1 & E1 & Hwf1).
    destruct (IH w1 _ Hwf1 (Hrest w1 E1)) as (w2 & ls2 & E2 & Hwf2).
    exists w2, ls2. split; [|done]. unfold exec in *. simpl.
    unfold bind. destruct (dispatch_event e w) as [[[] w1']| |]; [|done..].
    injection E1 as ->. done.
Qed.

Lemma conforming_prefix pre post : ∀ w ls,
  conforming (pre ++ post) w ls → conforming pre w ls.
Proof.
  induction pre as [|e pre IH]; intros w ls; simpl; [done|].
  intros [Hev Hrest]. split; [done|]. intros w' E. by apply IH, Hrest.
Qed.

(** C4.  The listeners are static functions that run only when the
    library dispatches an event, and the library creates a new proxy for
    every announcement and delivers no event for a proxy that is
    destroyed.  Along every such sequence of announcements and [closed]
    events (each announced protocol object new, each [closed] for a record
    of the registry with that record's own object) no event faults, so
    nothing is freed or destroyed twice; after every prefix of the
    sequence the registry is well formed and holds no two records for the
    same protocol object; and a [closed] event that follows takes its
    record out of the list and frees it in that one call, destroys its
    protocol object, and leaves no second [closed] for that record that
    the library could deliver. *)
Theorem registry_identities_unique evs w ls :
  wf w ls → conforming evs w ls →
  (∀ pre post, evs = pre ++ post →
     ∃ w1 ls1, exec (deliver pre) w = Ok w1 ∧ wf w1 ls1 ∧ unique_identities w1 ls1) ∧
  ∃ w' ls',
    exec (deliver evs) w = Ok w' ∧ wf w' ls' ∧ unique_identities w' ls' ∧
    ∀ t h, closes_record w' ls' (handle_closed t h) →
      ∃ w'',
        exec (dispatch_event (handle_closed t h)) w' = Ok w'' ∧
        wf w'' (filter (λ l, l ≠ t) ls') ∧
        unique_identities w'' (filter (λ l, l ≠ t) ls') ∧
        (t ∉ filter (λ l, l ≠ t) ls') ∧
        recs w'' !! t = None ∧
        (h ∉ objects w'') ∧
        ∀ h', ¬ closes_record w'' (filter (λ l, l ≠ t) ls') (handle_closed t h').
Proof.
  intros Hwf Hconf. split.
  { intros pre post ->.
    destruct (conforming_run pre w ls Hwf (conforming_prefix pre post w ls Hconf))
      as (w1 & ls1 & E1 & Hwf1).
    exists w1, ls1. split; [done|]. split; [done|]. by apply wf_unique_identities. }
  destruct (conforming_run evs w ls Hwf Hconf) as (w' & ls' & E & Hwf').
  exists w', ls'. split; [done|]. split; [done|].
  split; [by apply wf_unique_identities|].
  intros t h [Hin Hh].
  destruct (recs w' !! t) as [rt|] eqn:Hrt; [|done]. simpl in Hh.
  pose proof (wf_nodup _ _ Hwf') as Hnd.
  apply list_elem_of_split in Hin as (pre & post & ->).
  destruct (closed_spec w' pre t post rt h Hwf' Hrt Hh)
    as (w'' & E' & Hwf'' & Hgone & _ & Hobj & _).
  rewrite (filter_ne_split pre post t) by done.
  assert (Hnin : t ∉ pre ++ post).
  { apply NoDup_app in Hnd as (_ & Hdisj & Hnd). apply NoDup_cons in Hnd as [Hnt _].
    intros [Hl|Hl]%elem_of_app; [|done]. apply (Hdisj t Hl). by left. }
  exists w''. unfold exec. simpl. rewrite E'. split; [done|]. split; [done|].
  split; [by apply wf_unique_identities|]. split; [done|]. split; [done|].
  split.
  - rewrite Hobj, elem_of_difference, elem_of_singleton. tauto.
  - intros h' [Hin' _]. done.
Qed.

End Registry.

(** ** Teardown ([wlr_toplevel_cleanup]) *)

Lemma use_object_inv p u w w' :
  use_object p w = Ok (u, w') → p ∈ objects w ∧ w' = w.
Proof. unfold use_object. case_decide; [|done]. by intros [= _ <-]. Qed.

Lemma destroy_object_inv p u w w' :
  destroy_object p w = Ok (u, w') →
  p ∈ objects w ∧ w' = set_objects (objects w ∖ {[p]}) w.
Proof.
  unfold destroy_object. intros E. apply bind_inv in E as ([] & w1 & E1 & E2).
  apply use_object_inv in E1 as [? ->]. apply modify_inv in E2. done.
Qed.

Lemma destroy_object_run p w :
  p ∈ objects w → destroy_object p w = Ok (tt, set_objects (objects w ∖ {[p]}) w).
Proof. intros Hp. unfold destroy_object. unfold_cmd. by rewrite decide_True. Qed.

(** On a module whose statics are all NULL, cleanup does nothing. *)
Lemma cleanup_cleared `{ProtocolHeader} w :
  cleared w → wlr_toplevel_cleanup w = Ok (tt, w).
Proof.
  destruct w. unfold cleared. simpl. intros (-> & -> & -> & ->).
  unfold wlr_toplevel_cleanup. unfold bind at 1 2, get at 1 2. simpl.
  by destruct (size recs0).
Qed.

(** Whenever cleanup returns, every static is NULL. *)
Lemma cleanup_clears `{ProtocolHeader} w u w1 :
  wlr_toplevel_cleanup w = Ok (u, w1) → cleared w1.
Proof.
  unfold wlr_toplevel_cleanup, zwlr_foreign_toplevel_manager_v1_destroy,
    wl_registry_destroy, wl_display_disconnect.
  intros E. cmd_inv;
    repeat match goal with
    | H : destroy_object _ _ = Ok _ |- _ => apply destroy_object_inv in H as [? ->]
    end; simpl in *; by repeat split.
Qed.

(** What the loop of cleanup does to the records [ls] that start at [p],
    in a state that is well formed with [p] as the head of the list. *)
Lemma cleanup_loop_spec `{ProtocolHeader} ls : ∀ w p fuel,
  wf (set_toplevels p w) ls → (length ls ≤ fuel)%nat →
  ∃ w',
    cleanup_loop fuel p w = Ok (tt, w') ∧
    recs w' ⊆ recs w ∧ strs w' ⊆ strs w ∧ objects w' ⊆ objects w ∧
    (∀ l, l ∈ ls → recs w' !! l = None) ∧
    (∀ l r q, l ∈ ls → recs w !! l = Some r → q ∈ strings_of r → strs w' !! q = None) ∧
    (∀ l r h, l ∈ ls → recs w !! l = Some r → handle r = Some h → h ∉ objects w') ∧
    (∀ o, o ∈ static_objects w → o ∈ objects w') ∧
    (∃ hs, trace w' = trace w ++ ((λ h, Lib (call_handle_destroy h)) <$> hs) ∧
           NoDup hs ∧
           ∀ h, h ∈ hs ↔ ∃ l r, l ∈ ls ∧ recs w !! l = Some r ∧ handle r = Some h) ∧
    toplevels w' = toplevels w ∧ toplevel_manager w' = toplevel_manager w ∧
    registry w' = registry w ∧ display w' = display w ∧
    simple_callback w' = simple_callback w.
Proof.
  induction ls as [|l rest IH]; intros w p fuel Hwf Hfuel.
  - pose proof (wf_list _ _ Hwf) as Hp. unfold is_list in Hp. simpl in Hp. subst p.
    exists w. split; [by destruct fuel|]. repeat split; try done.
    + by intros l ?%elem_of_nil.
    + by intros l r q ?%elem_of_nil.
    + by intros l r h ?%elem_of_nil.
    + intros o Ho. by apply (wf_statics_live _ _ Hwf).
    + exists []. simpl. rewrite app_nil_r. split; [done|].
      split; [apply NoDup_nil_2|]. intros h. split.
      * by intros ?%elem_of_nil.
      * by intros (l & r & ?%elem_of_nil & _).
  - pose proof (wf_list _ _ Hwf) as Hlist. unfold is_list in Hlist. simpl in Hlist.
    destruct Hlist as (-> & r & Hr & Hrest).
    pose proof (wf_nodup _ _ Hwf) as Hnd. apply NoDup_cons in Hnd as [Hl Hnd].
    destruct fuel as [|fuel]; [simpl in Hfuel; lia|].
    assert (Hlin : l ∈ l :: rest) by by left.
    pose proof (wf_strs_own _ _ Hwf l r Hlin Hr) as Hown.
    assert (Ha : owned w (app_id r)).
    { destruct (app_id r) as [q|] eqn:Hq; simpl; [|done].
      apply (wf_strs_live _ _ Hwf l r q Hlin Hr), elem_of_strings_of. by left. }
    assert (Ht : owned (set_strs (release (app_id r) (strs w)) w) (title r)).
    { destruct (title r) as [q|] eqn:Hq; simpl; [|done].
      rewrite release_lookup_ne.
      - apply (wf_strs_live _ _ Hwf l r q Hlin Hr), elem_of_strings_of. by right.
      - intros Heq. unfold strings_of in Hown. rewrite Heq, Hq in Hown.
        simpl in Hown. apply NoDup_cons in Hown as [Hown _]. apply Hown. by left. }
    set (strs1 := release (title r) (release (app_id r) (strs w))).
    set (objs1 := match handle r with Some h => objects w ∖ {[h]} | None => objects w end).
    set (tr1 := trace w ++ match handle r with
                           | Some h => [Lib (call_handle_destroy h)]
                           | None => []
                           end).
    set (w1 := set_recs (delete l (recs w))
                 (set_objects objs1 (set_trace tr1 (set_strs strs1 w)))).
    assert (E : cleanup_loop (S fuel) (Some l) w = cleanup_loop fuel (next r) w1).
    { cbn [cleanup_loop].
      run_step (load_run _ _ _ Hr). run_step (free_str_run _ _ Ha).
      run_step (free_str_run _ _ Ht).
      subst w1 tr1 objs1 strs1. destruct (handle r) as [h|] eqn:Hh.
      - destruct (wf_handle_live _ _ Hwf l r h Hlin Hr Hh) as [Hlive _].
        run_by ltac:(apply handle_destroy_run; exact Hlive).
        run_by ltac:(eapply free_handle_run; exact Hr). done.
      - unfold bind at 1, ret at 1.
        run_by ltac:(eapply free_handle_run; exact Hr).
        destruct w; simpl. by rewrite app_nil_r. }
    assert (Hsub : ∀ l', l' ∈ rest → l' ∈ l :: rest ∧ l' ≠ l).
    { intros l' Hl'. split; [by right|]. by intros ->. }
    assert (Hstr1 : ∀ l' r' q, l' ∈ rest → recs w !! l' = Some r' →
              q ∈ strings_of r' → strs1 !! q = strs w !! q).
    { intros l' r' q Hl' Hr' Hq. destruct (Hsub l' Hl') as [Hin Hne].
      subst strs1. rewrite !release_lookup_ne; [done|..];
        intros Heq; apply Hne;
        apply (wf_strs_sep _ _ Hwf l' l r' r q); try done;
        apply elem_of_strings_of; auto. }
    assert (Hobj1 : ∀ o, o ∈ objects w → handle r ≠ Some o → o ∈ objs1).
    { intros o Ho Hne. subst objs1. destruct (handle r) as [h|]; [|done].
      apply elem_of_difference. split; [done|].
      intros ->%elem_of_singleton. done. }
    assert (Hwf1 : wf (set_toplevels (next r) w1) rest).
    { apply (wf_shrink (set_toplevels (Some l) w) _ (l :: rest)); simpl; try done.
      - eapply lseg_agree; [|exact Hrest]. intros l' Hl'.
        apply lookup_delete_ne. by intros <-.
      - intros l' Hl'. by right.
      - intros l' Hl'. destruct (Hsub l' Hl') as [_ Hne].
        by rewrite lookup_delete_ne.
      - intros l' r' h' Hl' Hr' Hh'. destruct (Hsub l' Hl') as [Hin Hne].
        apply Hobj1.
        + by destruct (wf_handle_live _ _ Hwf l' r' h' Hin Hr' Hh').
        + intros Hh. apply Hne. by apply (wf_handle_sep _ _ Hwf l' l r' r h').
      - apply (wf_statics_nodup _ _ Hwf).
      - intros o Ho. split; [done|]. apply Hobj1.
        + by apply (wf_statics_live _ _ Hwf).
        + intros Hh. by destruct (wf_handle_live _ _ Hwf l r o Hlin Hr Hh). }
    destruct (IH w1 (next r) fuel Hwf1 ltac:(simpl in Hfuel; lia))
      as (w' & E' & Hrecs & Hstrs & Hobjs & Hgone & Hsgone & Hhgone & Hstat &
          (hs & Htr & Hndhs & Hhs) & Htop & Hman & Hreg & Hdis & Hcb).
    exists w'. rewrite E. split; [done|]. simpl in *.
    assert (Hs1 : strs1 ⊆ strs w).
    { subst strs1. destruct (title r), (app_id r); simpl;
        repeat (etrans; [apply delete_subseteq|]); done. }
    assert (Ho1 : objs1 ⊆ objects w).
    { subst objs1. destruct (handle r); [|done]. apply subseteq_difference_l. done. }
    split; [etrans; [exact Hrecs|apply delete_subseteq]|].
    split; [by etrans|]. split; [by etrans|].
    split; [|split; [|split; [|split; [|split]]]]; try done.
    + intros l' [->|Hl']%elem_of_cons; [|by apply Hgone].
      eapply lookup_weaken_None; [|exact Hrecs]. apply lookup_delete_eq.
    + intros l' r' q [->|Hl']%elem_of_cons Hr' Hq.
      * rewrite Hr in Hr'. injection Hr' as <-.
        eapply lookup_weaken_None; [|exact Hstrs]. subst strs1.
        apply elem_of_strings_of in Hq as [Hq|Hq].
        -- destruct (title r) as [q'|]; simpl; rewrite Hq; simpl.
           ++ destruct (decide (q' = q)) as [->|Hne]; [apply lookup_delete_eq|].
              rewrite lookup_delete_ne by done. apply lookup_delete_eq.
           ++ apply lookup_delete_eq.
        -- rewrite Hq. simpl. apply lookup_delete_eq.
      * destruct (Hsub l' Hl') as [_ Hne].
        apply (Hsgone l' r' q Hl'); [by rewrite lookup_delete_ne|done].
    + intros l' r' h' [->|Hl']%elem_of_cons Hr' Hh'.
      * rewrite Hr in Hr'. injection Hr' as <-.
        intros Hin. apply Hobjs in Hin. subst objs1.
        rewrite Hh' in Hin. apply elem_of_difference in Hin as [_ Hin].
        apply Hin. by apply elem_of_singleton.
      * destruct (Hsub l' Hl') as [_ Hne].
        apply (Hhgone l' r' h' Hl'); [by rewrite lookup_delete_ne|done].
    + exists (option_list (handle r) ++ hs). split; [|split].
      * rewrite Htr. subst tr1. rewrite fmap_app, app_assoc. f_equal. f_equal.
        by destruct (handle r).
      * destruct (handle r) as [h|] eqn:Hh; simpl; [|done].
        apply NoDup_cons. split; [|done]. intros Hin.
        apply Hhs in Hin as (l' & r' & Hl' & Hr' & Hh').
        destruct (Hsub l' Hl') as [Hin' Hne]. apply Hne.
        rewrite lookup_delete_ne in Hr' by done.
        by apply (wf_handle_sep _ _ Hwf l' l r' r h).
      * intros h'. rewrite elem_of_app, Hhs. split.
        -- intros [Hh'|(l' & r' & Hl' & Hr' & Hh')].
           ++ exists l, r. split; [by left|]. split; [done|].
              destruct (handle r); simpl in Hh'; [|by apply elem_of_nil in Hh'].
              by apply list_elem_of_singleton in Hh' as ->.
           ++ destruct (Hsub l' Hl') as [_ Hne].
              rewrite lookup_delete_ne in Hr' by done. exists l', r'.
              split; [by right|done].
        -- intros (l' & r' & [->|Hl']%elem_of_cons & Hr' & Hh').
           ++ left. rewrite Hr in Hr'. injection Hr' as <-. rewrite Hh'. by left.
           ++ right. exists l', r'. destruct (Hsub l' Hl') as [_ Hne].
              by rewrite lookup_delete_ne.
Qed.

(** An object behind a static is alive until it is destroyed. *)
Ltac live_static Hstat :=
  simpl; rewrite ?elem_of_difference, ?elem_of_singleton;
  repeat split; try done; apply Hstat; rewrite ?elem_of_cons; auto.

Lemma wf_own_head w ls : wf w ls → wf (set_toplevels (toplevels w) w) ls.
Proof. by destruct w. Qed.

Section Cleanup.
Context `{ProtocolHeader}.

(** Cleanup of a well-formed state: no fault, and everything the module
    owned is released. *)
Lemma cleanup_spec w ls :
  wf w ls →
  ∃ w1,
    wlr_toplevel_cleanup w = Ok (tt, w1) ∧
    (∀ l, l ∈ ls → recs w1 !! l = None) ∧
    (∀ l r q, l ∈ ls → recs w !! l = Some r → q ∈ strings_of r → strs w1 !! q = None) ∧
    (∀ l r h, l ∈ ls → recs w !! l = Some r → handle r = Some h → h ∉ objects w1) ∧
    (∀ o, o ∈ static_objects w → o ∉ objects w1) ∧
    ∃ hs, NoDup hs ∧
      trace w1 = trace w ++ ((λ h, Lib (call_handle_destroy h)) <$> hs) ++
                 static_releases w.
Proof.
  intros Hwf.
  pose proof (lseg_length _ _ _ _ (wf_list _ _ Hwf) (wf_nodup _ _ Hwf)) as Hlen.
  destruct (cleanup_loop_spec ls w (toplevels w) (size (recs w)) (wf_own_head _ _ Hwf) Hlen)
    as (w2 & E & Hrecs & Hstrs & Hobjs & Hgone & Hsgone & Hhgone & Hstat &
        (hs & Htr & Hndhs & _) & Htop & Hman & Hreg & Hdis & Hcb).
  pose proof (wf_statics_nodup _ _ Hwf) as Hnd. unfold static_objects in Hnd, Hstat.
  unfold wlr_toplevel_cleanup. unfold bind at 1 2, get at 1 2.
  run_step E. unfold bind at 1, modify at 1. unfold bind at 1, get at 1.
  cbn [toplevel_manager set_toplevels]. rewrite Hman.
  set (P := λ w1 : world,
    recs w1 = recs w2 ∧ strs w1 = strs w2 ∧
    trace w1 = trace w2 ++ static_releases w ∧
    ∀ o, o ∈ objects w1 ↔ o ∈ objects w2 ∧ o ∉ static_objects w).
  cut (∃ w1,
    bind (match toplevel_manager w with
          | Some p => bind (zwlr_foreign_toplevel_manager_v1_destroy p)
                        (λ _, modify (set_toplevel_manager None))
          | None => ret tt
          end)
      (λ _, bind (get registry) (λ r,
         bind (match r with
               | Some p => bind (wl_registry_destroy p) (λ _, modify (set_registry None))
               | None => ret tt
               end)
           (λ _, bind (get display) (λ d,
              match d with
              | Some p => bind (wl_display_disconnect p) (λ _, modify (set_display None))
              | None => ret tt
              end)))) (set_toplevels None w2) = Ok (tt, w1) ∧ P w1).
  { intros (w1 & E1 & Hr1 & Hs1 & Ht1 & Ho1). exists w1. split; [exact E1|].
    split; [intros l Hl; rewrite Hr1; by apply Hgone|].
    split; [intros l r q Hl Hr Hq; rewrite Hs1; by eapply Hsgone|].
    split; [|split].
    - intros l r h Hl Hr Hh [Hin _]%Ho1. by eapply Hhgone.
    - intros o Ho [_ Hin]%Ho1. done.
    - exists hs. split; [done|]. by rewrite Ht1, Htr, <- app_assoc. }
  unfold static_objects, static_releases in P. subst P.
  destruct (toplevel_manager w) as [m|] eqn:Em, (registry w) as [r|] eqn:Er,
    (display w) as [d|] eqn:Ed; simpl in Hnd, Hstat;
    repeat match goal with
    | H : NoDup (_ :: _) |- _ => apply NoDup_cons in H as [? H]
    end;
    repeat match goal with
    | H : _ ∉ _ :: _ |- _ => apply not_elem_of_cons in H as [? H]
    end;
    unfold bind, get, modify, ret;
    repeat (progress
      (simpl; rewrite ?Hman, ?Hreg, ?Hdis;
       try first
         [ rewrite manager_destroy_run by live_static Hstat
         | rewrite registry_destroy_run by live_static Hstat
         | rewrite display_disconnect_run by live_static Hstat ]));
    (eexists; split; [reflexivity|]; simpl; split; [done|]; split; [done|];
     split; [by rewrite <- ?app_assoc, ?app_nil_r|];
     intros o; rewrite ?elem_of_difference, ?elem_of_singleton,
       ?elem_of_cons, ?elem_of_nil; intuition congruence).
Qed.

(** The release calls of one cleanup are pairwise different. *)
Lemma releases_nodup w hs :
  NoDup hs →
  NoDup (((λ h, Lib (call_handle_destroy h)) <$> hs) ++ static_releases w).
Proof.
  intros Hnd. apply NoDup_app. split; [|split].
  - apply NoDup_fmap_2; [|done]. by intros h1 h2 [= ->].
  - intros e (h & -> & _)%list_elem_of_fmap. unfold static_releases.
    destruct (toplevel_manager w), (registry w), (display w); simpl;
      rewrite ?elem_of_cons, ?elem_of_nil; intuition congruence.
  - unfold static_releases.
    destruct (toplevel_manager w), (registry w), (display w); simpl;
      repeat (apply NoDup_cons; split;
              [rewrite ?elem_of_cons, ?elem_of_nil; intuition congruence|]);
      apply NoDup_nil_2.
Qed.

(** C5.  Cleanup of a well-formed state ends without fault and leaves
    every static NULL; the records of the registry, their text blocks,
    their protocol objects and the objects behind the statics are all
    released, by release calls that are pairwise different.  Called again
    it returns at once in the same world, trace included: nothing is
    released a second time.  The same holds after any cleanup that
    returned, whatever the state it started in, and cleanup of the initial
    state (init never called) changes nothing. *)
Theorem cleanup_idempotent w ls :
  wf w ls →
  ∃ w1,
    exec wlr_toplevel_cleanup w = Ok w1 ∧
    cleared w1 ∧
    (∀ l, l ∈ ls → recs w1 !! l = None) ∧
    (∀ l r q, l ∈ ls → recs w !! l = Some r → q ∈ strings_of r → strs w1 !! q = None) ∧
    (∀ l r h, l ∈ ls → recs w !! l = Some r → handle r = Some h → h ∉ objects w1) ∧
    (∀ o, o ∈ static_objects w → o ∉ objects w1) ∧
    (∃ released, trace w1 = trace w ++ released ∧ NoDup released) ∧
    exec wlr_toplevel_cleanup w1 = Ok w1 ∧
    (∀ w0 w2, exec wlr_toplevel_cleanup w0 = Ok w2 →
              cleared w2 ∧ exec wlr_toplevel_cleanup w2 = Ok w2) ∧
    exec wlr_toplevel_cleanup initial_world = Ok initial_world.
Proof.
  intros Hwf.
  destruct (cleanup_spec w ls Hwf) as (w1 & E & Hr & Hs & Ho & Hst & hs & Hnd & Htr).
  pose proof (cleanup_clears _ _ _ E) as Hc.
  exists w1. unfold exec. rewrite E.
  do 6 (split; [done|]).
  split; [eexists; split; [exact Htr|by apply releases_nodup]|].
  split; [by rewrite (cleanup_cleared w1 Hc)|].
  split; [|by rewrite (cleanup_cleared initial_world)].
  intros w0 w2 E0.
  destruct (wlr_toplevel_cleanup w0) as [[[] w2']| |] eqn:E0'; [|done..].
  injection E0 as <-. pose proof (cleanup_clears _ _ _ E0') as Hc2.
  split; [done|]. by rewrite (cleanup_cleared _ Hc2).
Qed.

End Cleanup.

(** ** The properties at concrete states *)

Section Examples.
#[local] Existing Instance wlr_protocol_v1.

(** The scenarios of the specification, run on the model: a toplevel is
    announced, named and activated; it is activated again; a second
    toplevel is announced and activated. *)
Example scenario_first_focus :
  ∃ w',
    exec (wlr_toplevel_set_callback (Some 9%positive) ;;
          deliver [manager_toplevel 3%positive 4%positive;
                   handle_app_id 1%positive 4%positive (Some "editor"%string);
                   handle_title 1%positive 4%positive (Some "draft.txt"%string);
                   handle_state 1%positive 4%positive [2];
                   handle_done 1%positive 4%positive]) initial_world = Ok w' ∧
    notifications (trace w') = [Notify 9%positive "editor" "draft.txt" 1].
Proof. eexists. split; [by vm_compute|]. reflexivity. Qed.

Example scenario_repeated_activation :
  ∃ w',
    exec (deliver [handle_state 1%positive 4%positive [2];
                   handle_done 1%positive 4%positive;
                   handle_state 1%positive 4%positive [2];
                   handle_done 1%positive 4%positive]) editor_world = Ok w' ∧
    trace w' = [Notify 9%positive "editor" "draft.txt" 1].
Proof. eexists. split; [by vm_compute|]. reflexivity. Qed.

Example scenario_second_toplevel :
  ∃ w',
    exec (deliver [handle_state 1%positive 4%positive [2];
                   handle_done 1%positive 4%positive;
                   manager_toplevel 3%positive 8%positive;
                   handle_app_id 2%positive 8%positive (Some "term"%string);
                   handle_state 2%positive 8%positive [0; 2];
                   handle_done 2%positive 8%positive]) editor_world = Ok w' ∧
    notifications (trace w') =
      [Notify 9%positive "editor" "draft.txt" 1; Notify 9%positive "term" "" 1].
Proof. eexists. split; [by vm_compute|]. reflexivity. Qed.

Lemma wf_one_toplevel : wf one_toplevel [1%positive].
Proof.
  destruct (toplevel_spec initial_world [] 3%positive 4%positive wf_initial
              ltac:(by intros ?%elem_of_empty)) as (w' & E & Hwf & _).
  vm_compute in E. injection E as <-. exact Hwf.
Qed.

(** C3 fails on the code.  The compositor is reached but offers no
    manager: init returns 0 with [display] reset to NULL, but [registry]
    still holds the pointer to the registry proxy it destroyed, and the
    cleanup that follows destroys that proxy again. *)
Lemma init_failure_leaves_registry_dangling :
  ∃ w' r,
    wlr_toplevel_init no_manager_env initial_world = Ok (0, w') ∧
    display w' = None ∧ toplevel_manager w' = None ∧
    registry w' = Some r ∧ (r ∉ objects w') ∧
    trace w' = [Lib call_display_connect; Lib call_display_get_registry;
                Lib (call_registry_add_listener r); Lib call_display_roundtrip;
                Lib (call_registry_destroy r); Lib call_display_disconnect] ∧
    exec wlr_toplevel_cleanup w' = Fault (DeadObject r).
Proof.
  eexists _, 2%positive. split; [by vm_compute|].
  split; [done|]. split; [done|]. split; [done|].
  split; [by intros ?%elem_of_empty|]. split; [done|]. by vm_compute.
Qed.

(** C1 at [editor_world]: five state arrays with two runs of activated
    ones, two calls. *)
Lemma focus_edge_triggered_witness :
  ∃ w',
    exec (deliver (handle_state 1%positive 4%positive <$>
                     [[2]; [0; 2]; []; [3]; [2]])) editor_world = Ok w' ∧
    trace w' = [Notify 9%positive "editor" "draft.txt" 1;
                Notify 9%positive "editor" "draft.txt" 1].
Proof.
  destruct (focus_edge_triggered editor_world 1%positive 4%positive editor_record
              9%positive) as [_ Hseq].
  - reflexivity.
  - simpl. eexists. reflexivity.
  - simpl. eexists. reflexivity.
  - reflexivity.
  - exact (Hseq [[2]; [0; 2]; []; [3]; [2]] eq_refl).
Defined.

(** C2 at [editor_connected]: two queued events, nothing on the socket. *)
Lemma read_events_no_data_witness :
  ∃ w' new,
    wlr_toplevel_read_events 2 editor_connected = Ok (tt, w') ∧
    trace w' = trace editor_connected ++ new ++ [Lib call_display_cancel_read] ∧
    Forall (λ e, may_block e = false) new ∧
    reader_count w' = reader_count editor_connected ∧
    event_queue w' = [] ∧
    on_display wl_display_prepare_read w' = Ok (0, prepared w').
Proof.
  eapply (read_events_no_data editor_connected 5%positive 2).
  - reflexivity.
  - vm_compute. reflexivity.
  - reflexivity.
  - lia.
  - vm_compute. reflexivity.
  - vm_compute. reflexivity.
Defined.

(** C4 at the initial state: announce, close, announce again. *)
Lemma registry_identities_unique_witness :
  ∃ w' ls',
    exec (deliver [manager_toplevel 3%positive 4%positive;
                   handle_closed 1%positive 4%positive;
                   manager_toplevel 3%positive 8%positive]) initial_world = Ok w' ∧
    wf w' ls' ∧ unique_identities w' ls'.
Proof.
  destruct (registry_identities_unique
              [manager_toplevel 3%positive 4%positive;
               handle_closed 1%positive 4%positive;
               manager_toplevel 3%positive 8%positive] initial_world [] wf_initial)
    as (_ & w' & ls' & E & Hwf & Hu & _).
  - simpl. split; [left; by intros ?%elem_of_empty|].
    intros w1 E1. vm_compute in E1. injection E1 as <-.
    split; [right; split; [by left|by vm_compute]|].
    intros w2 E2. vm_compute in E2. injection E2 as <-.
    split; [left; by intros ?%elem_of_empty|]. done.
  - by exists w', ls'.
Defined.

(** C5 at the state with one announced toplevel, and at the initial state
    (cleanup without init). *)
Lemma cleanup_idempotent_witness :
  (∃ w1, exec wlr_toplevel_cleanup one_toplevel = Ok w1 ∧ cleared w1 ∧
         recs w1 !! 1%positive = None ∧ (4%positive ∉ objects w1) ∧
         exec wlr_toplevel_cleanup w1 = Ok w1) ∧
  exec wlr_toplevel_cleanup initial_world = Ok initial_world.
Proof.
  split.
  - destruct (cleanup_idempotent one_toplevel [1%positive] wf_one_toplevel)
      as (w1 & E & Hc & Hr & _ & Ho & _ & _ & E' & _).
    exists w1. split; [done|]. split; [done|].
    split; [apply Hr; by left|]. split; [|done].
    eapply (Ho 1%positive); [by left| |]; reflexivity.
  - destruct (cleanup_idempotent initial_world [] wf_initial) as (w1 & E & _).
    reflexivity.
Defined.

(** C6 at [editor_world]. *)
Lemma field_replace_latest_witness :
  ∃ w2 p,
    exec (toplevel_handle_title 1%positive 4%positive (Some "a"%string) ;;
          toplevel_handle_title 1%positive 4%positive (Some "b"%string))
      editor_world = Ok w2 ∧
    recs w2 !! 1%positive = Some (with_title (Some p) editor_record) ∧
    text_at w2 (Some p) = Some "b"%string ∧
    strs w2 = <[p := "b"%string]> {[1%positive := "editor"%string]}.
Proof.
  destruct (field_replace_latest editor_world 1%positive 4%positive editor_record
              "a" "b") as ((w2 & p & E & Hr & Ht & _ & Hs) & _).
  - reflexivity.
  - simpl. eexists. reflexivity.
  - simpl. eexists. reflexivity.
  - exists w2, p. split; [done|]. split; [done|]. split; [done|].
    rewrite Hs. f_equal.
Defined.

(** C7 at [editor_world]: the first activated state. *)
Lemma callback_arguments_witness :
  ∃ w' new,
    exec (dispatch_event (handle_state 1%positive 4%positive [2])) editor_world = Ok w' ∧
    trace w' = trace editor_world ++ new ∧
    new = [Notify 9%positive "editor" "draft.txt" 1] ∧
    ∀ cb a b f, Notify cb a b f ∈ new →
      ∃ data hdl entries r,
        handle_state 1%positive 4%positive [2] = handle_state data hdl entries ∧
        simple_callback w' = Some cb ∧ recs w' !! data = Some r ∧
        a = shown w' (app_id r) ∧ b = shown w' (title r) ∧
        f = focused r ∧ f = 1.
Proof.
  pose proof (callback_arguments (H:=wlr_protocol_v1)
                (handle_state 1%positive 4%positive [2]) editor_world) as Hthm.
  eexists. edestruct Hthm as (new & Htr & Hnew); [vm_compute; reflexivity|].
  exists new. split; [reflexivity|]. split; [exact Htr|].
  split; [|exact Hnew].
  exact (eq_sym Htr).
Defined.

(** C8 at the state with one announced toplevel, closed before any
    [done]. *)
Lemma closed_releases_record_witness :
  ∃ w',
    exec (toplevel_handle_closed 1%positive 4%positive) one_toplevel = Ok w' ∧
    wf w' [] ∧ recs w' !! 1%positive = None ∧ objects w' = ∅.
Proof.
  destruct (closed_releases_record one_toplevel [1%positive] 1%positive
              (mk_toplevel_handle (Some 4%positive) None None 0 None) 4%positive
              wf_one_toplevel)
    as (w' & E & Hwf & _ & _ & Hr & _ & _ & Ho & _).
  - by left.
  - reflexivity.
  - reflexivity.
  - exists w'. split; [done|]. split; [exact Hwf|]. split; [done|].
    rewrite Ho. reflexivity.
Defined.

(** C9 with the two library calls of this model, the length of the queue
    as the pending work, at [editor_connected]. *)
Lemma prepare_read_loop_terminates_witness :
  match prepare_read_loop (on_display wl_display_prepare_read)
          (on_display wl_display_dispatch_pending) 3 editor_connected with
  | Ok (_, w') => ∃ w0, on_display wl_display_prepare_read w0 = Ok (0, w')
  | Fault e =>
      ∃ w0, on_display wl_display_prepare_read w0 = Fault e ∨
            on_display wl_display_dispatch_pending w0 = Fault e
  | OutOfFuel =>
      ∃ w0, on_display wl_display_prepare_read w0 = OutOfFuel ∨
            on_display wl_display_dispatch_pending w0 = OutOfFuel
  end.
Proof.
  apply (prepare_read_loop_terminates (on_display wl_display_prepare_read)
           (on_display wl_display_dispatch_pending) (λ w, length (event_queue w))).
  - intros w r w1 E Hr. destruct (prepare_read_refused w r w1 E Hr) as [Hpos Hq].
    split; [done|]. by rewrite Hq.
  - intros w n w1 E Hpos.
    destruct (dispatch_pending_spec w n w1 E) as (_ & _ & _ & Hq & _).
    rewrite Hq. simpl. lia.
  - simpl. lia.
Defined.

(** C10 at the initial state. *)
Lemma read_events_disconnected_witness :
  wlr_toplevel_read_events 5 initial_world = Ok (tt, initial_world).
Proof. apply (read_events_disconnected 5 initial_world). reflexivity. Defined.

End Examples.

(** * Further properties of the module

    The listeners as a whole, the bootstrap, the dispatch and descriptor
    entry points, the callback slot, the life of one toplevel, and what
    teardown leaves alone. *)

(** ** What well-formedness depends on *)

Lemma wf_ext w w' ls :
  recs w' = recs w → strs w' = strs w → objects w' = objects w →
  toplevels w' = toplevels w → toplevel_manager w' = toplevel_manager w →
  registry w' = registry w → display w' = display w →
  wf w ls → wf w' ls.
Proof.
  intros Hr Hs Ho Ht Hm Hg Hd [H1 H2 H3 H4 H5 H6 H7 H8 H9].
  assert (Hst : static_objects w' = static_objects w)
    by (unfold static_objects; congruence).
  split; rewrite ?Hr, ?Hs, ?Ho, ?Ht, ?Hst; done.
Qed.

Section Listeners.
Context `{ProtocolHeader}.

(** X1.  In a well-formed state, every event the library can deliver
    (any of the twelve events of the three listener tables, addressed to
    a record of the registry, to the bound manager or to a live registry
    proxy) is handled without fault and leaves the state well formed; the
    listener writes none of [display], [registry], the callback slot, the
    queue, the read intents and the socket, and makes no call that
    waits. *)
Theorem listeners_keep_invariant w ls e :
  wf w ls → well_addressed w ls e →
  ∃ w',
    exec (dispatch_event e) w = Ok w' ∧
    wf w' (registry_after w ls e) ∧
    same_connection w w' ∧ unblocked w w'.
Proof.
  intros Hwf Hev.
  destruct (wf_dispatch_event w ls e Hwf Hev) as (w' & E & Hwf').
  exists w'. split; [done|]. split; [done|].
  unfold exec in E.
  destruct (dispatch_event e w) as [[[] w1]| |] eqn:E1; [|done..].
  injection E as ->. split.
  - exact (respects_dispatch_event same_connection e w tt w' E1).
  - exact (respects_dispatch_event unblocked e w tt w' E1).
Qed.

(** The library's dispatch of a queue of deliverable events. *)
Lemma dispatch_queue_delivered evs : ∀ w ls Q,
  wf w ls → delivered evs w ls Q →
  ∃ w' ls',
    dispatch_queue evs w = Ok (Z.of_nat (length evs), w') ∧
    wf w' ls' ∧ Q w' ls' ∧
    registry w' = registry w ∧ simple_callback w' = simple_callback w.
Proof.
  induction evs as [|e rest IH]; intros w ls Q Hwf Hd.
  - exists w, ls. done.
  - destruct Hd as [Hev Hrest].
    destruct (wf_dispatch_event (set_event_queue rest w) ls e) as (w1 & E1 & Hwf1).
    { by eapply wf_ext; [..|exact Hwf]. }
    { by destruct e. }
    specialize (Hrest w1 E1).
    destruct (IH w1 _ Q Hwf1 Hrest) as (w2 & ls2 & E2 & Hwf2 & HQ & Hreg & Hcb).
    unfold exec in E1.
    destruct (dispatch_event e (set_event_queue rest w)) as [[[] w1']| |] eqn:E1';
      [|done..].
    injection E1 as ->.
    destruct (respects_dispatch_event same_connection _ _ _ _ E1')
      as (_ & Hr1 & Hc1 & _).
    exists w2, ls2. split; [|by rewrite Hreg, Hcb].
    cbn [dispatch_queue]. unfold bind at 1, modify at 1.
    run_step E1'. run_step E2. unfold ret. do 2 f_equal.
    cbn [length]. lia.
Qed.

(** [wl_display_dispatch_pending] on a queue of deliverable events. *)
Lemma dispatch_pending_delivered w ls d Q :
  wf w ls → display w = Some d →
  delivered (event_queue w) (dispatching w) ls Q →
  ∃ n w1 ls1 new,
    on_display wl_display_dispatch_pending w = Ok (n, w1) ∧ 0 ≤ n ∧
    wf w1 ls1 ∧ Q w1 ls1 ∧
    display w1 = Some d ∧ d ∈ objects w1 ∧
    registry w1 = registry w ∧ simple_callback w1 = simple_callback w ∧
    reader_count w1 = reader_count w ∧ socket_in w1 = socket_in w ∧
    event_queue w1 = [] ∧
    trace w1 = trace w ++ [Lib call_display_dispatch_pending] ++ new ∧
    Forall (λ e, may_block e = false) new.
Proof.
  intros Hwf Hd Hq.
  assert (Hl : d ∈ objects w).
  { apply (wf_statics_live _ _ Hwf). unfold static_objects. rewrite Hd.
    rewrite !elem_of_app. right. right. by left. }
  destruct (dispatch_queue_delivered (event_queue w) (dispatching w) ls Q)
    as (w1 & ls1 & E & Hwf1 & HQ & Hreg & Hcb); [|done|].
  { by eapply wf_ext; [..|exact Hwf]. }
  assert (Epend : on_display wl_display_dispatch_pending w =
                  Ok (Z.of_nat (length (event_queue w)), w1)).
  { unfold on_display, wl_display_dispatch_pending. unfold_cmd. simpl.
    rewrite Hd. simpl. rewrite decide_True by done. simpl. exact E. }
  destruct (dispatch_queue_spec _ _ _ _ E) as (Hd1 & Hr1 & Hs1 & _ & (new & Htr & Hnew)).
  destruct (dispatch_pending_spec _ _ _ Epend) as (_ & _ & _ & Hq1 & _).
  simpl in *. rewrite Hd in Hd1.
  exists (Z.of_nat (length (event_queue w))), w1, ls1, new.
  split; [done|]. split; [lia|]. split; [done|]. split; [done|].
  split; [done|]. split.
  { apply (wf_statics_live _ _ Hwf1). unfold static_objects. rewrite Hd1.
    rewrite !elem_of_app. right. right. by left. }
  repeat split; try done. by rewrite Htr, <- app_assoc.
Qed.

(** X2.  Connected, in a well-formed state whose queued events are ones
    the library can deliver, and the transport not failing:
    [wlr_toplevel_dispatch] returns 1; every
    queued event was handed to its listener and the queue is empty; the
    state is well formed again; the socket and the read intents are as
    they were (nothing is read); the calls are
    [wl_display_dispatch_pending], what the listeners did (nothing that
    waits), and [wl_display_flush] last. *)
Theorem dispatch_connected w ls d :
  wf w ls → display w = Some d →
  delivered (event_queue w) (dispatching w) ls (λ _ _, True) →
  ∃ w' ls' new,
    wlr_toplevel_dispatch w = Ok (1, w') ∧ wf w' ls' ∧
    event_queue w' = [] ∧ socket_in w' = socket_in w ∧
    reader_count w' = reader_count w ∧ display w' = Some d ∧
    trace w' = trace w ++ [Lib call_display_dispatch_pending] ++ new ++
               [Lib call_display_flush] ∧
    Forall (λ e, may_block e = false) new.
Proof.
  intros Hwf Hd Hq.
  destruct (dispatch_pending_delivered w ls d _ Hwf Hd Hq)
    as (n & w1 & ls1 & new & E & Hn & Hwf1 & _ & Hd1 & Hl1 & _ & _ & Hr1 & Hs1 &
        Hq1 & Htr & Hnew).
  exists (set_trace (trace w1 ++ [Lib call_display_flush]) w1), ls1, new.
  split.
  { unfold wlr_toplevel_dispatch. unfold bind at 1, get at 1. rewrite Hd.
    run_step E. rewrite (proj2 (Z.leb_le 0 n) Hn).
    run_by ltac:(by apply (flush_connected _ d)). done. }
  split; [by eapply wf_ext; [..|exact Hwf1]|].
  simpl. repeat split; try done.
  rewrite Htr. by rewrite <- !app_assoc.
Qed.

End Listeners.

(** ** The callback slot ([wlr_toplevel_set_callback]) *)

Lemma exec_unit (m : cmd unit) w w' : exec m w = Ok w' → m w = Ok (tt, w').
Proof.
  unfold exec. destruct (m w) as [[[] w1]| |]; [|done..]. by intros [= ->].
Qed.

Section CallbackSlot.
Context `{ProtocolHeader}.

(** A [state] event that is no rising edge for a registered callback
    writes the flag and nothing else; the text pointers are not read. *)
Lemma state_event_no_call w data hdl entries r :
  recs w !! data = Some r →
  simple_callback w = None ∨ focused r ≠ 0 ∨ scan_activated entries = false →
  toplevel_handle_state data hdl entries w =
    Ok (tt, set_recs (<[data := with_focused (if scan_activated entries then 1 else 0) r]>
                        (recs w)) w).
Proof.
  intros Hr Hno. unfold toplevel_handle_state.
  run_step (load_run _ _ _ Hr). unfold bind at 1, store at 1. rewrite Hr.
  destruct (scan_activated entries) eqn:Hs, (focused r =? 0) eqn:Hf,
    (simple_callback w) as [cb|] eqn:Hcb;
    try (apply Z.eqb_eq in Hf; exfalso; by destruct Hno as [?|[?|?]]);
    unfold_cmd;
    repeat (progress (simpl; rewrite ?lookup_insert_eq, ?Hcb));
    unfold with_focused; simpl; by rewrite ?insert_insert_eq.
Qed.

Lemma state_events_no_call data hdl states : ∀ w r,
  recs w !! data = Some r →
  simple_callback w = None ∨
    (focused r ≠ 0 ∧ Forall (λ entries, scan_activated entries = true) states) →
  ∃ w' r',
    exec (deliver (handle_state data hdl <$> states)) w = Ok w' ∧
    trace w' = trace w ∧ simple_callback w' = simple_callback w ∧
    recs w' !! data = Some r' ∧
    focused r' = match last states with
                 | Some entries => if scan_activated entries then 1 else 0
                 | None => focused r
                 end.
Proof.
  induction states as [|entries rest IH]; intros w r Hr Hno.
  - by exists w, r.
  - set (r1 := with_focused (if scan_activated entries then 1 else 0) r).
    set (w1 := set_recs (<[data := r1]> (recs w)) w).
    assert (E1 : toplevel_handle_state data hdl entries w = Ok (tt, w1)).
    { apply state_event_no_call; [done|]. destruct Hno as [?|[? _]]; auto. }
    destruct (IH w1 r1) as (w' & r' & E & Htr & Hcb & Hr' & Hf).
    { apply lookup_insert_eq. }
    { destruct Hno as [?|[_ Hall]]; [by left|right].
      apply Forall_cons in Hall as [Hs Hall]. split; [|done].
      subst r1. by rewrite Hs. }
    exists w', r'. split; [|split; [done|split; [done|split; [done|]]]].
    + unfold exec in *. rewrite fmap_cons. cbn [deliver dispatch_event].
      by run_step E1.
    + rewrite Hf, last_cons. by destruct (last rest).
Qed.

(** X4.  On a live record, with no callback registered: [state] events
    only write the focus flag, whatever they carry; nothing is called and
    the text pointers are not read.  The focus is not reported later
    either: when the last of these events carried the activated entry and
    a callback is registered afterwards, the callback is not called as
    long as the [state] events that follow all carry the activated entry.
    A host that registers its callback after the window got the focus
    hears of it only once the focus was lost and gained again. *)
Theorem callback_set_late w data hdl r :
  recs w !! data = Some r → simple_callback w = None →
  (∀ states, ∃ w',
     exec (deliver (handle_state data hdl <$> states)) w = Ok w' ∧
     trace w' = trace w) ∧
  (∀ before entries cb after,
     scan_activated entries = true →
     Forall (λ entries, scan_activated entries = true) after →
     ∃ w',
       exec (deliver (handle_state data hdl <$> before ++ [entries]) ;;
             wlr_toplevel_set_callback (Some cb) ;;
             deliver (handle_state data hdl <$> after)) w = Ok w' ∧
       trace w' = trace w ∧ simple_callback w' = Some cb ∧
       focused <$> recs w' !! data = Some 1).
Proof.
  intros Hr Hcb. split.
  - intros states.
    destruct (state_events_no_call data hdl states w r Hr (or_introl Hcb))
      as (w' & _ & E & Htr & _).
    by exists w'.
  - intros before entries cb after Hs Hall.
    destruct (state_events_no_call data hdl (before ++ [entries]) w r Hr
                (or_introl Hcb)) as (w1 & r1 & E1 & Htr1 & _ & Hr1 & Hf1).
    rewrite last_snoc, Hs in Hf1.
    destruct (state_events_no_call data hdl after
                (set_simple_callback (Some cb) w1) r1 Hr1)
      as (w2 & r2 & E2 & Htr2 & Hcb2 & Hr2 & Hf2).
    { right. split; [by rewrite Hf1|done]. }
    exists w2. split; [|split; [by rewrite Htr2|split; [done|]]].
    + unfold exec at 1. run_step (exec_unit _ _ _ E1).
      unfold wlr_toplevel_set_callback. unfold bind at 1, modify at 1.
      exact E2.
    + rewrite Hr2. simpl. f_equal. rewrite Hf2.
      destruct (last after) as [e|] eqn:Hl; [|done].
      apply last_Some in Hl as (pre & ->).
      apply Forall_app in Hall as [_ Hall]. apply Forall_cons in Hall as [-> _]. done.
Qed.

End CallbackSlot.

(** ** What teardown releases, and what it leaves *)

Lemma free_str_inv p u w w' :
  free_str p w = Ok (u, w') → w' = set_strs (release p (strs w)) w.
Proof.
  destruct p as [l|]; simpl.
  - destruct (strs w !! l); [|done]. by intros [= <-].
  - intros [= <-]. by destruct w.
Qed.

Lemma free_handle_inv t u w w' :
  free_handle t w = Ok (u, w') → w' = set_recs (delete t (recs w)) w.
Proof. unfold free_handle. destruct (recs w !! t); [|done]. by intros [= <-]. Qed.

(** The loop of cleanup destroys no object but those of the records it
    walks over. *)
Lemma cleanup_loop_keeps ls : ∀ fuel p w u w' o,
  lseg (recs w) p ls None → NoDup ls →
  cleanup_loop fuel p w = Ok (u, w') →
  o ∈ objects w →
  (∀ l r, l ∈ ls → recs w !! l = Some r → handle r ≠ Some o) →
  o ∈ objects w'.
Proof.
  induction ls as [|l rest IH]; intros fuel p w u w' o Hseg Hnd E Ho Hne.
  - simpl in Hseg. subst p. destruct fuel; by apply ret_inv in E as [_ ->].
  - simpl in Hseg. destruct Hseg as (-> & r & Hr & Hrest).
    apply NoDup_cons in Hnd as [Hl Hnd].
    destruct fuel as [|fuel]; [done|]. cbn [cleanup_loop] in E.
    apply bind_inv in E as (r0 & w0 & E0 & E). apply load_inv in E0 as [Hr0 ->].
    rewrite Hr in Hr0. injection Hr0 as <-.
    apply bind_inv in E as ([] & wa & Ea & E). apply free_str_inv in Ea.
    apply bind_inv in E as ([] & wb & Eb & E). apply free_str_inv in Eb.
    apply bind_inv in E as ([] & wc & Ec & E).
    apply bind_inv in E as ([] & wd & Ed & E). apply free_handle_inv in Ed.
    assert (Hc : recs wc = recs w ∧ o ∈ objects wc).
    { subst wa wb. destruct (handle r) as [h|] eqn:Hh.
      - unfold zwlr_foreign_toplevel_handle_v1_destroy in Ec.
        apply bind_inv in Ec as ([] & we & Ee & Ec). apply modify_inv in Ee.
        apply destroy_object_inv in Ec as [_ ->]. subst we. simpl.
        split; [done|]. apply elem_of_difference. split; [done|].
        intros ->%elem_of_singleton. apply (Hne l r); [by left|done..].
      - apply ret_inv in Ec as [_ ->]. done. }
    destruct Hc as [Hrc Hoc]. subst wd.
    apply (IH fuel (next r) (set_recs (delete l (recs wc)) wc) u w' o); simpl; try done.
    + eapply lseg_agree; [|exact Hrest]. intros l' Hl'. rewrite Hrc.
      apply lookup_delete_ne. by intros <-.
    + intros l' r' Hl' Hr'. rewrite Hrc in Hr'.
      apply lookup_delete_Some in Hr' as [_ Hr']. apply (Hne l' r'); [by right|done].
Qed.

Section Teardown.
Context `{ProtocolHeader}.

(** Cleanup is its loop followed by the release of the statics, which
    destroys the objects behind them and no other. *)
Lemma cleanup_inv w u w' :
  wlr_toplevel_cleanup w = Ok (u, w') →
  ∃ w2,
    cleanup_loop (size (recs w)) (toplevels w) w = Ok (tt, w2) ∧
    ∀ o, o ∈ objects w' ↔ o ∈ objects w2 ∧ o ∉ static_objects w2.
Proof.
  unfold wlr_toplevel_cleanup, zwlr_foreign_toplevel_manager_v1_destroy,
    wl_registry_destroy, wl_display_disconnect, static_objects.
  intros E. apply bind_inv in E as (t & w0 & E0 & E). apply get_inv in E0 as [-> ->].
  apply bind_inv in E as (n & w0 & E0 & E). apply get_inv in E0 as [-> ->].
  apply bind_inv in E as ([] & w2 & E2 & E). exists w2. split; [done|].
  cmd_inv;
    repeat match goal with
    | H : destroy_object _ _ = Ok _ |- _ => apply destroy_object_inv in H as [? ->]
    end; simpl in *;
    repeat match goal with H : _ = Some _ |- _ => rewrite H end;
    repeat match goal with H : _ = None |- _ => rewrite H end;
    intros o; simpl;
    rewrite ?elem_of_difference, ?elem_of_singleton, ?elem_of_cons, ?elem_of_nil;
    intuition congruence.
Qed.

(** The objects alive after the cleanup of a well-formed state. *)
Lemma cleanup_objects w ls :
  wf w ls →
  ∃ w',
    wlr_toplevel_cleanup w = Ok (tt, w') ∧
    ∀ o, o ∈ objects w' ↔
         o ∈ objects w ∧ (o ∉ static_objects w) ∧
         ∀ l r, l ∈ ls → recs w !! l = Some r → handle r ≠ Some o.
Proof.
  intros Hwf.
  destruct (cleanup_spec w ls Hwf) as (w' & E & _).
  exists w'. split; [done|].
  destruct (cleanup_inv _ _ _ E) as (w2 & E2 & Hobj).
  pose proof (lseg_length _ _ _ _ (wf_list _ _ Hwf) (wf_nodup _ _ Hwf)) as Hlen.
  destruct (cleanup_loop_spec ls w (toplevels w) (size (recs w)) (wf_own_head _ _ Hwf) Hlen)
    as (w2' & E2' & _ & _ & Hsub & _ & _ & Hhgone & _ & _ & _ & Hman & Hreg & Hdis & _).
  rewrite E2 in E2'. injection E2' as <-.
  assert (Hst : static_objects w2 = static_objects w)
    by (unfold static_objects; congruence).
  intros o. rewrite Hobj, Hst. split.
  - intros [Ho Hns]. split; [by apply Hsub|]. split; [done|].
    intros l r Hl Hr Hh. by apply (Hhgone l r o Hl Hr Hh).
  - intros (Ho & Hns & Hnh). split; [|done].
    eapply (cleanup_loop_keeps ls); [apply (wf_list _ _ Hwf)|apply (wf_nodup _ _ Hwf)|
                                     exact E2|done|done].
Qed.

(** X5.  Cleanup of a well-formed state destroys exactly the library
    objects the module owns, the protocol objects of the records in the
    registry and the objects behind [toplevel_manager], [registry] and
    [display]: every other live object is alive afterwards, and no object
    is alive afterwards that was not before. *)
Theorem cleanup_destroys_owned_only w ls :
  wf w ls →
  ∃ w',
    exec wlr_toplevel_cleanup w = Ok w' ∧
    ∀ o, o ∈ objects w' ↔
         o ∈ objects w ∧ (o ∉ static_objects w) ∧
         ∀ l r, l ∈ ls → recs w !! l = Some r → handle r ≠ Some o.
Proof.
  intros Hwf. destruct (cleanup_objects w ls Hwf) as (w' & E & Hobj).
  exists w'. unfold exec. by rewrite E.
Qed.

(** X6.  The [finished] event for the bound manager, in a well-formed
    state: the manager is destroyed and [toplevel_manager] is NULL; the
    records stay in the registry and the state stays well formed.  The
    cleanup that follows succeeds and does not destroy the manager a
    second time. *)
Theorem finished_then_cleanup w ls m :
  wf w ls → toplevel_manager w = Some m →
  ∃ w1 w2 rest,
    exec (toplevel_manager_handle_finished m) w = Ok w1 ∧
    wf w1 ls ∧ toplevel_manager w1 = None ∧ (m ∉ objects w1) ∧
    recs w1 = recs w ∧ toplevels w1 = toplevels w ∧
    trace w1 = trace w ++ [Lib (call_manager_destroy m)] ∧
    exec wlr_toplevel_cleanup w1 = Ok w2 ∧
    trace w2 = trace w1 ++ rest ∧ (Lib (call_manager_destroy m) ∉ rest).
Proof.
  intros Hwf Hm.
  destruct (wf_finished w ls m Hwf Hm) as (w1 & E1 & Hwf1).
  assert (Hlive : m ∈ objects w).
  { apply (wf_statics_live _ _ Hwf). unfold static_objects. rewrite Hm. by left. }
  pose proof E1 as E1'. unfold toplevel_manager_handle_finished in E1'.
  rewrite (bind_ok _ _ _ _ _ (manager_destroy_run w m Hlive)) in E1'.
  apply modify_inv in E1'.
  destruct (cleanup_spec w1 ls Hwf1) as (w2 & E2 & _ & _ & _ & _ & hs & _ & Htr).
  exists w1, w2, (((λ h, Lib (call_handle_destroy h)) <$> hs) ++ static_releases w1).
  unfold exec. rewrite E1, E2. split; [done|]. split; [done|].
  clear Hwf1 E1 E2. subst w1. simpl in *. repeat split; try done.
  - rewrite elem_of_difference, elem_of_singleton. tauto.
  - intros [(h & ? & _)%list_elem_of_fmap|Hin]%elem_of_app; [done|].
    unfold static_releases in Hin. simpl in Hin.
    destruct (registry w), (display w); simpl in Hin;
      rewrite ?elem_of_cons, ?elem_of_nil in Hin; intuition congruence.
Qed.

End Teardown.

(** ** Binding the manager ([registry_handle_global]) *)

Section Bind.
Context `{ProtocolHeader}.

(** X7.  A global with the manager's interface name, announced on a
    live registry proxy in a well-formed state: the manager is bound at
    version 3, whatever version the compositor advertised; the new proxy
    is a new live object, [toplevel_manager] points to it, and the state
    stays well formed.  A manager that was bound before is neither
    destroyed nor remembered: it is still alive, no static points to it,
    and it is still alive after cleanup, which destroys the new one
    only. *)
Theorem manager_global_rebinds w ls r name version :
  wf w ls → r ∈ objects w →
  ∃ w1 w2 m1,
    exec (registry_handle_global r name
            zwlr_foreign_toplevel_manager_v1_interface_name version) w = Ok w1 ∧
    wf w1 ls ∧
    toplevel_manager w1 = Some m1 ∧ (m1 ∉ objects w) ∧ m1 ∈ objects w1 ∧
    trace w1 = trace w ++ [Lib (call_registry_bind r name 3);
                           Lib (call_manager_add_listener m1)] ∧
    exec wlr_toplevel_cleanup w1 = Ok w2 ∧ (m1 ∉ objects w2) ∧
    ∀ m0, toplevel_manager w = Some m0 →
      m0 ≠ m1 ∧ m0 ∈ objects w1 ∧ (m0 ∉ static_objects w1) ∧ m0 ∈ objects w2.
Proof.
  intros Hwf Hr.
  destruct (wf_global w ls r name zwlr_foreign_toplevel_manager_v1_interface_name
              version Hwf Hr) as (w1 & E1 & Hwf1).
  destruct (cleanup_objects w1 ls Hwf1) as (w2 & E2 & Hobj).
  set (m1 := fresh (objects w)).
  assert (Hm1 : m1 ∉ objects w) by apply is_fresh.
  exists w1, w2, m1. unfold exec. rewrite E1, E2.
  split; [done|]. split; [done|].
  unfold registry_handle_global in E1. rewrite String.eqb_refl in E1.
  unfold wl_registry_bind, zwlr_foreign_toplevel_manager_v1_add_listener in E1.
  unfold_cmd.
  repeat (progress (simpl in E1; fold m1 in E1;
    rewrite ?decide_True in E1
      by first [done | apply elem_of_union_l; by apply elem_of_singleton])).
  injection E1 as E1.
  assert (Htm : toplevel_manager w1 = Some m1) by (by rewrite <- E1).
  assert (Hob : objects w1 = {[m1]} ∪ objects w) by (by rewrite <- E1).
  assert (Hrc : recs w1 = recs w) by (by rewrite <- E1).
  assert (Htr : trace w1 = trace w ++ [Lib (call_registry_bind r name 3);
                                       Lib (call_manager_add_listener m1)])
    by (rewrite <- E1; simpl; by rewrite <- app_assoc).
  assert (Hst : static_objects w1 =
                m1 :: option_list (registry w) ++ option_list (display w))
    by (by rewrite <- E1).
  clear E1.
  split; [done|]. split; [done|].
  split; [rewrite Hob; apply elem_of_union_l; by apply elem_of_singleton|].
  split; [done|]. split; [done|].
  split.
  { rewrite Hobj. intros (_ & Hns & _). apply Hns. rewrite Hst. by left. }
  intros m0 Hm0.
  pose proof (wf_statics_nodup _ _ Hwf) as Hnd.
  pose proof (wf_statics_live _ _ Hwf) as Hlive.
  unfold static_objects in Hnd, Hlive. rewrite Hm0 in Hnd, Hlive. simpl in Hnd, Hlive.
  apply NoDup_cons in Hnd as [Hm0n _].
  assert (Hm0l : m0 ∈ objects w) by (apply Hlive; by left).
  assert (Hne : m0 ≠ m1) by (by intros ->).
  assert (Hns : m0 ∉ static_objects w1).
  { rewrite Hst. by intros [?|?]%elem_of_cons. }
  split; [done|]. split; [rewrite Hob; by apply elem_of_union_r|]. split; [done|].
  rewrite Hobj. split; [rewrite Hob; by apply elem_of_union_r|]. split; [done|].
  intros l r0 Hl Hr0 Hh. rewrite Hrc in Hr0.
  destruct (wf_handle_live _ _ Hwf l r0 m0 Hl Hr0 Hh) as [_ Hno].
  apply Hno. unfold static_objects. rewrite Hm0. by left.
Qed.

End Bind.

(** ** Bootstrap ([wlr_toplevel_init]) *)

Section Bootstrap.
Context `{ProtocolHeader}.

(** With the compositor reachable, init is what it does from the dispatch
    of the first round trip on, run in [bootstrapped]. *)
Lemma init_reachable env w :
  reachable env = true →
  wlr_toplevel_init env w =
    (dispatch_queue (first_roundtrip env) ;;
     m ← get toplevel_manager ;
     match m with
     | None =>
         r ← get registry ;
         match r with
         | None => fail NullDereference
         | Some r => wl_registry_destroy r
         end ;;
         on_display wl_display_disconnect ;;
         modify (set_display None) ;;
         ret 0
     | Some _ =>
         on_display (wl_display_roundtrip (second_roundtrip env)) ;;
         ret 1
     end)%cmd (bootstrapped env w).
Proof.
  intros Hreach. unfold wlr_toplevel_init, bootstrapped.
  set (d := fresh (objects w)). set (r := fresh ({[d]} ∪ objects w)).
  unfold wl_display_connect, wl_display_get_registry, wl_registry_add_listener,
    wl_display_roundtrip.
  rewrite Hreach. unfold_cmd.
  repeat (progress (simpl; fold d; fold r;
    rewrite ?decide_True
      by first [ apply elem_of_union_l; by apply elem_of_singleton
               | apply elem_of_union_r, elem_of_union_l; by apply elem_of_singleton ])).
  by rewrite <- !app_assoc.
Qed.

Lemma wf_bootstrapped env w ls : wf_offline w ls → wf (bootstrapped env w) ls.
Proof.
  intros Hoff. unfold bootstrapped.
  set (d := fresh (objects w)). set (r := fresh ({[d]} ∪ objects w)).
  assert (Hd : d ∉ objects w) by apply is_fresh.
  assert (Hr : r ∉ {[d]} ∪ objects w) by apply is_fresh.
  apply not_elem_of_union in Hr as [Hrd Hr]. rewrite elem_of_singleton in Hrd.
  pose proof (wf_statics_nodup _ _ Hoff) as Hnd.
  pose proof (wf_statics_live _ _ Hoff) as Hlive.
  unfold static_objects in Hnd, Hlive. simpl in Hnd, Hlive.
  rewrite app_nil_r in Hnd, Hlive.
  split; simpl; try apply Hoff.
  - intros l r0 h Hl Hr0 Hh.
    destruct (wf_handle_live _ _ Hoff l r0 h Hl Hr0 Hh) as [Hin Hns].
    simpl in Hin, Hns. unfold static_objects in Hns. simpl in Hns.
    rewrite app_nil_r in Hns.
    split; [by apply elem_of_union_r, elem_of_union_r|].
    unfold static_objects. simpl.
    rewrite elem_of_app, elem_of_cons, list_elem_of_singleton.
    intros [?|[->| ->]]; done.
  - unfold static_objects. simpl. apply NoDup_app. split; [done|]. split.
    + intros o Ho. apply Hlive in Ho.
      rewrite elem_of_cons, list_elem_of_singleton. intros [->| ->]; done.
    + apply NoDup_cons. split; [by rewrite list_elem_of_singleton|].
      apply NoDup_singleton.
  - unfold static_objects. simpl. intros o.
    rewrite elem_of_app, elem_of_cons, list_elem_of_singleton.
    rewrite !elem_of_union, !elem_of_singleton. intros [Ho|[->| ->]]; auto.
Qed.

Lemma on_display_run {A} (f : loc → cmd A) w d :
  display w = Some d → on_display f w = f d w.
Proof. intros Hd. unfold on_display, bind, get. by rewrite Hd. Qed.

(** A round trip dispatches the queue followed by what arrived. *)
Lemma roundtrip_run arrived w d :
  display w = Some d → d ∈ objects w →
  on_display (wl_display_roundtrip arrived) w =
    dispatch_queue (event_queue w ++ arrived)
      (set_event_queue (event_queue w ++ arrived)
         (set_trace (trace w ++ [Lib call_display_roundtrip]) w)).
Proof.
  intros Hd Hl. unfold on_display, wl_display_roundtrip. unfold_cmd. simpl.
  rewrite Hd. simpl. by rewrite decide_True.
Qed.

Lemma roundtrip_display arrived w n w' :
  on_display (wl_display_roundtrip arrived) w = Ok (n, w') →
  display w' = display w ∧ is_Some (display w).
Proof.
  unfold on_display, wl_display_roundtrip. intros E. cmd_inv; [|done].
  match goal with H : use_object _ _ = Ok _ |- _ =>
    apply use_object_inv in H as [_ ->] end.
  match goal with H : dispatch_queue _ _ = Ok _ |- _ =>
    apply dispatch_queue_spec in H as (Hd & _) end.
  simpl in Hd. split; [congruence|]. by eexists.
Qed.

Lemma static_live_display w ls d : wf w ls → display w = Some d → d ∈ objects w.
Proof.
  intros Hwf Hd. apply (wf_statics_live _ _ Hwf). unfold static_objects.
  rewrite Hd, !elem_of_app. right. right. by left.
Qed.

Lemma static_live_registry w ls r : wf w ls → registry w = Some r → r ∈ objects w.
Proof.
  intros Hwf Hr. apply (wf_statics_live _ _ Hwf). unfold static_objects.
  rewrite Hr, !elem_of_app. right. left. by left.
Qed.

(** X8.  Init in a state that is well formed apart from [display] and
    [registry] (the initial state, the state after cleanup, the state a
    failed init left), with the compositor reachable and the events of
    the two round trips ones the library can deliver where they are
    dispatched.  Init returns.  Either it returns 1, in a well-formed
    state with [display] and [registry] set and the queue empty; or, no
    manager being bound after the first round trip, it returns 0 with
    [display] and [toplevel_manager] NULL, in a state from which init can
    be called again, though [registry] is not reset and points to the
    proxy that was destroyed. *)
Theorem init_outcome env w ls :
  wf_offline w ls → reachable env = true →
  delivered (first_roundtrip env) (bootstrapped env w) ls
    (λ w1 ls1, is_Some (toplevel_manager w1) →
       delivered (second_roundtrip env) (second_trip env w1) ls1 (λ _ _, True)) →
  ∃ r w' ls',
    wlr_toplevel_init env w = Ok (r, w') ∧
    ((r = 1 ∧ wf w' ls' ∧ is_Some (display w') ∧ is_Some (registry w') ∧
      event_queue w' = []) ∨
     (r = 0 ∧ display w' = None ∧ toplevel_manager w' = None ∧ wf_offline w' ls' ∧
      ∃ rg, registry w' = Some rg ∧ rg ∉ objects w')).
Proof.
  intros Hoff Hreach Hdel. rewrite (init_reachable env w Hreach).
  destruct (dispatch_queue_delivered _ _ _ _ (wf_bootstrapped env w ls Hoff) Hdel)
    as (w1 & ls1 & E1 & Hwf1 & HQ & Hreg1 & _).
  destruct (dispatch_queue_spec _ _ _ _ E1) as (Hd1 & _ & _ & Hq1 & _).
  simpl in Hreg1, Hd1, Hq1.
  set (d := fresh (objects w)) in *. set (r := fresh ({[d]} ∪ objects w)) in *.
  assert (Hq1' : event_queue w1 = []) by (rewrite Hq1; by destruct (first_roundtrip env)).
  pose proof (static_live_display _ _ _ Hwf1 Hd1) as Hdl.
  pose proof (static_live_registry _ _ _ Hwf1 Hreg1) as Hrl.
  run_step E1. unfold bind at 1, get at 1.
  destruct (toplevel_manager w1) as [m|] eqn:Hm.
  - assert (E2 : on_display (wl_display_roundtrip (second_roundtrip env)) w1 =
                 dispatch_queue (second_roundtrip env) (second_trip env w1)).
    { rewrite (roundtrip_run _ w1 d Hd1 Hdl). unfold second_trip.
      by rewrite Hq1'. }
    destruct (dispatch_queue_delivered (second_roundtrip env) (second_trip env w1)
                ls1 (λ _ _, True)) as (w2 & ls2 & E3 & Hwf2 & _ & Hreg2 & _).
    { by eapply wf_ext; [..|exact Hwf1]. }
    { apply HQ. by eexists. }
    destruct (dispatch_queue_spec _ _ _ _ E3) as (Hd2 & _ & _ & Hq2 & _).
    simpl in Hreg2, Hd2, Hq2. rewrite E3 in E2. run_step E2.
    exists 1, w2, ls2. split; [done|]. left.
    split; [done|]. split; [done|].
    split; [rewrite Hd2, Hd1; by eexists|].
    split; [rewrite Hreg2, Hreg1; by eexists|].
    rewrite Hq2. destruct (second_roundtrip env); [|done].
    by rewrite Hq1', app_nil_r.
  - pose proof (wf_statics_nodup _ _ Hwf1) as Hnd. unfold static_objects in Hnd.
    rewrite Hm, Hreg1, Hd1 in Hnd. simpl in Hnd.
    apply NoDup_cons in Hnd as [Hrd _]. rewrite list_elem_of_singleton in Hrd.
    unfold bind at 1, get at 1. rewrite Hreg1.
    run_by ltac:(by apply registry_destroy_run).
    run_by ltac:(rewrite (on_display_run _ _ d) by done;
                 apply display_disconnect_run; simpl;
                 rewrite elem_of_difference, elem_of_singleton; by split).
    unfold bind at 1, modify at 1. unfold ret.
    eexists 0, _, ls1. split; [reflexivity|]. right. simpl.
    split; [done|]. split; [done|]. split; [done|]. split.
    + apply (wf_shrink w1 _ ls1 ls1); simpl; try done.
      * apply (wf_list _ _ Hwf1).
      * apply (wf_nodup _ _ Hwf1).
      * intros l r0 h Hl Hr0 Hh.
        destruct (wf_handle_live _ _ Hwf1 l r0 h Hl Hr0 Hh) as [Hin Hns].
        unfold static_objects in Hns. rewrite Hm, Hreg1, Hd1 in Hns. simpl in Hns.
        rewrite !elem_of_difference, !elem_of_singleton.
        repeat split; [done|..]; intros ->; apply Hns;
          rewrite !elem_of_cons; auto.
      * unfold static_objects. simpl. rewrite Hm. apply NoDup_nil_2.
      * unfold static_objects. simpl. rewrite Hm. by intros o ?%elem_of_nil.
    + exists r. split; [done|].
      rewrite !elem_of_difference, !elem_of_singleton. tauto.
Qed.

(** What the result of init says about [display]. *)
Lemma init_returns env w r w' :
  wlr_toplevel_init env w = Ok (r, w') →
  (r = 1 ∧ is_Some (display w') ∧ reachable env = true) ∨
  (r = 0 ∧ display w' = None).
Proof.
  intros E. destruct (reachable env) eqn:Hreach.
  - rewrite (init_reachable env w Hreach) in E.
    apply bind_inv in E as (n & w1 & E1 & E).
    apply dispatch_queue_spec in E1 as (Hd1 & _).
    apply bind_inv in E as (m & w0 & E0 & E). apply get_inv in E0 as [-> ->].
    destruct (toplevel_manager w1).
    + apply bind_inv in E as (n2 & w2 & E2 & E). apply ret_inv in E as [-> ->].
      apply roundtrip_display in E2 as [Hd2 Hs]. left.
      split; [done|]. split; [by rewrite Hd2|done].
    + right. cmd_inv; done.
  - right. unfold wlr_toplevel_init, wl_display_connect in E.
    rewrite Hreach in E. unfold_cmd. simpl in E. by injection E as <- <-.
Qed.

(** X9.  Whatever the state and whatever arrives, when init returns it
    returns 1 or 0: 1 with [display] set, and only if the compositor was
    reached; 0 with [display] NULL.  When the compositor cannot be
    reached it returns 0 after the one call [wl_display_connect]: no
    object is created and no static but [display] is written. *)
Theorem init_result env w :
  (∀ r w', wlr_toplevel_init env w = Ok (r, w') →
     (r = 1 ∧ is_Some (display w') ∧ reachable env = true) ∨
     (r = 0 ∧ display w' = None)) ∧
  (reachable env = false →
     wlr_toplevel_init env w =
       Ok (0, set_display None (set_trace (trace w ++ [Lib call_display_connect]) w))).
Proof.
  split; [apply init_returns|].
  intros Hreach. unfold wlr_toplevel_init, wl_display_connect.
  rewrite Hreach. unfold_cmd. done.
Qed.

(** A queue of registry events none of which offers the manager: every
    listener returns at once. *)
Lemma dispatch_queue_no_manager evs : ∀ w,
  Forall offers_no_manager evs →
  dispatch_queue evs w =
    Ok (Z.of_nat (length evs),
        match evs with [] => w | _ :: _ => set_event_queue [] w end).
Proof.
  induction evs as [|e rest IH]; intros w Hall; [done|].
  apply Forall_cons in Hall as [He Hall].
  cbn [dispatch_queue]. unfold bind at 1, modify at 1.
  assert (Ee : ∀ w0, dispatch_event e w0 = Ok (tt, w0)).
  { intros w0. destruct e; simpl in He; try done. simpl.
    unfold registry_handle_global. apply String.eqb_neq in He. by rewrite He. }
  run_step (Ee (set_event_queue rest w)). run_step (IH (set_event_queue rest w) Hall).
  unfold ret. f_equal. f_equal; [cbn [length]; lia|]. by destruct rest.
Qed.

(** X13.  Init with no manager bound, the compositor reachable, and a
    first round trip that brings registry events only, none with the
    manager's interface name: whatever the state and however many globals
    are announced, init binds nothing and returns 0 after six library
    calls, the last two destroying the registry proxy and closing the
    connection.  [display] is NULL, the two objects it created are
    destroyed and the live objects, the records, the text blocks and the
    other statics are what they were; but [registry] is left pointing to
    the destroyed proxy. *)
Theorem init_without_manager env w :
  toplevel_manager w = None → reachable env = true →
  Forall offers_no_manager (first_roundtrip env) →
  let d := fresh (objects w) in
  let r := fresh ({[d]} ∪ objects w) in
  ∃ w',
    wlr_toplevel_init env w = Ok (0, w') ∧
    display w' = None ∧ toplevel_manager w' = None ∧
    registry w' = Some r ∧ (r ∉ objects w') ∧
    objects w' = objects w ∧ recs w' = recs w ∧ strs w' = strs w ∧
    toplevels w' = toplevels w ∧ simple_callback w' = simple_callback w ∧
    trace w' = trace w ++
      [Lib call_display_connect; Lib call_display_get_registry;
       Lib (call_registry_add_listener r); Lib call_display_roundtrip;
       Lib (call_registry_destroy r); Lib call_display_disconnect].
Proof.
  intros Hm Hreach Hall d r.
  assert (Hd : d ∉ objects w) by apply is_fresh.
  assert (Hr : r ∉ {[d]} ∪ objects w) by apply is_fresh.
  apply not_elem_of_union in Hr as [Hrd Hr]. rewrite elem_of_singleton in Hrd.
  rewrite (init_reachable env w Hreach).
  run_step (dispatch_queue_no_manager _ (bootstrapped env w) Hall).
  set (w1 := match first_roundtrip env with
             | [] => bootstrapped env w
             | _ :: _ => set_event_queue [] (bootstrapped env w)
             end).
  assert (Hw1 : toplevel_manager w1 = None ∧ registry w1 = Some r ∧
                display w1 = Some d ∧ objects w1 = {[r]} ∪ ({[d]} ∪ objects w) ∧
                recs w1 = recs w ∧ strs w1 = strs w ∧ toplevels w1 = toplevels w ∧
                simple_callback w1 = simple_callback w ∧
                trace w1 = trace w ++
                  [Lib call_display_connect; Lib call_display_get_registry;
                   Lib (call_registry_add_listener r); Lib call_display_roundtrip]).
  { subst w1. by destruct (first_roundtrip env). }
  destruct Hw1 as (Hm1 & Hr1 & Hd1 & Ho1 & Hrc1 & Hs1 & Ht1 & Hcb1 & Htr1).
  clearbody w1.
  unfold bind at 1, get at 1. rewrite Hm1.
  unfold bind at 1, get at 1. rewrite Hr1.
  run_by ltac:(apply registry_destroy_run; rewrite Ho1;
               apply elem_of_union_l; by apply elem_of_singleton).
  run_by ltac:(rewrite (on_display_run _ _ d) by done;
               apply display_disconnect_run; simpl; rewrite Ho1;
               rewrite !elem_of_difference, !elem_of_union, !elem_of_singleton;
               auto).
  unfold bind at 1, modify at 1. unfold ret.
  eexists. split; [reflexivity|]. simpl.
  split; [done|]. split; [done|]. split; [done|].
  split; [rewrite !elem_of_difference, elem_of_singleton; tauto|].
  split.
  { rewrite Ho1. apply set_eq. intros o.
    rewrite !elem_of_difference, !elem_of_union, !elem_of_singleton.
    split; [tauto|]. intros Ho. repeat split; [auto|by intros ->..]. }
  do 4 (split; [done|]). by rewrite Htr1, <- !app_assoc.
Qed.

End Bootstrap.

(** ** Reading from the socket ([wlr_toplevel_read_events]) *)

Section ReadData.
Context `{ProtocolHeader}.

Lemma poll_data w fd timeout :
  socket_in w ≠ [] →
  poll fd timeout w = Ok (1, set_trace (trace w ++ [Lib (call_poll timeout)]) w).
Proof. intros Hs. unfold poll. unfold_cmd. simpl. by destruct (socket_in w). Qed.

Lemma read_events_connected w d :
  display w = Some d → d ∈ objects w →
  on_display wl_display_read_events w =
    Ok (0, set_socket_in []
             (set_event_queue (event_queue w ++ socket_in w)
                (set_reader_count (Nat.pred (reader_count w))
                   (set_trace (trace w ++ [Lib call_display_read_events]) w)))).
Proof.
  intros Hd Hl. unfold on_display, wl_display_read_events. unfold_cmd. simpl.
  rewrite Hd. simpl. by rewrite decide_True.
Qed.

Lemma dispatch_pending_run w d :
  display w = Some d → d ∈ objects w →
  on_display wl_display_dispatch_pending w =
    dispatch_queue (event_queue w) (dispatching w).
Proof.
  intros Hd Hl. unfold on_display, wl_display_dispatch_pending. unfold_cmd. simpl.
  rewrite Hd. simpl. by rewrite decide_True.
Qed.

(** With an empty queue and data on the socket, the read sequence is the
    dispatch of what it read, run in [received]. *)
Lemma read_data_run w d fuel :
  display w = Some d → d ∈ objects w → event_queue w = [] → socket_in w ≠ [] →
  wlr_toplevel_read_events (S fuel) w =
    (dispatch_queue (socket_in w) ;; ret tt)%cmd (received w).
Proof.
  intros Hd Hl Hq Hs. unfold wlr_toplevel_read_events.
  assert (Eloop : prepare_read_loop (on_display wl_display_prepare_read)
                    (on_display wl_display_dispatch_pending) (S fuel) w =
                  Ok (tt, prepared w)).
  { cbn [prepare_read_loop]. by run_step (prepare_read_empty w d Hd Hl Hq). }
  unfold bind at 1, get at 1. rewrite Hd. run_step Eloop.
  run_by ltac:(by apply (flush_connected _ d)).
  run_by ltac:(by apply (get_fd_connected _ d)).
  run_by ltac:(by apply poll_data).
  change (0 <? 1) with true. cbv iota.
  run_by ltac:(by apply (read_events_connected _ d)).
  unfold bind. rewrite (dispatch_pending_run _ d) by done.
  unfold received, prepared, dispatching. destruct w; simpl in *; subst.
  by rewrite <- !app_assoc.
Qed.

(** X10.  Connected, in a well-formed state with an empty queue and
    data on the socket, the events on the socket being ones the library
    can deliver: the read sequence returns; it announced one read intent
    and retired it by reading (the number of intents is what it was); the
    socket is drained and every event read was handed to its listener, in
    the order of arrival, so the queue is empty again; the state is well
    formed.  The calls are the six of the sequence, the poll with timeout
    0, then what the listeners did, none of which waits. *)
Theorem read_events_data w ls d fuel :
  wf w ls → display w = Some d → event_queue w = [] → socket_in w ≠ [] →
  (1 ≤ fuel)%nat →
  delivered (socket_in w) (received w) ls (λ _ _, True) →
  ∃ w' ls' new,
    wlr_toplevel_read_events fuel w = Ok (tt, w') ∧ wf w' ls' ∧
    socket_in w' = [] ∧ event_queue w' = [] ∧
    reader_count w' = reader_count w ∧ display w' = Some d ∧
    trace w' = trace w ++
      [Lib call_display_prepare_read; Lib call_display_flush;
       Lib call_display_get_fd; Lib (call_poll 0);
       Lib call_display_read_events; Lib call_display_dispatch_pending] ++ new ∧
    Forall (λ e, may_block e = false) new.
Proof.
  intros Hwf Hd Hq Hs Hfuel Hdel.
  destruct fuel as [|fuel]; [lia|].
  rewrite (read_data_run w d fuel Hd (static_live_display _ _ _ Hwf Hd) Hq Hs).
  destruct (dispatch_queue_delivered (socket_in w) (received w) ls (λ _ _, True))
    as (w1 & ls1 & E & Hwf1 & _); [|done|].
  { by eapply wf_ext; [..|exact Hwf]. }
  destruct (dispatch_queue_spec _ _ _ _ E) as (Hd1 & Hr1 & Hs1 & Hq1 & (new & Htr & Hnew)).
  simpl in Hd1, Hr1, Hs1, Hq1, Htr.
  exists w1, ls1, new. run_step E.
  split; [done|]. split; [done|]. split; [done|].
  split; [rewrite Hq1; by destruct (socket_in w)|].
  split; [done|]. split; [congruence|]. split; [|done].
  by rewrite Htr, <- app_assoc.
Qed.

End ReadData.

(** ** Events for a record that is gone *)

(** The removal loop on a list that does not hold [t] walks to its end
    and changes nothing. *)
Lemma unlink_absent t : ∀ ls fuel pp w p,
  read_link pp w = Ok (p, w) → lseg (recs w) p ls None → t ∉ ls →
  (length ls < fuel)%nat →
  unlink fuel t pp w = Ok (tt, w).
Proof.
  induction ls as [|c rest IH]; intros fuel pp w p Hread Hseg Hnin Hfuel;
    (destruct fuel as [|fuel]; [simpl in Hfuel; lia|]); simpl in Hseg.
  - subst p. cbn [unlink]. by rewrite (bind_ok _ _ _ _ _ Hread).
  - destruct Hseg as (-> & rc & Hrc & Hseg).
    apply not_elem_of_cons in Hnin as [Hne Hnin].
    cbn [unlink]. rewrite (bind_ok _ _ _ _ _ Hread).
    rewrite decide_False by done.
    apply (IH fuel (link_next c) w (next rc)); try done.
    + by apply read_link_next.
    + simpl in Hfuel. lia.
Qed.

Section Stale.
Context `{ProtocolHeader}.

(** X11.  Once [closed] was handled for a record of a well-formed
    registry, the record is freed, and no listener checks for that: a
    [title], [app_id], [state] or second [closed] event that still
    carries the record as its user data reads the freed block (the
    second [closed] after a walk over the whole list that finds
    nothing), whatever protocol object it names; the four listeners with
    empty bodies return.  The module relies on the library to deliver no
    event for a destroyed proxy. *)
Theorem events_after_closed w ls t h :
  wf w ls → t ∈ ls → recs w !! t ≫= handle = Some h →
  ∃ w',
    exec (dispatch_event (handle_closed t h)) w = Ok w' ∧
    (∀ h' s, exec (dispatch_event (handle_title t h' s)) w' = Fault (UseAfterFree t)) ∧
    (∀ h' s, exec (dispatch_event (handle_app_id t h' s)) w' = Fault (UseAfterFree t)) ∧
    (∀ h' st, exec (dispatch_event (handle_state t h' st)) w' = Fault (UseAfterFree t)) ∧
    (∀ h', exec (dispatch_event (handle_closed t h')) w' = Fault (UseAfterFree t)) ∧
    (∀ h' o p,
       exec (dispatch_event (handle_done t h')) w' = Ok w' ∧
       exec (dispatch_event (handle_output_enter t h' o)) w' = Ok w' ∧
       exec (dispatch_event (handle_output_leave t h' o)) w' = Ok w' ∧
       exec (dispatch_event (handle_parent t h' p)) w' = Ok w').
Proof.
  intros Hwf Hin Hh.
  destruct (recs w !! t) as [rt|] eqn:Hrt; [|done]. simpl in Hh.
  pose proof (wf_nodup _ _ Hwf) as Hnd.
  apply list_elem_of_split in Hin as (pre & post & ->).
  destruct (closed_spec w pre t post rt h Hwf Hrt Hh) as (w' & E & Hwf' & Hgone & _).
  assert (Hnin : t ∉ pre ++ post).
  { apply NoDup_app in Hnd as (_ & Hdisj & Hnd). apply NoDup_cons in Hnd as [Hnt _].
    intros [Hl|Hl]%elem_of_app; [|done]. apply (Hdisj t Hl). by left. }
  exists w'. unfold exec. simpl. rewrite E.
  split; [done|].
  split; [intros h' s; unfold toplevel_handle_title, bind, load; by rewrite Hgone|].
  split; [intros h' s; unfold toplevel_handle_app_id, bind, load; by rewrite Hgone|].
  split; [intros h' st; unfold toplevel_handle_state, bind, load; by rewrite Hgone|].
  split; [|done].
  intros h'. unfold toplevel_handle_closed. unfold bind at 1, get at 1.
  pose proof (lseg_length _ _ _ _ (wf_list _ _ Hwf') (wf_nodup _ _ Hwf')) as Hlen.
  rewrite (bind_ok _ _ _ _ _ (unlink_absent t (pre ++ post) (S (size (recs w')))
                                link_toplevels w' (toplevels w') eq_refl
                                (wf_list _ _ Hwf') Hnin ltac:(lia))).
  unfold bind, load. by rewrite Hgone.
Qed.

End Stale.

(** ** The life of one toplevel *)

Lemma static_objects_manager w w' :
  static_objects w' = static_objects w → registry w' = registry w →
  display w' = display w → toplevel_manager w' = toplevel_manager w.
Proof.
  unfold static_objects. intros Hs Hr Hd. rewrite Hr, Hd in Hs.
  apply app_inv_tail in Hs.
  by destruct (toplevel_manager w'), (toplevel_manager w); simplify_eq.
Qed.

(** What replacing one text pointer of the tracked record does to the
    blocks that were there before the toplevel was announced (nothing)
    and to the others (they are the record's). *)
Lemma tracking_strings (S0 Sc : gmap loc string) (keep old : option loc)
    (text : option string) :
  let m0 := release old Sc in
  let S' := match text with Some s => <[fresh (dom m0) := s]> m0 | None => m0 end in
  let new := match text with Some _ => Some (fresh (dom m0)) | None => None end in
  (∀ p, is_Some (S0 !! p) → Sc !! p = S0 !! p ∧ keep ≠ Some p ∧ old ≠ Some p) →
  (∀ p, S0 !! p = None → is_Some (Sc !! p) → keep = Some p ∨ old = Some p) →
  (∀ p, is_Some (S0 !! p) → S' !! p = S0 !! p ∧ keep ≠ Some p ∧ new ≠ Some p) ∧
  (∀ p, S0 !! p = None → is_Some (S' !! p) → keep = Some p ∨ new = Some p).
Proof.
  intros m0 S' new H1 H2.
  assert (Hf : m0 !! fresh (dom m0) = None) by apply not_elem_of_dom, is_fresh.
  split.
  - intros p Hp. destruct (H1 p Hp) as (Hc & Hk & Ho).
    assert (Hm : m0 !! p = S0 !! p).
    { subst m0. by rewrite release_lookup_ne. }
    assert (Hne : fresh (dom m0) ≠ p).
    { intros Heq. rewrite Heq, Hm in Hf. rewrite Hf in Hp. by destruct Hp. }
    subst S' new. destruct text; [|done].
    rewrite lookup_insert_ne by done. split; [done|]. split; [done|congruence].
  - intros p Hp Hs. subst S' new.
    assert (Hm : is_Some (m0 !! p) → keep = Some p).
    { subst m0. intros Hm. destruct old as [q|]; simpl in Hm.
      - destruct (decide (q = p)) as [->|Hne]; [rewrite lookup_delete_eq in Hm; by destruct Hm|].
        rewrite lookup_delete_ne in Hm by done.
        destruct (H2 p Hp Hm) as [?|?]; [done|congruence].
      - destruct (H2 p Hp Hm) as [?|?]; done. }
    destruct text as [s|]; [|left; by apply Hm].
    destruct (decide (fresh (dom m0) = p)) as [->|Hne]; [by right|].
    rewrite lookup_insert_ne in Hs by done. left. by apply Hm.
Qed.

Lemma deliver_app `{ProtocolHeader} l1 l2 : ∀ w,
  deliver (l1 ++ l2) w = bind (deliver l1) (λ _, deliver l2) w.
Proof.
  induction l1 as [|e l1 IH]; intros w; [done|].
  simpl. unfold bind.
  destruct (dispatch_event e w) as [[[] w1]| |]; [|done..]. exact (IH w1).
Qed.

(** [toplevel_handle_closed] for the record at the head of the list. *)
Lemma closed_head w t rt h :
  toplevels w = Some t → recs w !! t = Some rt → handle rt = Some h →
  h ∈ objects w → owned w (app_id rt) → owned w (title rt) →
  NoDup (strings_of rt) →
  toplevel_handle_closed t h w =
    Ok (tt, set_recs (delete t (recs w))
              (set_objects (objects w ∖ {[h]})
                 (set_trace (trace w ++ [Lib (call_handle_destroy h)])
                    (set_strs (release (title rt) (release (app_id rt) (strs w)))
                       (set_toplevels (next rt) w))))).
Proof.
  intros Htop Hrt Hh Hl Ha Ht Hnd. unfold toplevel_handle_closed.
  assert (Eun : ∀ n, unlink (S n) t link_toplevels w =
                     Ok (tt, set_toplevels (next rt) w)).
  { intros n. cbn [unlink read_link]. unfold bind at 1, get at 1.
    rewrite Htop. rewrite decide_True by done.
    by run_step (load_run _ _ _ Hrt). }
  unfold bind at 1, get at 1. run_step (Eun (size (recs w))).
  assert (Ht' : owned (set_strs (release (app_id rt) (strs w))
                         (set_toplevels (next rt) w)) (title rt)).
  { destruct (title rt) as [q|] eqn:Hq; simpl; [|done].
    rewrite release_lookup_ne; [done|].
    intros Heq. unfold strings_of in Hnd. rewrite Heq, Hq in Hnd. simpl in Hnd.
    apply NoDup_cons in Hnd as [Hnd _]. apply Hnd. by left. }
  run_by ltac:(by apply load_run).
  run_by ltac:(by apply free_str_run).
  run_by ltac:(by apply load_run).
  run_step (free_str_run _ _ Ht').
  run_by ltac:(by apply handle_destroy_run).
  by erewrite free_handle_run.
Qed.

Section Lifecycle.
Context `{ProtocolHeader}.

(** One event of the tracked toplevel keeps it tracked. *)
Lemma tracking_step w ls t h wc e :
  wf wc (t :: ls) → tracking w t h wc → property_event t e →
  ∃ wc', dispatch_event e wc = Ok (tt, wc') ∧ wf wc' (t :: ls) ∧ tracking w t h wc'.
Proof.
  intros Hwf (rt & calls & Hrecs & Hh & Hn & Htop & Hobj & Hs1 & Hs2 & Hman & Hconn &
              Htr & Hcalls) Hev.
  assert (Htin : t ∈ t :: ls) by by left.
  assert (Hrt : recs wc !! t = Some rt) by (rewrite Hrecs; apply lookup_insert_eq).
  assert (Ha : owned wc (app_id rt)).
  { destruct (app_id rt) as [q|] eqn:Hq; simpl; [|done].
    apply (wf_strs_live _ _ Hwf t rt q Htin Hrt), elem_of_strings_of. by left. }
  assert (Ht : owned wc (title rt)).
  { destruct (title rt) as [q|] eqn:Hq; simpl; [|done].
    apply (wf_strs_live _ _ Hwf t rt q Htin Hrt), elem_of_strings_of. by right. }
  destruct e as [r n i v|r n|m h'|m|d h' s|d h' s|d h' o|d h' o|d h' st|d h'|d h'|d h' p];
    simpl in Hev; try done; subst d; simpl;
    try (exists wc; split; [done|]; split; [done|];
         by exists rt, calls).
  - destruct (title_event wc t h' rt s Hrt Ht)
      as (w' & E & Hr' & Hs' & Ho' & Ht' & Htop' & Hcb' & Hst').
    destruct (wf_title wc (t :: ls) t h' s Hwf Htin) as (w'' & E' & Hwf').
    rewrite E in E'. injection E' as <-.
    pose proof (respects_title same_connection _ _ _ _ _ _ E) as Hc'.
    exists w'. split; [done|]. split; [done|].
    destruct (tracking_strings (strs w) (strs wc) (app_id rt) (title rt) s)
      as [Hs1' Hs2'].
    { intros p Hp. destruct (Hs1 p Hp) as (? & ? & ?). done. }
    { intros p Hp Hp'. by apply Hs2. }
    eexists _, calls. split; [by rewrite Hr', Hrecs, insert_insert_eq|].
    simpl. rewrite Hs'.
    do 4 (split; [congruence|]).
    split; [exact Hs1'|]. split; [exact Hs2'|].
    split; [rewrite <- Hman; apply static_objects_manager; [done|apply Hc'..]|].
    split; [by eapply (frame_trans (R:=same_connection))|].
    split; [congruence|done].
  - destruct (app_id_event wc t h' rt s Hrt Ha)
      as (w' & E & Hr' & Hs' & Ho' & Ht' & Htop' & Hcb' & Hst').
    destruct (wf_app_id wc (t :: ls) t h' s Hwf Htin) as (w'' & E' & Hwf').
    rewrite E in E'. injection E' as <-.
    pose proof (respects_app_id same_connection _ _ _ _ _ _ E) as Hc'.
    exists w'. split; [done|]. split; [done|].
    destruct (tracking_strings (strs w) (strs wc) (title rt) (app_id rt) s)
      as [Hs1' Hs2'].
    { intros p Hp. destruct (Hs1 p Hp) as (? & ? & ?). done. }
    { intros p Hp Hp'. destruct (Hs2 p Hp Hp'); auto. }
    eexists _, calls. split; [by rewrite Hr', Hrecs, insert_insert_eq|].
    simpl. rewrite Hs'.
    do 4 (split; [congruence|]).
    split; [intros p Hp; destruct (Hs1' p Hp) as (? & ? & ?); done|].
    split; [intros p Hp Hp'; destruct (Hs2' p Hp Hp'); auto|].
    split; [rewrite <- Hman; apply static_objects_manager; [done|apply Hc'..]|].
    split; [by eapply (frame_trans (R:=same_connection))|].
    split; [congruence|done].
  - destruct (state_event wc t h' st rt Hrt Ha Ht)
      as (w' & E & Hr' & Ht' & Hs' & Hcb' & Ho' & Htop' & Hst').
    destruct (wf_state wc (t :: ls) t h' st Hwf Htin) as (w'' & E' & Hwf').
    rewrite E in E'. injection E' as <-.
    pose proof (respects_state same_connection _ _ _ _ _ _ E) as Hc'.
    exists w'. split; [done|]. split; [done|].
    eexists _, (calls ++ _). split; [by rewrite Hr', Hrecs, insert_insert_eq|].
    simpl. rewrite Hs'.
    do 4 (split; [congruence|]).
    split; [done|]. split; [done|].
    split; [rewrite <- Hman; apply static_objects_manager; [done|apply Hc'..]|].
    split; [by eapply (frame_trans (R:=same_connection))|].
    split.
    + rewrite Ht', Htr, <- app_assoc. simpl. reflexivity.
    + apply Forall_app. split; [done|].
      destruct (scan_activated st && (focused rt =? 0)); [|done].
      destruct (simple_callback wc); [|done]. apply Forall_singleton. tauto.
Qed.

Lemma tracking_run w ls t h evs : ∀ wc,
  wf wc (t :: ls) → tracking w t h wc → Forall (property_event t) evs →
  ∃ wc', deliver evs wc = Ok (tt, wc') ∧ wf wc' (t :: ls) ∧ tracking w t h wc'.
Proof.
  induction evs as [|e rest IH]; intros wc Hwf Htrk Hall.
  - by exists wc.
  - apply Forall_cons in Hall as [He Hall].
    destruct (tracking_step w ls t h wc e Hwf Htrk He) as (w1 & E1 & Hwf1 & Htrk1).
    destruct (IH w1 Hwf1 Htrk1 Hall) as (w2 & E2 & Hwf2 & Htrk2).
    exists w2. split; [|done]. cbn [deliver]. by run_step E1.
Qed.

(** X12.  A toplevel that is announced with a new protocol object in a
    well-formed state, receives any number of [title], [app_id], [state],
    [done], [output_enter], [output_leave] and [parent] events and is then
    closed, is handled without fault and leaves nothing behind: the
    records, the text blocks, the live objects, the list and every static
    are what they were before the announcement, and the state is well
    formed with the registry it had.  The trace grew by the attachment of
    the listener, calls of the callback, and the destruction of the
    protocol object. *)
Theorem toplevel_lifecycle w ls m h evs :
  wf w ls → h ∉ objects w →
  let t := fresh (dom (recs w)) in
  Forall (property_event t) evs →
  ∃ w' calls,
    exec (deliver (manager_toplevel m h :: evs ++ [handle_closed t h])) w = Ok w' ∧
    wf w' ls ∧
    recs w' = recs w ∧ strs w' = strs w ∧ objects w' = objects w ∧
    toplevels w' = toplevels w ∧ toplevel_manager w' = toplevel_manager w ∧
    same_connection w w' ∧
    trace w' = trace w ++ Lib (call_handle_add_listener h t) :: calls ++
               [Lib (call_handle_destroy h)] ∧
    Forall (λ e, ¬ is_lib e) calls.
Proof.
  intros Hwf Hh t Hall.
  assert (Hfresh : recs w !! t = None) by apply not_elem_of_dom, is_fresh.
  destruct (toplevel_spec w ls m h Hwf Hh)
    as (w1 & E1 & Hwf1 & Hnin & Hr1 & Hs1 & Ho1 & Htr1 & Hst1).
  fold t in E1, Hwf1, Hnin, Hr1, Htr1.
  assert (E1' : dispatch_event (manager_toplevel m h) w = Ok (tt, w1))
    by (simpl; unfold bind at 1, modify at 1; exact E1).
  pose proof (respects_dispatch_event same_connection _ _ _ _ E1') as Hc1.
  assert (Htrk1 : tracking w t h w1).
  { eexists _, []. split; [exact Hr1|]. simpl.
    pose proof (wf_list _ _ Hwf1) as Hl. unfold is_list in Hl. simpl in Hl.
    destruct Hl as (Htop1 & _).
    do 4 (split; [done|]).
    split; [intros p Hp; by rewrite Hs1|].
    split; [intros p Hp Hp'; rewrite Hs1, Hp in Hp'; by destruct Hp'|].
    split; [apply static_objects_manager; [done|apply Hc1..]|].
    split; [done|]. split; [done|]. apply Forall_nil_2. }
  destruct (tracking_run w ls t h evs w1 Hwf1 Htrk1 Hall) as (wc & Ec & Hwfc & Htrkc).
  destruct Htrkc as (rt & calls & Hrecs & Hhd & Hn & Htop & Hobj & Hsa & Hsb & Hman &
                     Hconn & Htr & Hcalls).
  assert (Htin : t ∈ t :: ls) by by left.
  assert (Hrt : recs wc !! t = Some rt) by (rewrite Hrecs; apply lookup_insert_eq).
  assert (Ha : owned wc (app_id rt)).
  { destruct (app_id rt) as [q|] eqn:Hq; simpl; [|done].
    apply (wf_strs_live _ _ Hwfc t rt q Htin Hrt), elem_of_strings_of. by left. }
  assert (Ht : owned wc (title rt)).
  { destruct (title rt) as [q|] eqn:Hq; simpl; [|done].
    apply (wf_strs_live _ _ Hwfc t rt q Htin Hrt), elem_of_strings_of. by right. }
  assert (Hlive : h ∈ objects wc).
  { rewrite Hobj. apply elem_of_union_l. by apply elem_of_singleton. }
  pose proof (closed_head wc t rt h Htop Hrt Hhd Hlive Ha Ht
                (wf_strs_own _ _ Hwfc t rt Htin Hrt)) as Ecl.
  destruct (closed_spec wc [] t ls rt h Hwfc Hrt Hhd) as (w' & Ecl' & Hwf' & _).
  rewrite Ecl in Ecl'. injection Ecl' as Hw'.
  exists w', calls. split.
  { unfold exec. cbn [deliver]. run_step E1'. rewrite deliver_app.
    run_step Ec. cbn [deliver dispatch_event]. run_step Ecl. rewrite Hw'. done. }
  split; [exact Hwf'|]. clear Hwf'. subst w'. simpl.
  split; [rewrite Hrecs, delete_insert_eq; by apply delete_id|].
  split.
  { apply map_eq. intros p. destruct (strs w !! p) as [s|] eqn:Hp.
    - destruct (Hsa p ltac:(by eexists)) as (Hc & Hna & Hnt).
      rewrite !release_lookup_ne by done. congruence.
    - destruct (decide (title rt = Some p)) as [Heq|Hnt].
      { rewrite Heq. simpl. apply lookup_delete_eq. }
      rewrite release_lookup_ne by done.
      destruct (decide (app_id rt = Some p)) as [Heq|Hna].
      { rewrite Heq. simpl. apply lookup_delete_eq. }
      rewrite release_lookup_ne by done.
      destruct (strs wc !! p) as [s|] eqn:Hc; [|done].
      destruct (Hsb p Hp) as [?|?]; [by eexists|done..]. }
  split.
  { rewrite Hobj. apply set_eq. intros o.
    rewrite elem_of_difference, elem_of_union, elem_of_singleton.
    split; [tauto|]. intros Ho. split; [by right|]. by intros ->. }
  split; [done|]. split; [done|].
  split; [destruct Hconn as (?&?&?&?&?&?); by repeat split|].
  split; [|done]. rewrite Htr. rewrite <- app_assoc. simpl. reflexivity.
Qed.

End Lifecycle.

(** ** After teardown *)

Section Offline.
Context `{ProtocolHeader}.

(** X3.  After a cleanup that returned, and after an init that returned
    0, the three entry points that use the connection do nothing:
    [wlr_toplevel_dispatch] returns 0, [wlr_toplevel_get_fd] returns -1
    and [wlr_toplevel_read_events] returns, each in the world it was
    called in, with no library call made.  After cleanup the state is
    moreover one init can be called in again, with an empty registry. *)
Theorem entry_points_after_teardown w0 w :
  (∃ u, wlr_toplevel_cleanup w0 = Ok (u, w)) ∨
  (∃ env, wlr_toplevel_init env w0 = Ok (0, w)) →
  wlr_toplevel_dispatch w = Ok (0, w) ∧
  wlr_toplevel_get_fd w = Ok (-1, w) ∧
  (∀ fuel, wlr_toplevel_read_events fuel w = Ok (tt, w)) ∧
  ((∃ u, wlr_toplevel_cleanup w0 = Ok (u, w)) → wf_offline w []).
Proof.
  intros Hdown.
  assert (Hd : display w = None).
  { destruct Hdown as [[u E]|[env E]].
    - by destruct (cleanup_clears _ _ _ E) as (_ & _ & _ & ?).
    - destruct (init_returns _ _ _ _ E) as [[? _]|[_ ?]]; done. }
  unfold wlr_toplevel_dispatch, wlr_toplevel_get_fd, wlr_toplevel_read_events,
    bind, get. rewrite Hd. do 3 (split; [done|]).
  intros [u E]. destruct (cleanup_clears _ _ _ E) as (Ht & Hm & _ & _).
  unfold wf_offline.
  split; simpl; unfold static_objects, is_list; simpl; rewrite ?Ht, ?Hm; simpl;
    try done; try apply NoDup_nil_2; intros;
    match goal with H : _ ∈ [] |- _ => by apply elem_of_nil in H end.
Qed.

End Offline.

(** ** What the callback is told *)

(** A block that is there is still there after a new one was allocated. *)
Lemma kept_text_lookup (m : gmap loc string) (text : option string) q s :
  m !! q = Some s →
  match text with Some x => <[fresh (dom m) := x]> m | None => m end !! q = Some s.
Proof.
  intros Hm. destruct text as [x|]; [|done]. rewrite lookup_insert_ne; [done|].
  intros Heq. pose proof (is_fresh (dom m)) as Hf. rewrite Heq in Hf.
  apply Hf, elem_of_dom. by eexists.
Qed.

Section Reported.
Context `{ProtocolHeader}.

(** X14.  On a live record that is not focused and whose two text
    pointers are NULL or allocated and different, with a callback
    registered: an [app_id] event, a [title] event and then a [state]
    event with the activated entry call the callback once, with the text
    of these two events (the empty string for an event that carried
    none), not with what the record held before, and with 1 as the
    flag. *)
Theorem latest_text_reported w t h r cb a b st :
  recs w !! t = Some r → owned w (app_id r) → owned w (title r) →
  NoDup (strings_of r) →
  simple_callback w = Some cb → focused r = 0 → scan_activated st = true →
  ∃ w',
    exec (deliver [handle_app_id t h a; handle_title t h b; handle_state t h st]) w
      = Ok w' ∧
    trace w' = trace w ++ [Notify cb (default EmptyString a) (default EmptyString b) 1].
Proof.
  intros Hr Ha Ht Hnd Hcb Hf Hs.
  destruct (app_id_event w t h r a Hr Ha)
    as (w1 & E1 & Hr1 & Hs1 & _ & Htr1 & _ & Hcb1 & _).
  cbv zeta in Hr1, Hs1.
  set (m0 := release (app_id r) (strs w)) in *.
  assert (Htm0 : ∀ q, title r = Some q → is_Some (m0 !! q)).
  { intros q Hq. rewrite Hq in Ht. simpl in Ht. destruct Ht as [s Hqs].
    exists s. unfold m0. rewrite release_lookup_ne; [done|].
    intros Heq. unfold strings_of in Hnd. rewrite Heq, Hq in Hnd. simpl in Hnd.
    apply NoDup_cons in Hnd as [Hnd _]. apply Hnd. by left. }
  set (p1 := match a with Some _ => Some (fresh (dom m0)) | None => None end) in *.
  set (r1 := with_app_id p1 r) in *.
  assert (Hr1' : recs w1 !! t = Some r1) by (rewrite Hr1; apply lookup_insert_eq).
  assert (Ht1 : owned w1 (title r1)).
  { unfold r1. simpl. destruct (title r) as [q|] eqn:Hq; simpl; [|done].
    destruct (Htm0 q eq_refl) as [s Hm]. exists s. rewrite Hs1.
    by apply kept_text_lookup. }
  destruct (title_event w1 t h r1 b Hr1' Ht1)
    as (w2 & E2 & Hr2 & Hs2 & _ & Htr2 & _ & Hcb2 & _).
  cbv zeta in Hr2, Hs2.
  set (m1 := release (title r1) (strs w1)) in *.
  set (p2 := match b with Some _ => Some (fresh (dom m1)) | None => None end) in *.
  set (r2 := with_title p2 r1) in *.
  assert (Hr2' : recs w2 !! t = Some r2) by (rewrite Hr2; apply lookup_insert_eq).
  assert (Hta : text_at w2 (app_id r2) = a).
  { unfold r2, r1, p1. simpl. destruct a as [sa|]; [|done]. simpl. rewrite Hs2.
    apply kept_text_lookup. unfold m1, r1. simpl.
    rewrite release_lookup_ne.
    - rewrite Hs1. apply lookup_insert_eq.
    - intros Heq. destruct (Htm0 _ Heq) as [s Hm].
      apply (is_fresh (dom m0)), elem_of_dom. by eexists. }
  assert (Htb : text_at w2 (title r2) = b).
  { unfold r2, p2. simpl. destruct b as [sb|]; [|done]. simpl. rewrite Hs2.
    apply lookup_insert_eq. }
  assert (Ha2 : owned w2 (app_id r2)).
  { destruct (app_id r2) as [q|] eqn:Hq; simpl; [|done].
    unfold r2, r1, p1 in Hq, Hta. simpl in Hq, Hta. destruct a as [sa|]; [|done].
    injection Hq as <-. simpl in Hta. by eexists. }
  assert (Ht2 : owned w2 (title r2)).
  { destruct (title r2) as [q|] eqn:Hq; simpl; [|done].
    unfold r2, p2 in Hq, Htb. simpl in Hq, Htb. destruct b as [sb|]; [|done].
    injection Hq as <-. simpl in Htb. by eexists. }
  destruct (state_event w2 t h st r2 Hr2' Ha2 Ht2) as (w3 & E3 & _ & Htr3 & _).
  exists w3. split.
  - unfold exec. cbn [deliver dispatch_event].
    run_step E1. run_step E2. run_step E3. done.
  - rewrite Htr3, Htr2, Htr1, Hs, Hcb2, Hcb1, Hcb. unfold shown. rewrite Hta, Htb.
    assert (Hf2 : focused r2 = 0) by done. by rewrite Hf2.
Qed.

End Reported.

(** ** The scan of the state array *)

Section Scan.
Context `{ProtocolHeader}.

(** X15.  The scan of a [state] array finds the activated entry exactly
    when the array holds it, wherever it stands and whatever else the
    array holds; so two arrays that agree on holding it are handled alike:
    same result, same world, from every state. *)
Theorem state_depends_on_activated_only data hdl e1 e2 :
  (ZWLR_FOREIGN_TOPLEVEL_HANDLE_V1_STATE_ACTIVATED ∈ e1 ↔
   ZWLR_FOREIGN_TOPLEVEL_HANDLE_V1_STATE_ACTIVATED ∈ e2) →
  (scan_activated e1 = true ↔ ZWLR_FOREIGN_TOPLEVEL_HANDLE_V1_STATE_ACTIVATED ∈ e1) ∧
  ∀ w, toplevel_handle_state data hdl e1 w = toplevel_handle_state data hdl e2 w.
Proof.
  intros Hsame. split; [apply scan_activated_elem|].
  assert (Hscan : scan_activated e1 = scan_activated e2).
  { rewrite <- !scan_activated_elem in Hsame.
    destruct (scan_activated e1), (scan_activated e2); try done.
    - symmetry. by apply Hsame.
    - by apply Hsame. }
  intros w. unfold toplevel_handle_state. by rewrite Hscan.
Qed.

(** X16.  In a well-formed state, a [title], [app_id], [state], [done],
    [output_enter], [output_leave] or [parent] event of one toplevel of
    the registry changes no other record, and no text block of another
    record of the registry: each toplevel is tracked on its own, and the
    focus flag of one is not cleared when another gets the focus. *)
Theorem other_records_untouched w ls t e :
  wf w ls → t ∈ ls → property_event t e →
  ∃ w',
    exec (dispatch_event e) w = Ok w' ∧
    ∀ l r, l ≠ t → recs w !! l = Some r →
      recs w' !! l = Some r ∧
      (l ∈ ls → ∀ p, p ∈ strings_of r → strs w' !! p = strs w !! p).
Proof.
  intros Hwf Htin Hev.
  destruct (lseg_lookup _ _ _ _ t (wf_list _ _ Hwf) Htin) as [rt Hrt].
  assert (Ha : owned w (app_id rt)).
  { destruct (app_id rt) as [q|] eqn:Hq; simpl; [|done].
    apply (wf_strs_live _ _ Hwf t rt q Htin Hrt), elem_of_strings_of. by left. }
  assert (Ht : owned w (title rt)).
  { destruct (title rt) as [q|] eqn:Hq; simpl; [|done].
    apply (wf_strs_live _ _ Hwf t rt q Htin Hrt), elem_of_strings_of. by right. }
  assert (Hkeep : ∀ old text l r p,
            old = app_id rt ∨ old = title rt →
            l ≠ t → recs w !! l = Some r → l ∈ ls → p ∈ strings_of r →
            let m0 := release old (strs w) in
            match text with Some x => <[fresh (dom m0) := x]> m0 | None => m0 end !! p
              = strs w !! p).
  { intros old text l r p Hold Hne Hr Hl Hp m0.
    destruct (wf_strs_live _ _ Hwf l r p Hl Hr Hp) as [s Hs]. rewrite Hs.
    apply kept_text_lookup. unfold m0. rewrite release_lookup_ne; [done|].
    intros Heq. apply Hne. apply (wf_strs_sep _ _ Hwf l t r rt p); try done.
    apply elem_of_strings_of. destruct Hold as [->| ->]; auto. }
  unfold exec.
  destruct e as [r n i v|r n|m h'|m|d h' s|d h' s|d h' o|d h' o|d h' st|d h'|d h'|d h' p];
    simpl in Hev; try done; subst d; simpl;
    try (exists w; split; [done|]; intros l r Hne Hr; by split).
  - destruct (title_event w t h' rt s Hrt Ht) as (w' & E & Hr' & Hs' & _).
    exists w'. rewrite E. split; [done|]. intros l r Hne Hr.
    split; [by rewrite Hr', lookup_insert_ne|].
    intros Hl p Hp. rewrite Hs'. apply (Hkeep (title rt) s l r p); auto.
  - destruct (app_id_event w t h' rt s Hrt Ha) as (w' & E & Hr' & Hs' & _).
    exists w'. rewrite E. split; [done|]. intros l r Hne Hr.
    split; [by rewrite Hr', lookup_insert_ne|].
    intros Hl p Hp. rewrite Hs'. apply (Hkeep (app_id rt) s l r p); auto.
  - destruct (state_event w t h' st rt Hrt Ha Ht) as (w' & E & Hr' & _ & Hs' & _).
    exists w'. rewrite E. split; [done|]. intros l r Hne Hr.
    split; [by rewrite Hr', lookup_insert_ne|].
    intros Hl p Hp. by rewrite Hs'.
Qed.

End Scan.

(** ** These properties at concrete states *)

Section MoreExamples.
#[local] Existing Instance wlr_protocol_v1.

Lemma wf_editor_connected : wf editor_connected [1%positive].
Proof.
  assert (Hrec : ∀ l r, l ∈ [1%positive] → recs editor_connected !! l = Some r →
                        l = 1%positive ∧ r = editor_record).
  { intros l r ->%list_elem_of_singleton Hr. vm_compute in Hr. by injection Hr as <-. }
  split.
  - unfold is_list. simpl. split; [done|]. exists editor_record. by split.
  - apply NoDup_singleton.
  - intros l r p Hl Hr Hp. destruct (Hrec l r Hl Hr) as [-> ->].
    apply elem_of_strings_of in Hp as [Hp|Hp]; injection Hp as <-;
      vm_compute; by eexists.
  - intros l1 l2 r1 r2 p Hl1 Hl2 Hr1 Hr2 _ _.
    destruct (Hrec l1 r1 Hl1 Hr1) as [-> _]. by destruct (Hrec l2 r2 Hl2 Hr2) as [-> _].
  - intros l r Hl Hr. destruct (Hrec l r Hl Hr) as [-> ->].
    unfold strings_of. simpl. apply NoDup_cons.
    split; [by rewrite list_elem_of_singleton|apply NoDup_singleton].
  - intros l r h Hl Hr Hh. destruct (Hrec l r Hl Hr) as [-> ->].
    injection Hh as <-. split; [by vm_compute|].
    unfold static_objects. simpl. rewrite !elem_of_cons, elem_of_nil.
    intuition discriminate.
  - intros l1 l2 r1 r2 p Hl1 Hl2 Hr1 Hr2 _ _.
    destruct (Hrec l1 r1 Hl1 Hr1) as [-> _]. by destruct (Hrec l2 r2 Hl2 Hr2) as [-> _].
  - unfold static_objects. simpl.
    repeat (apply NoDup_cons; split;
            [rewrite ?elem_of_cons, ?elem_of_nil; intuition discriminate|]).
    apply NoDup_nil_2.
  - unfold static_objects. simpl. intros o.
    rewrite !elem_of_cons, elem_of_nil. intros [->|[->|[->|[]]]]; by vm_compute.
Qed.

Lemma wf_editor_readable : wf editor_readable [1%positive].
Proof. by eapply wf_ext; [..|exact wf_editor_connected]. Qed.

(** X1 at the state with one announced toplevel: its first [title]. *)
Lemma listeners_keep_invariant_witness :
  ∃ w',
    exec (dispatch_event (handle_title 1%positive 4%positive (Some "notes"%string)))
      one_toplevel = Ok w' ∧
    wf w' [1%positive] ∧ same_connection one_toplevel w' ∧ unblocked one_toplevel w'.
Proof.
  apply (listeners_keep_invariant one_toplevel [1%positive]
           (handle_title 1%positive 4%positive (Some "notes"%string))).
  - exact wf_one_toplevel.
  - simpl. by left.
Defined.

(** X2 at [editor_connected]: two queued events. *)
Lemma dispatch_connected_witness :
  ∃ w' ls' new,
    wlr_toplevel_dispatch editor_connected = Ok (1, w') ∧ wf w' ls' ∧
    event_queue w' = [] ∧ socket_in w' = socket_in editor_connected ∧
    reader_count w' = reader_count editor_connected ∧ display w' = Some 5%positive ∧
    trace w' = trace editor_connected ++ [Lib call_display_dispatch_pending] ++ new ++
               [Lib call_display_flush] ∧
    Forall (λ e, may_block e = false) new.
Proof.
  apply (dispatch_connected editor_connected [1%positive] 5%positive).
  - exact wf_editor_connected.
  - reflexivity.
  - simpl. split; [by left|].
    intros w1 E1. vm_compute in E1. injection E1 as <-.
    split; [by left|].
    intros w2 E2. vm_compute in E2. injection E2 as <-. done.
Defined.

(** X3 after the cleanup of the initial state. *)
Lemma entry_points_after_teardown_witness :
  wlr_toplevel_dispatch initial_world = Ok (0, initial_world) ∧
  wlr_toplevel_get_fd initial_world = Ok (-1, initial_world) ∧
  (∀ fuel, wlr_toplevel_read_events fuel initial_world = Ok (tt, initial_world)) ∧
  ((∃ u, wlr_toplevel_cleanup initial_world = Ok (u, initial_world)) →
   wf_offline initial_world []).
Proof.
  apply (entry_points_after_teardown initial_world initial_world).
  left. exists tt. reflexivity.
Defined.

(** X4 at the state with one announced toplevel and no callback: the
    window is activated, then the callback is registered, then two more
    arrays with the activated entry arrive. *)
Lemma callback_set_late_witness :
  ∃ w',
    exec (deliver (handle_state 1%positive 4%positive <$> [[]] ++ [[2]]) ;;
          wlr_toplevel_set_callback (Some 9%positive) ;;
          deliver (handle_state 1%positive 4%positive <$> [[2]; [0; 2]]))
      one_toplevel = Ok w' ∧
    trace w' = trace one_toplevel ∧ simple_callback w' = Some 9%positive ∧
    focused <$> recs w' !! 1%positive = Some 1.
Proof.
  destruct (callback_set_late one_toplevel 1%positive 4%positive
              (mk_toplevel_handle (Some 4%positive) None None 0 None)) as [_ Hlate].
  - reflexivity.
  - reflexivity.
  - apply (Hlate [[]] [2] 9%positive [[2]; [0; 2]]).
    + reflexivity.
    + by repeat constructor.
Defined.

(** X5 at [editor_connected]. *)
Lemma cleanup_destroys_owned_only_witness :
  ∃ w',
    exec wlr_toplevel_cleanup editor_connected = Ok w' ∧
    ∀ o, o ∈ objects w' ↔
         o ∈ objects editor_connected ∧ (o ∉ static_objects editor_connected) ∧
         ∀ l r, l ∈ [1%positive] → recs editor_connected !! l = Some r →
                handle r ≠ Some o.
Proof.
  apply (cleanup_destroys_owned_only editor_connected [1%positive]).
  exact wf_editor_connected.
Defined.

(** X6 at [editor_connected], whose manager is object 7. *)
Lemma finished_then_cleanup_witness :
  ∃ w1 w2 rest,
    exec (toplevel_manager_handle_finished 7%positive) editor_connected = Ok w1 ∧
    wf w1 [1%positive] ∧ toplevel_manager w1 = None ∧ (7%positive ∉ objects w1) ∧
    recs w1 = recs editor_connected ∧ toplevels w1 = toplevels editor_connected ∧
    trace w1 = trace editor_connected ++ [Lib (call_manager_destroy 7%positive)] ∧
    exec wlr_toplevel_cleanup w1 = Ok w2 ∧
    trace w2 = trace w1 ++ rest ∧ (Lib (call_manager_destroy 7%positive) ∉ rest).
Proof.
  apply (finished_then_cleanup editor_connected [1%positive] 7%positive).
  - exact wf_editor_connected.
  - reflexivity.
Defined.

(** X7 at [editor_connected]: a second manager global, advertised at
    version 1 on the registry proxy 6. *)
Lemma manager_global_rebinds_witness :
  ∃ w1 w2 m1,
    exec (registry_handle_global 6%positive 7
            zwlr_foreign_toplevel_manager_v1_interface_name 1) editor_connected
      = Ok w1 ∧
    wf w1 [1%positive] ∧
    toplevel_manager w1 = Some m1 ∧ (m1 ∉ objects editor_connected) ∧
    m1 ∈ objects w1 ∧
    trace w1 = trace editor_connected ++
               [Lib (call_registry_bind 6%positive 7 3);
                Lib (call_manager_add_listener m1)] ∧
    exec wlr_toplevel_cleanup w1 = Ok w2 ∧ (m1 ∉ objects w2) ∧
    ∀ m0, toplevel_manager editor_connected = Some m0 →
      m0 ≠ m1 ∧ m0 ∈ objects w1 ∧ (m0 ∉ static_objects w1) ∧ m0 ∈ objects w2.
Proof.
  apply (manager_global_rebinds editor_connected [1%positive] 6%positive 7 1).
  - exact wf_editor_connected.
  - by vm_compute.
Defined.

Lemma wf_offline_initial : wf_offline initial_world [].
Proof. unfold wf_offline. by eapply wf_ext; [..|exact wf_initial]. Qed.

(** X8 at the initial state, with a compositor that offers the manager
    and announces one toplevel. *)
Lemma init_outcome_witness :
  ∃ r w' ls',
    wlr_toplevel_init manager_env initial_world = Ok (r, w') ∧
    ((r = 1 ∧ wf w' ls' ∧ is_Some (display w') ∧ is_Some (registry w') ∧
      event_queue w' = []) ∨
     (r = 0 ∧ display w' = None ∧ toplevel_manager w' = None ∧ wf_offline w' ls' ∧
      ∃ rg, registry w' = Some rg ∧ rg ∉ objects w')).
Proof.
  apply (init_outcome manager_env initial_world []).
  - exact wf_offline_initial.
  - reflexivity.
  - simpl. split; [by vm_compute|].
    intros w1 E1. vm_compute in E1. injection E1 as <-.
    split; [by vm_compute|].
    intros w2 E2. vm_compute in E2. injection E2 as <-.
    intros _. simpl. split; [by vm_compute|].
    intros w3 E3. vm_compute in E3. injection E3 as <-.
    split; [by left|].
    intros w4 E4. vm_compute in E4. injection E4 as <-.
    split; [by left|].
    intros w5 E5. vm_compute in E5. injection E5 as <-.
    split; [by left|]. done.
Defined.

(** X9 at the initial state: a compositor that cannot be reached, and
    one that offers the manager. *)
Lemma init_result_witness :
  wlr_toplevel_init unreachable_env initial_world =
    Ok (0, set_display None
             (set_trace (trace initial_world ++ [Lib call_display_connect])
                initial_world)) ∧
  ∃ w', wlr_toplevel_init manager_env initial_world = Ok (1, w') ∧
        is_Some (display w').
Proof.
  split.
  - apply (init_result unreachable_env initial_world). reflexivity.
  - assert (E : ∃ w', wlr_toplevel_init manager_env initial_world = Ok (1, w'))
      by (eexists; vm_compute; reflexivity).
    destruct E as [w' E]. exists w'. split; [exact E|].
    destruct (proj1 (init_result manager_env initial_world) 1 w' E)
      as [(_ & Hd & _)|[Hr _]]; [exact Hd|discriminate Hr].
Defined.

(** X10 at [editor_readable]: two events on the socket. *)
Lemma read_events_data_witness :
  ∃ w' ls' new,
    wlr_toplevel_read_events 1 editor_readable = Ok (tt, w') ∧ wf w' ls' ∧
    socket_in w' = [] ∧ event_queue w' = [] ∧
    reader_count w' = reader_count editor_readable ∧ display w' = Some 5%positive ∧
    trace w' = trace editor_readable ++
      [Lib call_display_prepare_read; Lib call_display_flush;
       Lib call_display_get_fd; Lib (call_poll 0);
       Lib call_display_read_events; Lib call_display_dispatch_pending] ++ new ∧
    Forall (λ e, may_block e = false) new.
Proof.
  apply (read_events_data editor_readable [1%positive] 5%positive 1).
  - exact wf_editor_readable.
  - reflexivity.
  - reflexivity.
  - discriminate.
  - lia.
  - simpl. split; [by left|].
    intros w1 E1. vm_compute in E1. injection E1 as <-.
    split; [by left|].
    intros w2 E2. vm_compute in E2. injection E2 as <-. done.
Defined.

(** X11 at the state with one announced toplevel. *)
Lemma events_after_closed_witness :
  ∃ w',
    exec (dispatch_event (handle_closed 1%positive 4%positive)) one_toplevel = Ok w' ∧
    exec (dispatch_event (handle_title 1%positive 4%positive (Some "late"%string))) w'
      = Fault (UseAfterFree 1%positive) ∧
    exec (dispatch_event (handle_closed 1%positive 4%positive)) w'
      = Fault (UseAfterFree 1%positive) ∧
    exec (dispatch_event (handle_done 1%positive 4%positive)) w' = Ok w'.
Proof.
  destruct (events_after_closed one_toplevel [1%positive] 1%positive 4%positive)
    as (w' & E & Htitle & _ & _ & Hclosed & Hempty).
  - exact wf_one_toplevel.
  - by left.
  - reflexivity.
  - exists w'. split; [exact E|]. split; [apply Htitle|]. split; [apply Hclosed|].
    apply (Hempty 4%positive 1%positive None).
Defined.

(** X12 at the initial state: a toplevel is announced, named, activated
    and closed. *)
Lemma toplevel_lifecycle_witness :
  ∃ w' calls,
    exec (deliver (manager_toplevel 3%positive 4%positive ::
                   [handle_app_id 1%positive 4%positive (Some "editor"%string);
                    handle_state 1%positive 4%positive [2];
                    handle_done 1%positive 4%positive] ++
                   [handle_closed 1%positive 4%positive])) initial_world = Ok w' ∧
    wf w' [] ∧
    recs w' = recs initial_world ∧ strs w' = strs initial_world ∧
    objects w' = objects initial_world ∧ toplevels w' = toplevels initial_world ∧
    toplevel_manager w' = toplevel_manager initial_world ∧
    same_connection initial_world w' ∧
    trace w' = trace initial_world ++
               Lib (call_handle_add_listener 4%positive 1%positive) :: calls ++
               [Lib (call_handle_destroy 4%positive)] ∧
    Forall (λ e, ¬ is_lib e) calls.
Proof.
  apply (toplevel_lifecycle initial_world [] 3%positive 4%positive
           [handle_app_id 1%positive 4%positive (Some "editor"%string);
            handle_state 1%positive 4%positive [2];
            handle_done 1%positive 4%positive]).
  - exact wf_initial.
  - by intros ?%elem_of_empty.
  - repeat constructor.
Defined.

(** X13 at the initial state, with a compositor that offers two globals,
    neither of them the manager. *)
Lemma init_without_manager_witness :
  ∃ w',
    wlr_toplevel_init no_manager_env initial_world = Ok (0, w') ∧
    display w' = None ∧ toplevel_manager w' = None ∧
    registry w' = Some 2%positive ∧ (2%positive ∉ objects w') ∧
    objects w' = objects initial_world ∧ recs w' = recs initial_world ∧
    strs w' = strs initial_world ∧ toplevels w' = toplevels initial_world ∧
    simple_callback w' = simple_callback initial_world ∧
    trace w' = trace initial_world ++
      [Lib call_display_connect; Lib call_display_get_registry;
       Lib (call_registry_add_listener 2%positive); Lib call_display_roundtrip;
       Lib (call_registry_destroy 2%positive); Lib call_display_disconnect].
Proof.
  apply (init_without_manager no_manager_env initial_world).
  - reflexivity.
  - reflexivity.
  - repeat constructor; discriminate.
Defined.

(** X14 at [editor_world]: a new [app_id], the [title] taken away, then
    the activation. *)
Lemma latest_text_reported_witness :
  ∃ w',
    exec (deliver [handle_app_id 1%positive 4%positive (Some "term"%string);
                   handle_title 1%positive 4%positive None;
                   handle_state 1%positive 4%positive [2]]) editor_world = Ok w' ∧
    trace w' = trace editor_world ++ [Notify 9%positive "term" "" 1].
Proof.
  apply (latest_text_reported editor_world 1%positive 4%positive editor_record
           9%positive (Some "term"%string) None [2]).
  - reflexivity.
  - simpl. eexists. reflexivity.
  - simpl. eexists. reflexivity.
  - unfold strings_of. simpl. apply NoDup_cons.
    split; [by rewrite list_elem_of_singleton|apply NoDup_singleton].
  - reflexivity.
  - reflexivity.
  - reflexivity.
Defined.

(** X15 for the arrays [0; 2] and [2; 2; 3] (maximized and activated;
    activated twice and fullscreen). *)
Lemma state_depends_on_activated_only_witness :
  toplevel_handle_state 1%positive 4%positive [0; 2] editor_world =
  toplevel_handle_state 1%positive 4%positive [2; 2; 3] editor_world.
Proof.
  apply (state_depends_on_activated_only 1%positive 4%positive [0; 2] [2; 2; 3]).
  split; intros _; simpl; rewrite !elem_of_cons; auto.
Defined.

Lemma wf_two_toplevels : wf two_toplevels [2%positive; 1%positive].
Proof.
  destruct (toplevel_spec one_toplevel [1%positive] 3%positive 8%positive
              wf_one_toplevel ltac:(by vm_compute)) as (w' & E & Hwf & _).
  vm_compute in E. injection E as <-. exact Hwf.
Qed.

(** X16 at the state with two announced toplevels: the [title] event of
    the second leaves the record of the first as it is. *)
Lemma other_records_untouched_witness :
  ∃ w',
    exec (dispatch_event (handle_title 2%positive 8%positive (Some "term"%string)))
      two_toplevels = Ok w' ∧
    recs w' !! 1%positive = recs two_toplevels !! 1%positive.
Proof.
  destruct (other_records_untouched two_toplevels [2%positive; 1%positive] 2%positive
              (handle_title 2%positive 8%positive (Some "term"%string)))
    as (w' & E & Hother).
  - exact wf_two_toplevels.
  - by left.
  - reflexivity.
  - exists w'. split; [exact E|].
    destruct (Hother 1%positive (mk_toplevel_handle (Some 4%positive) None None 0 None))
      as [Hr _]; [done|reflexivity|].
    etrans; [exact Hr|reflexivity].
Defined.

End MoreExamples.
